(** * Code Compiler & Executer: job queue, executor and client session

    A shallow embedding of the server side of the service
    (server/src/queue_manager.c, server/src/compiler_service.c,
    server/src/client_handler.c, common/protocol.h, server/include/*.h)
    together with the properties of its job scheduler, sandbox
    executor and client session handler.

    Conventions of the embedding.
    - C integers are [Z]; where the source relies on 32-bit wrap-around
      the reduction modulo [2^32] is written out.
    - [time(NULL)] is an input of every function that reads the clock.
    - The linked list [job_queue.head -> ... -> tail] is a [list] with
      the head first; [job_queue.count] is its length.
    - Every critical section guarded by [jobs_mutex] is one atomic
      function of the queue; threads interleave at function granularity.
    - [malloc]/[calloc] are taken to succeed; logging is left out.
    - What the operating system decides (pipes, fork, select, read,
      waitpid, mkdir, access, send, recv) is an explicit input. *)

From Stdlib Require Import ZArith List Bool Lia String Ascii DecimalString Permutation.
Import ListNotations.
Open Scope string_scope.
Open Scope list_scope.
Open Scope Z_scope.

(** ** Shared helpers *)

Definition wrap32 (z : Z) : Z := z mod 2 ^ 32.

(** [%u] / [%d] / [%lu] conversions of snprintf. *)
Definition dec (z : Z) : string := NilZero.string_of_int (Z.to_int z).

(** A C string written into a buffer of [size] bytes by [strncpy(dst, src,
    size - 1)] over zeroed memory, or by [snprintf(dst, size, ...)]. *)
Definition bounded (size : nat) (s : string) : string :=
  substring 0 (size - 1) s.

(** Signals and events that reach the operating system. *)
Definition SIGKILL : Z := 9.
Definition SIGTERM : Z := 15.

Inductive os_event : Type :=
| EvLaunch (command : string) (timeout : Z)   (* fork + execl("/bin/sh","-c",command) *)
| EvKill (pid : Z) (sig : Z)                  (* kill(pid, sig) *)
| EvMkdir (dir : string)                      (* mkdir(dir, 0755) *)
| EvRemoveTree (dir : string).                (* system("rm -rf 'dir'") *)

(** Option bind, for the loops whose length the environment decides. *)
Definition obind {A B : Type} (x : option A) (f : A -> option B) : option B :=
  match x with Some a => f a | None => None end.

Notation "'do' p <- x ; k" := (obind x (fun p => k))
  (at level 10, p pattern, x at level 100, k at level 200).

(** ** common/protocol.h *)
Module Proto.

Definition PROTOCOL_MAGIC : Z := 0x43434545.
Definition MAX_MESSAGE_SIZE : Z := 16 * 1024 * 1024.
Definition MAX_FILENAME_SIZE : nat := 256.
Definition MAX_COMMAND_SIZE : nat := 1024.
Definition MAX_ERROR_MESSAGE_SIZE : nat := 4096.

(* message_type_t *)
Definition MSG_HELLO : Z := 1.
Definition MSG_FILE_UPLOAD_START : Z := 2.
Definition MSG_FILE_UPLOAD_CHUNK : Z := 3.
Definition MSG_FILE_UPLOAD_END : Z := 4.
Definition MSG_COMPILE_REQUEST : Z := 5.
Definition MSG_STATUS_REQUEST : Z := 6.
Definition MSG_RESULT_REQUEST : Z := 7.
Definition MSG_PING : Z := 8.
Definition MSG_ACK : Z := 100.
Definition MSG_NACK : Z := 101.
Definition MSG_ERROR : Z := 102.
Definition MSG_COMPILE_RESPONSE : Z := 103.
Definition MSG_STATUS_RESPONSE : Z := 104.
Definition MSG_RESULT_RESPONSE : Z := 105.
Definition MSG_PONG : Z := 106.

(* execution_mode_t *)
Definition EXEC_MODE_COMPILE_ONLY : Z := 0.
Definition EXEC_MODE_COMPILE_AND_RUN : Z := 1.
Definition EXEC_MODE_INTERPRET_ONLY : Z := 2.
Definition EXEC_MODE_SYNTAX_CHECK : Z := 3.

(* job_status_t *)
Definition JOB_STATUS_QUEUED : Z := 0.

(* error_code_t *)
Definition ERROR_INVALID_ARGUMENT : Z := 1.
Definition ERROR_PERMISSION : Z := 2.
Definition ERROR_NOT_FOUND : Z := 3.
Definition ERROR_QUOTA_EXCEEDED : Z := 4.
Definition ERROR_INTERNAL : Z := 6.

(** [message_header_t], packed: 4 + 2 + 2 + 4 + 4 + 8 + 4 bytes. *)
Record message_header_t : Type := mk_header {
  magic : Z;
  message_type : Z;
  flags : Z;
  data_length : Z;
  correlation_id : Z;
  timestamp : Z;
  checksum : Z
}.

Definition sizeof_message_header : Z := 4 + 2 + 2 + 4 + 4 + 8 + 4.

(* sizes of the packed payload records *)
Definition sizeof_hello_payload : Z := 2 + 2 + 2 + 2 + 64 + 32.
Definition sizeof_file_upload_start : Z := 8 + 4 + 4 + 256 + 4.
Definition sizeof_file_chunk : Z := 4 + 4 + 4.
Definition sizeof_compile_request : Z := 2 + 2 + 2 + 2 + 256 + 1024 + 1024.
Definition sizeof_uint32 : Z := 4.

End Proto.

(** ** server/src/compiler_service.c, server/include/compiler.h *)
Module Executor.

Definition MAX_COMPILER_OUTPUT : Z := 8192.
Definition MAX_COMPILATION_TIME : Z := 300.  (* 5 minutes max *)
Definition MAX_EXECUTION_TIME : Z := 60.     (* 1 minute max *)

(* compiler_type_t *)
Definition COMPILER_C : Z := 1.
Definition COMPILER_CPP : Z := 2.
Definition COMPILER_JAVA : Z := 3.
Definition COMPILER_PYTHON : Z := 4.
Definition COMPILER_JAVASCRIPT : Z := 5.
Definition COMPILER_GO : Z := 6.
Definition COMPILER_RUST : Z := 7.

Inductive compile_status_t : Type :=
| COMPILE_STATUS_PENDING
| COMPILE_STATUS_COMPILING
| COMPILE_STATUS_COMPILED
| COMPILE_STATUS_RUNNING
| COMPILE_STATUS_COMPLETED
| COMPILE_STATUS_FAILED
| COMPILE_STATUS_TIMEOUT
| COMPILE_STATUS_CANCELLED.

Definition is_compiled (s : compile_status_t) : bool :=
  match s with COMPILE_STATUS_COMPILED => true | _ => false end.

Record compiler_info_t : Type := mk_compiler {
  type : Z;
  name : string;
  executable_path : string;
  default_args : string;
  available : bool
}.

(** The fields of [compilation_job_t] that the service reads or writes.
    The time stamps, which only feed the floating-point averages of
    [g_compiler_stats], are left out together with those statistics. *)
Record compilation_job_t : Type := mk_comp_job {
  job_id : Z;
  client_id : Z;
  compiler_type : Z;
  exec_mode : Z;
  status : compile_status_t;
  source_file : string;
  executable_file : string;
  output_file : string;
  error_file : string;
  compiler_args : string;
  execution_args : string;
  compile_pid : Z;
  exec_pid : Z;
  compile_exit_code : Z;
  exec_exit_code : Z;
  output_size : Z;
  error_size : Z;
  sandbox_dir : string
}.

Definition set_status (j : compilation_job_t) (s : compile_status_t) :=
  mk_comp_job (job_id j) (client_id j) (compiler_type j) (exec_mode j) s
    (source_file j) (executable_file j) (output_file j) (error_file j)
    (compiler_args j) (execution_args j) (compile_pid j) (exec_pid j)
    (compile_exit_code j) (exec_exit_code j) (output_size j) (error_size j)
    (sandbox_dir j).

Definition set_compile_exit_code (j : compilation_job_t) (c : Z) :=
  mk_comp_job (job_id j) (client_id j) (compiler_type j) (exec_mode j) (status j)
    (source_file j) (executable_file j) (output_file j) (error_file j)
    (compiler_args j) (execution_args j) (compile_pid j) (exec_pid j)
    c (exec_exit_code j) (output_size j) (error_size j) (sandbox_dir j).

Definition set_exec_exit_code (j : compilation_job_t) (c : Z) :=
  mk_comp_job (job_id j) (client_id j) (compiler_type j) (exec_mode j) (status j)
    (source_file j) (executable_file j) (output_file j) (error_file j)
    (compiler_args j) (execution_args j) (compile_pid j) (exec_pid j)
    (compile_exit_code j) c (output_size j) (error_size j) (sandbox_dir j).

Definition set_output_size (j : compilation_job_t) (n : Z) :=
  mk_comp_job (job_id j) (client_id j) (compiler_type j) (exec_mode j) (status j)
    (source_file j) (executable_file j) (output_file j) (error_file j)
    (compiler_args j) (execution_args j) (compile_pid j) (exec_pid j)
    (compile_exit_code j) (exec_exit_code j) n (error_size j) (sandbox_dir j).

Definition set_error_size (j : compilation_job_t) (n : Z) :=
  mk_comp_job (job_id j) (client_id j) (compiler_type j) (exec_mode j) (status j)
    (source_file j) (executable_file j) (output_file j) (error_file j)
    (compiler_args j) (execution_args j) (compile_pid j) (exec_pid j)
    (compile_exit_code j) (exec_exit_code j) (output_size j) n (sandbox_dir j).

(** *** What the operating system answers to one launched command *)

(** One turn of the [select] loop of [execute_command_with_timeout]. *)
Inductive select_event : Type :=
| SelectEINTR                 (* select() == -1 with errno == EINTR *)
| SelectError                 (* select() == -1 otherwise *)
| SelectIdle (now : Z)        (* select() == 0 after its 1 s; then time(NULL) == now *)
| SelectReady (out err : option Z).
    (* select() > 0; [Some n]: the descriptor is set and read() on it returns n *)

(** The status left by [waitpid]. *)
Inductive wait_status : Type :=
| WExited (code : Z)          (* WIFEXITED, WEXITSTATUS == code *)
| WSignaled (sig : Z)         (* WIFSIGNALED, WTERMSIG == sig *)
| WStopped.                   (* neither *)

Record child_t : Type := mk_child {
  pipes_ok : bool;                     (* both pipe() calls succeed *)
  fork_pid : Z;                        (* result of fork(): -1 or the child's pid *)
  start_time : Z;                      (* time(NULL) once the child is started *)
  events : list select_event;          (* what select/read/time return, in order *)
  wait_result : option wait_status     (* [None]: waitpid() == -1 *)
}.

(** read(fd, buf + pos, size - pos - 1): the kernel returns at most the
    count that was asked for; only a positive result advances [pos]. *)
Definition advance (size pos : Z) (r : option Z) : Z :=
  match r with
  | Some n =>
      if pos <? size - 1
      then (if Z.min n (size - pos - 1) >? 0 then pos + Z.min n (size - pos - 1) else pos)
      else pos
  | None => pos
  end.

(** The [while (!timed_out && (output_pos < output_size - 1 || error_pos <
    error_size - 1))] loop. The result is [(timed_out, output_pos,
    error_pos)]; [None] when the listed events end while the loop still runs. *)
Fixpoint drain_pipes (output_size error_size timeout start : Z)
    (evs : list select_event) (output_pos error_pos : Z) : option (bool * Z * Z) :=
  if negb ((output_pos <? output_size - 1) || (error_pos <? error_size - 1))
  then Some (false, output_pos, error_pos)
  else
    match evs with
    | [] => None
    | SelectEINTR :: evs' =>
        drain_pipes output_size error_size timeout start evs' output_pos error_pos
    | SelectError :: _ => Some (false, output_pos, error_pos)
    | SelectIdle now :: evs' =>
        if now - start >=? timeout
        then Some (true, output_pos, error_pos)
        else drain_pipes output_size error_size timeout start evs' output_pos error_pos
    | SelectReady out err :: evs' =>
        drain_pipes output_size error_size timeout start evs'
          (advance output_size output_pos out) (advance error_size error_pos err)
    end.

(** Result of one command: the returned code, the lengths of the captured
    stdout and stderr, and the signals sent. *)
Record command_result : Type := mk_result {
  code : Z;
  out_len : Z;
  err_len : Z;
  sent : list os_event
}.

Definition execute_command_with_timeout (command : string) (child : child_t)
    (output_size error_size timeout : Z) : option command_result :=
  if negb (pipes_ok child) then Some (mk_result (-1) 0 0 [])
  else if fork_pid child =? -1 then Some (mk_result (-1) 0 0 [])
  else
    let launch := EvLaunch command timeout in
    do r <- drain_pipes output_size error_size timeout (start_time child)
              (events child) 0 0;
    let '(timed_out, output_pos, error_pos) := r in
    if (timed_out : bool) then
      (* kill(pid, SIGKILL); waitpid(pid, NULL, 0); return 124; -- Timeout exit code *)
      Some (mk_result 124 output_pos error_pos [launch; EvKill (fork_pid child) SIGKILL])
    else
      match wait_result child with
      | None => Some (mk_result (-1) output_pos error_pos [launch])
      | Some (WExited c) => Some (mk_result c output_pos error_pos [launch])
      | Some (WSignaled s) => Some (mk_result (128 + s) output_pos error_pos [launch])
      | Some WStopped => Some (mk_result (-1) output_pos error_pos [launch])
      end.

(** *** The registry and the command lines *)

Fixpoint get_compiler_by_type (g_compilers : list compiler_info_t) (t : Z)
    : option compiler_info_t :=
  match g_compilers with
  | [] => None
  | c :: rest =>
      if (type c =? t) && available c then Some c else get_compiler_by_type rest t
  end.

Fixpoint has_char (c : ascii) (s : string) : bool :=
  match s with
  | EmptyString => false
  | String a r => Ascii.eqb a c || has_char c r
  end.

(** [p = strrchr(s, c); if (p) *p = 0]. *)
Fixpoint cut_at_last (c : ascii) (s : string) : string :=
  match s with
  | EmptyString => EmptyString
  | String a r =>
      if Ascii.eqb a c && negb (has_char c r) then EmptyString
      else String a (cut_at_last c r)
  end.

(** The part of [s] after its last slash (GNU [basename]). *)
Fixpoint basename (s : string) : string :=
  match s with
  | EmptyString => EmptyString
  | String a r =>
      if has_char "/"%char r then basename r
      else if Ascii.eqb a "/"%char then r else s
  end.

Definition build_compile_command (g_compilers : list compiler_info_t)
    (job : compilation_job_t) : option string :=
  do compiler <- get_compiler_by_type g_compilers (compiler_type job);
  let t := compiler_type job in
  if (t =? COMPILER_C) || (t =? COMPILER_CPP) || (t =? COMPILER_RUST) then
    Some (bounded 2048 (concat "" ["cd '"; sandbox_dir job; "' && ";
            executable_path compiler; " "; default_args compiler; " ";
            compiler_args job; " -o '"; executable_file job; "' '";
            source_file job; "'"]))
  else if t =? COMPILER_JAVA then
    Some (bounded 2048 (concat "" ["cd '"; sandbox_dir job; "' && ";
            executable_path compiler; " "; default_args compiler; " ";
            compiler_args job; " '"; source_file job; "'"]))
  else if t =? COMPILER_GO then
    Some (bounded 2048 (concat "" ["cd '"; sandbox_dir job; "' && ";
            executable_path compiler; " build "; compiler_args job;
            " -o '"; executable_file job; "' '"; source_file job; "'"]))
  else None.

Definition build_execute_command (g_compilers : list compiler_info_t)
    (job : compilation_job_t) : option string :=
  do compiler <- get_compiler_by_type g_compilers (compiler_type job);
  let t := compiler_type job in
  if (t =? COMPILER_C) || (t =? COMPILER_CPP) || (t =? COMPILER_GO)
     || (t =? COMPILER_RUST) then
    Some (bounded 2048 (concat "" ["cd '"; sandbox_dir job; "' && timeout ";
            dec MAX_EXECUTION_TIME; " './"; executable_file job; "' ";
            execution_args job]))
  else if t =? COMPILER_JAVA then
    Some (bounded 2048 (concat "" ["cd '"; sandbox_dir job; "' && timeout ";
            dec MAX_EXECUTION_TIME; " java ";
            cut_at_last "."%char (source_file job); " "; execution_args job]))
  else if (t =? COMPILER_PYTHON) || (t =? COMPILER_JAVASCRIPT) then
    Some (bounded 2048 (concat "" ["cd '"; sandbox_dir job; "' && timeout ";
            dec MAX_EXECUTION_TIME; " "; executable_path compiler; " '";
            source_file job; "' "; execution_args job]))
  else None.

(** *** The steps of a job *)

Inductive mkdir_result : Type := MkdirOk | MkdirExists | MkdirFailed.

(** Everything the operating system decides during one job. *)
Record os_env : Type := mk_env {
  g_compilers : list compiler_info_t;  (* the registry filled at start-up *)
  processing_dir : string;             (* g_server.config.processing_dir *)
  mkdir_answer : mkdir_result;         (* mkdir(sandbox_dir) *)
  source_readable : bool;              (* access(source_file, R_OK) == 0 *)
  compile_child : child_t;             (* the child of the compile command *)
  exec_child : child_t                 (* the child of the run command *)
}.

Definition create_compilation_job (env : os_env) (job_id client_id now : Z)
    : compilation_job_t :=
  mk_comp_job job_id client_id 0 0 COMPILE_STATUS_PENDING
    "" "" "" "" "" "" (-1) (-1) 0 0 0 0
    (bounded 4096 (concat "" [processing_dir env; "/job_"; dec job_id; "_"; dec now])).

(** mkdir fails the step unless errno is EEXIST. *)
Definition create_job_sandbox (env : os_env) (job : compilation_job_t) : Z :=
  match mkdir_answer env with
  | MkdirFailed => -1
  | _ => 0
  end.

Definition validate_source_content (env : os_env) (source_file : string) (t : Z) : Z :=
  if source_readable env then 0 else -1.

(** A step returns the C result, the updated job and what reached the
    operating system. *)
Definition step_result : Type := (Z * compilation_job_t * list os_event)%type.

Definition compile_source_code (env : os_env) (job : compilation_job_t)
    : option step_result :=
  let job := set_status job COMPILE_STATUS_COMPILING in
  match get_compiler_by_type (g_compilers env) (compiler_type job) with
  | None => Some (-1, set_status job COMPILE_STATUS_FAILED, [])
  | Some _ =>
      if negb (create_job_sandbox env job =? 0)
      then Some (-1, set_status job COMPILE_STATUS_FAILED, [EvMkdir (sandbox_dir job)])
      else if negb (validate_source_content env (source_file job) (compiler_type job) =? 0)
      then Some (-1, set_status job COMPILE_STATUS_FAILED, [EvMkdir (sandbox_dir job)])
      else
        match build_compile_command (g_compilers env) job with
        | None => Some (-1, set_status job COMPILE_STATUS_FAILED, [EvMkdir (sandbox_dir job)])
        | Some compile_cmd =>
            do r <- execute_command_with_timeout compile_cmd (compile_child env)
                      MAX_COMPILER_OUTPUT MAX_COMPILER_OUTPUT MAX_COMPILATION_TIME;
            let result := code r in
            let job := set_compile_exit_code job result in
            let evs := EvMkdir (sandbox_dir job) :: sent r in
            if result =? 0 then
              let job := set_status job COMPILE_STATUS_COMPILED in
              let job := set_output_size job (out_len r) in
              let job := set_error_size job (err_len r) in
              Some (0, job, evs)
            else
              let job := set_status job COMPILE_STATUS_FAILED in
              let job := set_error_size job (err_len r) in
              Some (-1, job, evs)
        end
  end.

Definition execute_compiled_program (env : os_env) (job : compilation_job_t)
    : option step_result :=
  if negb (is_compiled (status job)) then Some (-1, job, [])
  else
    let job := set_status job COMPILE_STATUS_RUNNING in
    match build_execute_command (g_compilers env) job with
    | None => Some (-1, set_status job COMPILE_STATUS_FAILED, [])
    | Some exec_cmd =>
        do r <- execute_command_with_timeout exec_cmd (exec_child env)
                  MAX_COMPILER_OUTPUT MAX_COMPILER_OUTPUT MAX_EXECUTION_TIME;
        let result := code r in
        let job := set_exec_exit_code job result in
        let job := set_output_size job (output_size job + out_len r) in
        let job := set_error_size job (error_size job + err_len r) in
        if result =? 0
        then Some (0, set_status job COMPILE_STATUS_COMPLETED, sent r)
        else Some (-1, set_status job COMPILE_STATUS_FAILED, sent r)
    end.

(** kill(SIGKILL) for the recorded pids, then [cleanup_job_sandbox]. *)
Definition destroy_compilation_job (job : compilation_job_t) : list os_event :=
  (if compile_pid job >? 0 then [EvKill (compile_pid job) SIGKILL] else [])
  ++ (if exec_pid job >? 0 then [EvKill (exec_pid job) SIGKILL] else [])
  ++ (match sandbox_dir job with
      | EmptyString => []
      | _ => [EvRemoveTree (sandbox_dir job)]
      end).

(** *** Notions used to state the properties of the executor *)

(** The child stays silent: every turn of the loop is an interrupted
    [select] or an idle one that still finds the time limit not reached. *)
Definition quiet_before (timeout start : Z) (pre : list select_event) : Prop :=
  Forall (fun e =>
            match e with
            | SelectEINTR => True
            | SelectIdle t => t - start < timeout
            | _ => False
            end) pre.

(** The commands launched among the events, with the time limit of each. *)
Fixpoint launches (evs : list os_event) : list (string * Z) :=
  match evs with
  | [] => []
  | EvLaunch cmd t :: rest => (cmd, t) :: launches rest
  | _ :: rest => launches rest
  end.

(** Everything is in place for the compile command [cmd] to be launched. *)
Definition compile_ready (env : os_env) (job : compilation_job_t) (cmd : string) : Prop :=
  build_compile_command (g_compilers env) job = Some cmd
  /\ mkdir_answer env <> MkdirFailed
  /\ source_readable env = true
  /\ pipes_ok (compile_child env) = true
  /\ fork_pid (compile_child env) <> -1.

(** Everything is in place for the run command [cmd] to be launched. *)
Definition exec_ready (env : os_env) (job : compilation_job_t) (cmd : string) : Prop :=
  status job = COMPILE_STATUS_COMPILED
  /\ build_execute_command (g_compilers env) job = Some cmd
  /\ pipes_ok (exec_child env) = true
  /\ fork_pid (exec_child env) <> -1.

(** The child writes nothing, and an idle turn of the loop finds
    [timeout] seconds or more elapsed. *)
Definition silent_until (timeout : Z) (child : child_t) : Prop :=
  exists pre now post,
    events child = pre ++ SelectIdle now :: post
    /\ quiet_before timeout (start_time child) pre
    /\ timeout <= now - start_time child.

(** The signals sent among the events. *)
Fixpoint kills (evs : list os_event) : list (Z * Z) :=
  match evs with
  | [] => []
  | EvKill pid sig :: rest => (pid, sig) :: kills rest
  | _ :: rest => kills rest
  end.

(** The capture loop of a step with the given time limit comes to an end
    on the events the child produces. *)
Definition loop_ends (timeout : Z) (child : child_t) : Prop :=
  exists r,
    drain_pipes MAX_COMPILER_OUTPUT MAX_COMPILER_OUTPUT timeout (start_time child)
      (events child) 0 0 = Some r.

(** *** Further functions of compiler_service.c *)

Definition COMPILER_UNKNOWN : Z := 0.

(** [strrchr(s, '.')]: the text of [s] from its last dot on. *)
Fixpoint extension (s : string) : option string :=
  match s with
  | EmptyString => None
  | String a r =>
      match extension r with
      | Some e => Some e
      | None => if Ascii.eqb a "."%char then Some s else None
      end
  end.

Definition detect_language_from_filename (filename : string) : Z :=
  match extension filename with
  | None => COMPILER_UNKNOWN
  | Some ext =>
      if String.eqb ext ".c" then COMPILER_C
      else if String.eqb ext ".cpp" || String.eqb ext ".cc" || String.eqb ext ".cxx"
      then COMPILER_CPP
      else if String.eqb ext ".java" then COMPILER_JAVA
      else if String.eqb ext ".py" then COMPILER_PYTHON
      else if String.eqb ext ".js" then COMPILER_JAVASCRIPT
      else if String.eqb ext ".go" then COMPILER_GO
      else if String.eqb ext ".rs" then COMPILER_RUST
      else COMPILER_UNKNOWN
  end.

(** [strstr(s, p) != NULL]. *)
Fixpoint occurs (p s : string) : bool :=
  prefix p s
  || match s with
     | EmptyString => false
     | String _ r => occurs p r
     end.

Definition is_safe_filename (filename : string) : bool :=
  (* Check for directory traversal attempts *)
  if occurs ".." filename || occurs "/" filename || occurs "\" filename then false
  (* Check for reasonable length *)
  else if (Proto.MAX_FILENAME_SIZE <? String.length filename)%nat then false
  else true.

(** A turn of the capture loop that brings no byte: [select] was
    interrupted, or the pipes are reported readable and [read] returns 0
    (end of file) or -1. *)
Definition fruitless (e : select_event) : Prop :=
  match e with
  | SelectEINTR => True
  | SelectReady out err =>
      match out with Some n => n <= 0 | None => True end
      /\ match err with Some n => n <= 0 | None => True end
  | _ => False
  end.

End Executor.

(** ** server/src/queue_manager.c, server/include/server.h *)
Module Queue.

Definition JOB_PRIORITY_LOW : Z := 1.
Definition JOB_PRIORITY_NORMAL : Z := 5.
Definition JOB_PRIORITY_HIGH : Z := 10.

(* Timeout values in seconds *)
Definition COMPILE_TIMEOUT : Z := 60.     (* 1 minute *)
Definition EXECUTION_TIMEOUT : Z := 30.   (* 30 seconds *)

Inductive job_state_t : Type :=
| JOB_STATE_QUEUED
| JOB_STATE_RUNNING
| JOB_STATE_COMPLETED
| JOB_STATE_FAILED
| JOB_STATE_CANCELLED
| JOB_STATE_TIMEOUT.

Definition job_state_eqb (a b : job_state_t) : bool :=
  match a, b with
  | JOB_STATE_QUEUED, JOB_STATE_QUEUED
  | JOB_STATE_RUNNING, JOB_STATE_RUNNING
  | JOB_STATE_COMPLETED, JOB_STATE_COMPLETED
  | JOB_STATE_FAILED, JOB_STATE_FAILED
  | JOB_STATE_CANCELLED, JOB_STATE_CANCELLED
  | JOB_STATE_TIMEOUT, JOB_STATE_TIMEOUT => true
  | _, _ => false
  end.

(** The value of the enumerator, as sent in a status field. *)
Definition job_state_code (s : job_state_t) : Z :=
  match s with
  | JOB_STATE_QUEUED => 0
  | JOB_STATE_RUNNING => 1
  | JOB_STATE_COMPLETED => 2
  | JOB_STATE_FAILED => 3
  | JOB_STATE_CANCELLED => 4
  | JOB_STATE_TIMEOUT => 5
  end.

Definition job_state_to_string (s : job_state_t) : string :=
  match s with
  | JOB_STATE_QUEUED => "Queued"
  | JOB_STATE_RUNNING => "Running"
  | JOB_STATE_COMPLETED => "Completed"
  | JOB_STATE_FAILED => "Failed"
  | JOB_STATE_CANCELLED => "Cancelled"
  | JOB_STATE_TIMEOUT => "Timeout"
  end.

(** The terminal states of the job life cycle. *)
Definition is_terminal (s : job_state_t) : bool :=
  match s with
  | JOB_STATE_COMPLETED | JOB_STATE_FAILED | JOB_STATE_CANCELLED | JOB_STATE_TIMEOUT => true
  | _ => false
  end.

Record job_info_t : Type := mk_job {
  job_id : Z;
  client_id : Z;
  correlation_id : Z;
  state : job_state_t;
  language : Z;
  mode : Z;
  submit_time : Z;
  start_time : Z;
  end_time : Z;
  process_id : Z;
  exit_code : Z;
  source_file : string;
  output_file : string;
  error_file : string;
  compiler_args : string;
  execution_args : string;
  output_size : Z;
  error_size : Z;
  priority : Z
}.

Definition set_state (j : job_info_t) (s : job_state_t) : job_info_t :=
  mk_job (job_id j) (client_id j) (correlation_id j) s (language j) (mode j)
    (submit_time j) (start_time j) (end_time j) (process_id j) (exit_code j)
    (source_file j) (output_file j) (error_file j) (compiler_args j)
    (execution_args j) (output_size j) (error_size j) (priority j).

Definition set_start_time (j : job_info_t) (t : Z) : job_info_t :=
  mk_job (job_id j) (client_id j) (correlation_id j) (state j) (language j) (mode j)
    (submit_time j) t (end_time j) (process_id j) (exit_code j)
    (source_file j) (output_file j) (error_file j) (compiler_args j)
    (execution_args j) (output_size j) (error_size j) (priority j).

Definition set_end_time (j : job_info_t) (t : Z) : job_info_t :=
  mk_job (job_id j) (client_id j) (correlation_id j) (state j) (language j) (mode j)
    (submit_time j) (start_time j) t (process_id j) (exit_code j)
    (source_file j) (output_file j) (error_file j) (compiler_args j)
    (execution_args j) (output_size j) (error_size j) (priority j).

Definition set_exit_code (j : job_info_t) (c : Z) : job_info_t :=
  mk_job (job_id j) (client_id j) (correlation_id j) (state j) (language j) (mode j)
    (submit_time j) (start_time j) (end_time j) (process_id j) c
    (source_file j) (output_file j) (error_file j) (compiler_args j)
    (execution_args j) (output_size j) (error_size j) (priority j).

Definition set_priority (j : job_info_t) (p : Z) : job_info_t :=
  mk_job (job_id j) (client_id j) (correlation_id j) (state j) (language j) (mode j)
    (submit_time j) (start_time j) (end_time j) (process_id j) (exit_code j)
    (source_file j) (output_file j) (error_file j) (compiler_args j)
    (execution_args j) (output_size j) (error_size j) p.

(** [if (f) strncpy(j->output_file, f, 255)] and the same for the error file. *)
Definition set_files (j : job_info_t) (out err : option string) : job_info_t :=
  mk_job (job_id j) (client_id j) (correlation_id j) (state j) (language j) (mode j)
    (submit_time j) (start_time j) (end_time j) (process_id j) (exit_code j)
    (source_file j)
    (match out with Some f => bounded 256 f | None => output_file j end)
    (match err with Some f => bounded 256 f | None => error_file j end)
    (compiler_args j) (execution_args j) (output_size j) (error_size j) (priority j).

(** The results copied back into the worker's own copy of the job. *)
Definition set_results (j : job_info_t) (code pid out_sz err_sz : Z)
    (out err : string) : job_info_t :=
  mk_job (job_id j) (client_id j) (correlation_id j) (state j) (language j) (mode j)
    (submit_time j) (start_time j) (end_time j) pid code
    (source_file j) (bounded 256 out) (bounded 256 err) (compiler_args j)
    (execution_args j) out_sz err_sz (priority j).

(** [job_queue_t]: the nodes from [head] to [tail]. *)
Definition job_queue_t : Type := list job_info_t.

(** The counters of [server_stats_t] that the queue manager updates. *)
Record server_stats_t : Type := mk_stats {
  total_jobs : Z;
  active_jobs : Z;
  completed_jobs : Z;
  failed_jobs : Z
}.

Record server_context_t : Type := mk_server {
  job_queue : job_queue_t;
  stats : server_stats_t
}.

(** Add to the tail of the queue (FIFO); returns the id of the new node. *)
Definition add_job (job : job_info_t) (srv : server_context_t)
    : Z * server_context_t :=
  let st := stats srv in
  (job_id job,
   mk_server (job_queue srv ++ [job])
     (mk_stats (wrap32 (total_jobs st + 1)) (wrap32 (active_jobs st + 1))
        (completed_jobs st) (failed_jobs st))).

(** Unlink the head node and hand a copy of its job to the caller. *)
Definition get_next_job (q : job_queue_t) : option job_info_t * job_queue_t :=
  match q with
  | [] => (None, [])
  | node :: next => (Some node, next)
  end.

Fixpoint find_job (id : Z) (q : job_queue_t) : option job_info_t :=
  match q with
  | [] => None
  | node :: next => if job_id node =? id then Some node else find_job id next
  end.

Fixpoint update_job_state (now id : Z) (s : job_state_t) (q : job_queue_t)
    : job_queue_t :=
  match q with
  | [] => []
  | node :: next =>
      if job_id node =? id then
        let node := set_state node s in
        (match s with
         | JOB_STATE_RUNNING => set_start_time node now
         | JOB_STATE_COMPLETED | JOB_STATE_FAILED | JOB_STATE_CANCELLED =>
             set_end_time node now
         | _ => node
         end) :: next
      else node :: update_job_state now id s next
  end.

Fixpoint cancel_job (now id : Z) (q : job_queue_t) : job_queue_t * list os_event :=
  match q with
  | [] => ([], [])
  | node :: next =>
      if job_id node =? id then
        (set_end_time (set_state node JOB_STATE_CANCELLED) now :: next,
         (* Kill process if running *)
         if (process_id node >? 0) && job_state_eqb (state node) JOB_STATE_RUNNING
         then [EvKill (process_id node) SIGTERM] else [])
      else
        let '(next', sig) := cancel_job now id next in (node :: next', sig)
  end.

Fixpoint complete_job (now id exit_code : Z) (output_file error_file : option string)
    (q : job_queue_t) : job_queue_t :=
  match q with
  | [] => []
  | node :: next =>
      if job_id node =? id then
        let node :=
          set_state node
            (if exit_code =? 0 then JOB_STATE_COMPLETED else JOB_STATE_FAILED) in
        let node := set_exit_code node exit_code in
        let node := set_end_time node now in
        set_files node output_file error_file :: next
      else node :: complete_job now id exit_code output_file error_file next
  end.

(** [static uint32_t next_id = 1] is the state; the result is the id
    handed out and the new value of [next_id]. *)
Definition generate_job_id (next_id : Z) : Z * Z :=
  let id := next_id in
  let next_id := wrap32 (next_id + 1) in
  let next_id := if next_id =? 0 then 1 else next_id in (* Wrap around, avoid 0 *)
  (id, next_id).

(** The value of [next_id] after [n] calls since start-up. *)
Fixpoint next_id_after (n : nat) : Z :=
  match n with
  | O => 1
  | S k => snd (generate_job_id (next_id_after k))
  end.

(** The id handed out by call number [n] (counted from 0). *)
Definition assigned_id (n : nat) : Z := fst (generate_job_id (next_id_after n)).

Definition MAX_COMPLETED_JOB_AGE : Z := 3600. (* 1 hour *)

Fixpoint cleanup_completed_jobs (now : Z) (q : job_queue_t) : job_queue_t :=
  match q with
  | [] => []
  | node :: next =>
      if (job_state_eqb (state node) JOB_STATE_COMPLETED
          || job_state_eqb (state node) JOB_STATE_FAILED
          || job_state_eqb (state node) JOB_STATE_CANCELLED)
         && (now - end_time node >? MAX_COMPLETED_JOB_AGE)
      then cleanup_completed_jobs now next
      else node :: cleanup_completed_jobs now next
  end.

Fixpoint cancel_client_jobs (now client : Z) (q : job_queue_t)
    : job_queue_t * list os_event * Z :=
  match q with
  | [] => ([], [], 0)
  | node :: next =>
      let '(next', sig, cancelled_count) := cancel_client_jobs now client next in
      if (client_id node =? client)
         && (job_state_eqb (state node) JOB_STATE_QUEUED
             || job_state_eqb (state node) JOB_STATE_RUNNING)
      then
        (set_end_time (set_state node JOB_STATE_CANCELLED) now :: next',
         (if (process_id node >? 0) && job_state_eqb (state node) JOB_STATE_RUNNING
          then [EvKill (process_id node) SIGTERM] else []) ++ sig,
         cancelled_count + 1)
      else (node :: next', sig, cancelled_count)
  end.

Fixpoint set_priority_in (id p : Z) (q : job_queue_t) : option job_queue_t :=
  match q with
  | [] => None
  | node :: next =>
      if job_id node =? id then Some (set_priority node p :: next)
      else do next' <- set_priority_in id p next; Some (node :: next')
  end.

(** Returns 0 and the updated queue, or -1 and the queue as it was. *)
Definition set_job_priority (id p : Z) (q : job_queue_t) : Z * job_queue_t :=
  if (p <? JOB_PRIORITY_LOW) || (p >? JOB_PRIORITY_HIGH) then (-1, q)
  else
    match set_priority_in id p q with
    | Some q' => (0, q')
    | None => (-1, q)
    end.

(** One sweep of the inner [while (next)] loop of
    [reorder_queue_by_priority], started at [current]; the flag is [swapped]. *)
Fixpoint bubble_pass (current : job_info_t) (rest : job_queue_t)
    : bool * job_queue_t :=
  match rest with
  | [] => (false, [current])
  | next :: rest' =>
      if job_state_eqb (state current) JOB_STATE_QUEUED
         && job_state_eqb (state next) JOB_STATE_QUEUED
         && (priority current <? priority next)
      then let '(_, l) := bubble_pass current rest' in (true, next :: l)
      else let '(swapped, l) := bubble_pass next rest' in (swapped, current :: l)
  end.

(** The [do ... while (swapped)] loop, at most [passes] sweeps. *)
Fixpoint reorder_passes (passes : nat) (q : job_queue_t) : option job_queue_t :=
  match passes with
  | O => None
  | S passes' =>
      match q with
      | [] => Some []
      | current :: rest =>
          let '(swapped, q') := bubble_pass current rest in
          if (swapped : bool) then reorder_passes passes' q' else Some q'
      end
  end.

Definition reorder_queue_by_priority (passes : nat) (q : job_queue_t)
    : option job_queue_t :=
  if Z.of_nat (List.length q) <=? 1 then Some q else reorder_passes passes q.

(** *** Further functions of queue_manager.c *)

Record queue_stats_t : Type := mk_queue_stats {
  qs_total : Z;
  qs_queued : Z;
  qs_running : Z;
  qs_completed : Z;
  qs_failed : Z;
  qs_cancelled : Z
}.

(** The [while (node)] loop of [get_queue_stats]. *)
Fixpoint count_states (q : job_queue_t) (s : queue_stats_t) : queue_stats_t :=
  match q with
  | [] => s
  | node :: next =>
      count_states next
        (match state node with
         | JOB_STATE_QUEUED =>
             mk_queue_stats (qs_total s) (qs_queued s + 1) (qs_running s)
               (qs_completed s) (qs_failed s) (qs_cancelled s)
         | JOB_STATE_RUNNING =>
             mk_queue_stats (qs_total s) (qs_queued s) (qs_running s + 1)
               (qs_completed s) (qs_failed s) (qs_cancelled s)
         | JOB_STATE_COMPLETED =>
             mk_queue_stats (qs_total s) (qs_queued s) (qs_running s)
               (qs_completed s + 1) (qs_failed s) (qs_cancelled s)
         | JOB_STATE_FAILED =>
             mk_queue_stats (qs_total s) (qs_queued s) (qs_running s)
               (qs_completed s) (qs_failed s + 1) (qs_cancelled s)
         | JOB_STATE_CANCELLED =>
             mk_queue_stats (qs_total s) (qs_queued s) (qs_running s)
               (qs_completed s) (qs_failed s) (qs_cancelled s + 1)
         | JOB_STATE_TIMEOUT => s
         end)
  end.

Definition get_queue_stats (q : job_queue_t) : queue_stats_t :=
  count_states q (mk_queue_stats (Z.of_nat (List.length q)) 0 0 0 0 0).

(** The first loop of [get_client_jobs]. *)
Fixpoint count_client_jobs (client : Z) (q : job_queue_t) : nat :=
  match q with
  | [] => O
  | node :: next =>
      if client_id node =? client then S (count_client_jobs client next)
      else count_client_jobs client next
  end.

(** The second loop, [while (node && index < client_job_count)]; [room] is
    what is left of the array. *)
Fixpoint fill_client_jobs (client : Z) (room : nat) (q : job_queue_t)
    : list job_info_t :=
  match room, q with
  | O, _ => []
  | _, [] => []
  | S room', node :: next =>
      if client_id node =? client then node :: fill_client_jobs client room' next
      else fill_client_jobs client room next
  end.

(** The copies handed to the caller ([*jobs], [*count] is their number). *)
Definition get_client_jobs (client : Z) (q : job_queue_t) : list job_info_t :=
  match count_client_jobs client q with
  | O => []
  | client_job_count => fill_client_jobs client client_job_count q
  end.

(** "Count jobs ahead in queue": the Queued and Running nodes before the
    first node that carries the id. *)
Fixpoint jobs_ahead (id : Z) (q : job_queue_t) : Z :=
  match q with
  | [] => 0
  | node :: next =>
      if job_id node =? id then 0
      else
        (if job_state_eqb (state node) JOB_STATE_QUEUED
            || job_state_eqb (state node) JOB_STATE_RUNNING
         then 1 else 0) + jobs_ahead id next
  end.

Definition AVERAGE_JOB_TIME : Z := 30. (* 30 seconds average *)

Definition get_estimated_wait_time (id : Z) (q : job_queue_t) : Z :=
  match find_job id q with
  | None => 0
  | Some target =>
      if negb (job_state_eqb (state target) JOB_STATE_QUEUED) then 0
      else jobs_ahead id q * AVERAGE_JOB_TIME
  end.

(** *** Notions used to state the properties of the queue *)

Definition is_queued (j : job_info_t) : bool := job_state_eqb (state j) JOB_STATE_QUEUED.

Definition is_active (j : job_info_t) : bool :=
  job_state_eqb (state j) JOB_STATE_QUEUED || job_state_eqb (state j) JOB_STATE_RUNNING.

(** The number of jobs of [l] with a priority above [p]. *)
Definition higher_than (p : Z) (l : job_queue_t) : nat :=
  List.length (filter (fun j => p <? priority j) l).

(** The number of pairs of jobs in which the later one has the higher
    priority. *)
Fixpoint ascents (l : job_queue_t) : nat :=
  match l with
  | [] => O
  | j :: rest => (higher_than (priority j) rest + ascents rest)%nat
  end.

(** No Queued job is directly followed by a Queued job of higher priority. *)
Fixpoint settled (l : job_queue_t) : Prop :=
  match l with
  | a :: (b :: _) as rest =>
      ~ (is_queued a = true /\ is_queued b = true /\ priority a < priority b)
      /\ settled rest
  | _ => True
  end.

(** The number of jobs in state Timeout. *)
Definition timeouts (q : job_queue_t) : Z :=
  Z.of_nat (List.length (filter (fun j => job_state_eqb (state j) JOB_STATE_TIMEOUT) q)).

(** The sweep would remove the job at time [now]. *)
Definition expired (now : Z) (j : job_info_t) : Prop :=
  (state j = JOB_STATE_COMPLETED \/ state j = JOB_STATE_FAILED
   \/ state j = JOB_STATE_CANCELLED)
  /\ MAX_COMPLETED_JOB_AGE < now - end_time j.

(** Several submissions in a row. *)
Fixpoint add_all (js : list job_info_t) (srv : server_context_t) : server_context_t :=
  match js with
  | [] => srv
  | j :: rest => add_all rest (snd (add_job j srv))
  end.

(** [n] calls of [get_next_job] in a row, up to the first that finds the
    queue empty: the jobs handed out and the queue that is left. *)
Fixpoint take_jobs (n : nat) (q : job_queue_t) : list job_info_t * job_queue_t :=
  match n with
  | O => ([], q)
  | S k =>
      match get_next_job q with
      | (Some job, q') =>
          let '(taken, remaining) := take_jobs k q' in (job :: taken, remaining)
      | (None, q') => ([], q')
      end
  end.

(** Which jobs the queue holds, and in which order. *)
Definition shape (q : job_queue_t) : list (Z * Z) :=
  map (fun j => (job_id j, client_id j)) q.

(** The two modes that compile. *)
Definition compiles (m : Z) : Prop :=
  m = Proto.EXEC_MODE_COMPILE_ONLY \/ m = Proto.EXEC_MODE_COMPILE_AND_RUN.

(** *** The worker *)
Section Worker.

(** [interpret_source_code] and [syntax_check_only] are declared in
    compiler.h; their bodies are not part of the sources at hand, so the
    worker is stated for any implementation of them. *)
Variable interpret_source_code :
  Executor.os_env -> Executor.compilation_job_t -> option Executor.step_result.
Variable syntax_check_only :
  Executor.os_env -> Executor.compilation_job_t -> option Executor.step_result.

(** Clock readings of one run of [process_compilation_job]. *)
Record clock_t : Type := mk_clock {
  t_running : Z;     (* in update_job_state(JOB_STATE_RUNNING) *)
  t_created : Z;     (* in create_compilation_job *)
  t_completed : Z    (* in complete_job *)
}.

(** The compilation job after "Set up compilation job parameters" and
    "Generate output filenames". [basename] points into
    [comp_job->source_file], so cutting the extension of the base name
    cuts the stored source file name as well. *)
Definition setup_compilation_job (env : Executor.os_env) (clk : clock_t)
    (job : job_info_t) : Executor.compilation_job_t :=
  let c := Executor.create_compilation_job env (job_id job) (client_id job)
             (t_created clk) in
  let src := bounded 256 (source_file job) in
  let has_dot := Executor.has_char "."%char (Executor.basename src) in
  let source_name := Executor.cut_at_last "."%char (Executor.basename src) in
  Executor.mk_comp_job (Executor.job_id c) (Executor.client_id c)
    (language job) (mode job) (Executor.status c)
    (if has_dot then Executor.cut_at_last "."%char src else src)
    (bounded 256 (append source_name "_exe"))
    (bounded 256 (append source_name "_output.txt"))
    (bounded 256 (append source_name "_error.txt"))
    (bounded 1024 (compiler_args job))
    (bounded 1024 (execution_args job))
    (Executor.compile_pid c) (Executor.exec_pid c)
    (Executor.compile_exit_code c) (Executor.exec_exit_code c)
    (Executor.output_size c) (Executor.error_size c) (Executor.sandbox_dir c).

(** "Execute based on mode". *)
Definition run_by_mode (env : Executor.os_env)
    (comp_job : Executor.compilation_job_t) : option Executor.step_result :=
  let m := Executor.exec_mode comp_job in
  if m =? Proto.EXEC_MODE_COMPILE_ONLY then
    Executor.compile_source_code env comp_job
  else if m =? Proto.EXEC_MODE_COMPILE_AND_RUN then
    do r <- Executor.compile_source_code env comp_job;
    let '(result, comp_job, evs) := r in
    if result =? 0 then
      do r' <- Executor.execute_compiled_program env comp_job;
      let '(result', comp_job', evs') := r' in
      Some (result', comp_job', evs ++ evs')
    else Some (result, comp_job, evs)
  else if m =? Proto.EXEC_MODE_INTERPRET_ONLY then
    interpret_source_code env comp_job
  else if m =? Proto.EXEC_MODE_SYNTAX_CHECK then
    syntax_check_only env comp_job
  else Some (-1, comp_job, []).

(** What one run of the worker on a job leaves behind. *)
Record processed_t : Type := mk_processed {
  p_result : Z;                 (* value returned by process_compilation_job *)
  p_job : job_info_t;           (* the worker's own copy of the job *)
  p_queue : job_queue_t;        (* the shared queue *)
  p_events : list os_event      (* what reached the operating system *)
}.

Definition process_compilation_job (env : Executor.os_env) (clk : clock_t)
    (job : job_info_t) (q : job_queue_t) : option processed_t :=
  (* Update job state *)
  let q := update_job_state (t_running clk) (job_id job) JOB_STATE_RUNNING q in
  let comp_job := setup_compilation_job env clk job in
  do r <- run_by_mode env comp_job;
  let '(result, comp_job, evs) := r in
  (* Update job with results *)
  let job := set_results job (Executor.exec_exit_code comp_job)
               (Executor.exec_pid comp_job) (Executor.output_size comp_job)
               (Executor.error_size comp_job) (Executor.output_file comp_job)
               (Executor.error_file comp_job) in
  (* Complete the job *)
  let q :=
    if result =? 0 then
      complete_job (t_completed clk) (job_id job) 0
        (Some (Executor.output_file comp_job)) (Some (Executor.error_file comp_job)) q
    else
      complete_job (t_completed clk) (job_id job)
        (if negb (Executor.compile_exit_code comp_job =? 0)
         then Executor.compile_exit_code comp_job
         else Executor.exec_exit_code comp_job)
        None (Some (Executor.error_file comp_job)) q in
  Some (mk_processed result job q (evs ++ Executor.destroy_compilation_job comp_job)).

(** One turn of the [while] loop of [job_processor_thread]. With an empty
    queue the thread waits on the condition variable and nothing changes. *)
Definition job_processor_step (env : Executor.os_env) (clk : clock_t)
    (srv : server_context_t) : option (server_context_t * list os_event) :=
  match get_next_job (job_queue srv) with
  | (None, _) => Some (srv, [])
  | (Some job, q) =>
      do p <- process_compilation_job env clk job q;
      let st := stats srv in
      let job := p_job p in
      let completed :=
        if job_state_eqb (state job) JOB_STATE_COMPLETED
        then wrap32 (completed_jobs st + 1) else completed_jobs st in
      let failed :=
        if job_state_eqb (state job) JOB_STATE_COMPLETED
        then failed_jobs st else wrap32 (failed_jobs st + 1) in
      let active :=
        if active_jobs st >? 0 then active_jobs st - 1 else active_jobs st in
      Some (mk_server (p_queue p) (mk_stats (total_jobs st) active completed failed),
            p_events p)
  end.

End Worker.

End Queue.

(** ** server/src/client_handler.c *)
Module Session.

Definition PROJECT_VERSION_MAJOR : Z := 1.
Definition PROJECT_VERSION_MINOR : Z := 0.
Definition PROJECT_VERSION_PATCH : Z := 0.
Definition PLATFORM_NAME : string := "Linux".

Inductive client_state_t : Type :=
| CLIENT_STATE_CONNECTING
| CLIENT_STATE_AUTHENTICATED
| CLIENT_STATE_IDLE
| CLIENT_STATE_UPLOADING
| CLIENT_STATE_PROCESSING
| CLIENT_STATE_DISCONNECTING.

Definition client_state_eqb (a b : client_state_t) : bool :=
  match a, b with
  | CLIENT_STATE_CONNECTING, CLIENT_STATE_CONNECTING
  | CLIENT_STATE_AUTHENTICATED, CLIENT_STATE_AUTHENTICATED
  | CLIENT_STATE_IDLE, CLIENT_STATE_IDLE
  | CLIENT_STATE_UPLOADING, CLIENT_STATE_UPLOADING
  | CLIENT_STATE_PROCESSING, CLIENT_STATE_PROCESSING
  | CLIENT_STATE_DISCONNECTING, CLIENT_STATE_DISCONNECTING => true
  | _, _ => false
  end.

Record client_info_t : Type := mk_client {
  socket_fd : Z;
  client_id : Z;
  state : client_state_t;
  last_activity : Z;
  client_name : string;
  client_platform : string;
  active_jobs : Z;
  bytes_sent : Z;
  bytes_received : Z
}.

Definition set_socket_fd (c : client_info_t) (fd : Z) :=
  mk_client fd (client_id c) (state c) (last_activity c) (client_name c)
    (client_platform c) (active_jobs c) (bytes_sent c) (bytes_received c).
Definition set_state (c : client_info_t) (s : client_state_t) :=
  mk_client (socket_fd c) (client_id c) s (last_activity c) (client_name c)
    (client_platform c) (active_jobs c) (bytes_sent c) (bytes_received c).
Definition set_last_activity (c : client_info_t) (t : Z) :=
  mk_client (socket_fd c) (client_id c) (state c) t (client_name c)
    (client_platform c) (active_jobs c) (bytes_sent c) (bytes_received c).
Definition set_names (c : client_info_t) (n p : string) :=
  mk_client (socket_fd c) (client_id c) (state c) (last_activity c) n p
    (active_jobs c) (bytes_sent c) (bytes_received c).
Definition set_active_jobs (c : client_info_t) (n : Z) :=
  mk_client (socket_fd c) (client_id c) (state c) (last_activity c) (client_name c)
    (client_platform c) n (bytes_sent c) (bytes_received c).
Definition set_bytes_sent (c : client_info_t) (n : Z) :=
  mk_client (socket_fd c) (client_id c) (state c) (last_activity c) (client_name c)
    (client_platform c) (active_jobs c) n (bytes_received c).
Definition set_bytes_received (c : client_info_t) (n : Z) :=
  mk_client (socket_fd c) (client_id c) (state c) (last_activity c) (client_name c)
    (client_platform c) (active_jobs c) (bytes_sent c) n.

(** *** The transport *)

(** The payload records the server sends. *)
Inductive payload_t : Type :=
| NoPayload
| HelloPayload (major minor patch capabilities : Z) (name platform : string)
| ErrorPayload (error_code error_line : Z) (error_message error_context : string)
| CompileResponse (job_id status exit_code output_size error_size execution_time_ms : Z)
| JobStatusPayload (job_id status progress start_time end_time pid : Z)
    (status_message : string).

Definition sizeof_payload (p : payload_t) : Z :=
  match p with
  | NoPayload => 0
  | HelloPayload _ _ _ _ _ _ => Proto.sizeof_hello_payload
  | ErrorPayload _ _ _ _ => 4 + 4 + 4096 + 256
  | CompileResponse _ _ _ _ _ _ => 4 + 2 + 2 + 4 + 4 + 4 + 4
  | JobStatusPayload _ _ _ _ _ _ _ => 4 + 2 + 2 + 8 + 8 + 4 + 256
  end.

(** One message written by [send_client_response]. *)
Record frame_t : Type := mk_frame {
  f_type : Z;
  f_length : Z;
  f_correlation_id : Z;
  f_payload : payload_t
}.

(** The non-blocking TCP socket of one client, seen from the server. *)
Record socket_t : Type := mk_socket {
  inbound : list Z;          (* bytes the peer has sent and the server has not read *)
  peer_closed : bool;        (* the peer has shut its side down *)
  io_error : bool;           (* recv and send fail with an errno other than EAGAIN *)
  outbound : list frame_t;   (* what the server has sent, oldest first *)
  is_open : bool             (* the descriptor has not been closed *)
}.

Inductive recv_result : Type :=
| RecvFailed (would_block : bool)   (* -1; EAGAIN / EWOULDBLOCK when [would_block] *)
| Received (bytes : list Z).        (* the bytes copied out; none at end of stream *)

Definition recv (s : socket_t) (n : Z) : recv_result * socket_t :=
  if io_error s then (RecvFailed false, s)
  else
    match inbound s with
    | [] => if peer_closed s then (Received [], s) else (RecvFailed true, s)
    | _ =>
        (Received (firstn (Z.to_nat n) (inbound s)),
         mk_socket (skipn (Z.to_nat n) (inbound s)) (peer_closed s) (io_error s)
           (outbound s) (is_open s))
    end.

Definition close (s : socket_t) : socket_t :=
  mk_socket (inbound s) (peer_closed s) (io_error s) (outbound s) false.

Record message_t : Type := mk_message {
  header : Proto.message_header_t;
  data : list Z
}.

(** Bytes [off .. off + len - 1] of a buffer. *)
Definition bytes_at (buf : list Z) (off len : nat) : list Z :=
  firstn len (skipn off buf).

Definition be_uint (bytes : list Z) : Z :=
  fold_left (fun acc b => acc * 256 + b mod 256) bytes 0.

(** An integer field of a payload record, read as the handlers read it:
    through a cast of [msg->data], in host (little-endian) byte order. *)
Definition le_uint (bytes : list Z) : Z :=
  fold_right (fun b acc => b mod 256 + acc * 256) 0 bytes.

(** A character field of a payload record, up to its first NUL. *)
Fixpoint cstring (bytes : list Z) : string :=
  match bytes with
  | [] => EmptyString
  | b :: rest =>
      if b mod 256 =? 0 then EmptyString
      else String (ascii_of_nat (Z.to_nat (b mod 256))) (cstring rest)
  end.

(** Modelled from the spec: [header_from_network] is declared in protocol.h
    and its body is not part of the sources at hand. The spec has every
    multi-byte header field big-endian on the wire; the field order and
    widths are those of the packed [message_header_t]. *)
Definition header_from_network (raw : list Z) : Proto.message_header_t :=
  Proto.mk_header
    (be_uint (bytes_at raw 0 4)) (be_uint (bytes_at raw 4 2))
    (be_uint (bytes_at raw 6 2)) (be_uint (bytes_at raw 8 4))
    (be_uint (bytes_at raw 12 4)) (be_uint (bytes_at raw 16 8))
    (be_uint (bytes_at raw 24 4)).

(** *** The server as the session handler sees it *)

Record server_t : Type := mk_srv {
  ctx : Queue.server_context_t;       (* job queue and counters *)
  next_id : Z;                        (* the static counter of generate_job_id *)
  max_file_size : Z;                  (* g_server.config.max_file_size *)
  disk : list (string * list Z)       (* files under the processing directory *)
}.

Definition set_ctx (s : server_t) (c : Queue.server_context_t) : server_t :=
  mk_srv c (next_id s) (max_file_size s) (disk s).

Record world_t : Type := mk_world {
  client : client_info_t;
  sock : socket_t;
  server : server_t
}.

Definition with_client (w : world_t) (c : client_info_t) : world_t :=
  mk_world c (sock w) (server w).

Definition client_state (w : world_t) : client_state_t := state (client w).

(** Content of a file of the processing directory, if it exists. *)
Fixpoint read_file (d : list (string * list Z)) (path : string) : option (list Z) :=
  match d with
  | [] => None
  | (p, content) :: rest => if String.eqb p path then Some content else read_file rest path
  end.

Definition send_client_response (w : world_t) (type : Z) (p : payload_t)
    (correlation_id : Z) : Z * world_t :=
  let s := sock w in
  if io_error s || negb (is_open s) then (-1, w)
  else
    let c := client w in
    let c := set_bytes_sent c (bytes_sent c + Proto.sizeof_message_header) in
    let c := if sizeof_payload p >? 0
             then set_bytes_sent c (bytes_sent c + sizeof_payload p) else c in
    (0, mk_world c
          (mk_socket (inbound s) (peer_closed s) (io_error s)
             (outbound s ++ [mk_frame type (sizeof_payload p) correlation_id p])
             (is_open s))
          (server w)).

Definition send_client_error (w : world_t) (error_code : Z) (error_message : string)
    (correlation_id : Z) : Z * world_t :=
  send_client_response w Proto.MSG_ERROR
    (ErrorPayload error_code 0 (bounded 4096 error_message)
       (bounded 256 (append "Client " (dec (client_id (client w))))))
    correlation_id.

(** *** The request handlers *)
Section Handlers.

(** [validate_message_header] and [update_stats_job_submitted] are
    declared in protocol.h and server.h; their bodies are not part of the
    sources at hand, so the handlers are stated for any implementation. *)
Variable validate_message_header : Proto.message_header_t -> Z.
Variable update_stats_job_submitted : Queue.server_stats_t -> Queue.server_stats_t.

Definition corr (msg : message_t) : Z := Proto.correlation_id (header msg).
Definition len (msg : message_t) : Z := Proto.data_length (header msg).

Definition handle_hello_message (w : world_t) (msg : message_t) : Z * world_t :=
  if len msg <? Proto.sizeof_hello_payload then
    send_client_error w Proto.ERROR_INVALID_ARGUMENT "Invalid hello payload" (corr msg)
  else
    let c := client w in
    (* Store client information *)
    let c := set_names c (bounded 64 (cstring (bytes_at (data msg) 8 64)))
                         (bounded 32 (cstring (bytes_at (data msg) 72 32))) in
    let c := set_state c CLIENT_STATE_AUTHENTICATED in
    (* Send welcome response *)
    send_client_response (with_client w c) Proto.MSG_HELLO
      (HelloPayload PROJECT_VERSION_MAJOR PROJECT_VERSION_MINOR PROJECT_VERSION_PATCH 0
         (bounded 64 "Code Compiler & Executer Server") (bounded 32 PLATFORM_NAME))
      (corr msg).

Definition handle_file_upload_start (w : world_t) (msg : message_t) : Z * world_t :=
  if negb (client_state_eqb (client_state w) CLIENT_STATE_AUTHENTICATED)
     && negb (client_state_eqb (client_state w) CLIENT_STATE_IDLE) then
    send_client_error w Proto.ERROR_PERMISSION "Not authenticated" (corr msg)
  else if len msg <? Proto.sizeof_file_upload_start then
    send_client_error w Proto.ERROR_INVALID_ARGUMENT "Invalid upload start payload" (corr msg)
  else
    let file_size := le_uint (bytes_at (data msg) 0 8) in
    (* Validate file size *)
    if file_size >? max_file_size (server w) then
      send_client_error w Proto.ERROR_QUOTA_EXCEEDED "File too large" (corr msg)
    else
      send_client_response (with_client w (set_state (client w) CLIENT_STATE_UPLOADING))
        Proto.MSG_ACK NoPayload (corr msg).

Definition handle_file_upload_chunk (w : world_t) (msg : message_t) : Z * world_t :=
  if negb (client_state_eqb (client_state w) CLIENT_STATE_UPLOADING) then
    send_client_error w Proto.ERROR_PERMISSION "Not in upload mode" (corr msg)
  else if len msg <? Proto.sizeof_file_chunk then
    send_client_error w Proto.ERROR_INVALID_ARGUMENT "Invalid chunk payload" (corr msg)
  else
    let chunk_size := le_uint (bytes_at (data msg) 4 4) in
    let chunk_data_size := len msg - Proto.sizeof_file_chunk in
    (* Validate chunk *)
    if negb (chunk_size =? chunk_data_size) then
      send_client_error w Proto.ERROR_INVALID_ARGUMENT "Chunk size mismatch" (corr msg)
    else
      (* TODO: Implement file chunk storage. For now, just acknowledge *)
      send_client_response w Proto.MSG_ACK NoPayload (corr msg).

Definition handle_file_upload_end (w : world_t) (msg : message_t) : Z * world_t :=
  if negb (client_state_eqb (client_state w) CLIENT_STATE_UPLOADING) then
    send_client_error w Proto.ERROR_PERMISSION "Not in upload mode" (corr msg)
  else
    send_client_response (with_client w (set_state (client w) CLIENT_STATE_IDLE))
      Proto.MSG_ACK NoPayload (corr msg).

Definition handle_compile_request (now : Z) (w : world_t) (msg : message_t)
    : Z * world_t :=
  if negb (client_state_eqb (client_state w) CLIENT_STATE_IDLE) then
    send_client_error w Proto.ERROR_PERMISSION "Client not ready" (corr msg)
  else if len msg <? Proto.sizeof_compile_request then
    send_client_error w Proto.ERROR_INVALID_ARGUMENT "Invalid compile request payload" (corr msg)
  else
    let d := data msg in
    (* Create job info *)
    let '(id, next) := Queue.generate_job_id (next_id (server w)) in
    let job :=
      Queue.mk_job id (client_id (client w)) 0 Queue.JOB_STATE_QUEUED
        (le_uint (bytes_at d 0 2)) (le_uint (bytes_at d 2 2))
        now 0 0 0 0
        (bounded 256 (cstring (bytes_at d 8 256))) "" ""
        (bounded 1024 (cstring (bytes_at d 264 1024)))
        (bounded 1024 (cstring (bytes_at d 1288 1024)))
        0 0 Queue.JOB_PRIORITY_NORMAL in
    (* Add job to queue *)
    let '(job_id, ctx') := Queue.add_job job (ctx (server w)) in
    let srv := mk_srv ctx' next (max_file_size (server w)) (disk (server w)) in
    let w := mk_world (client w) (sock w) srv in
    if job_id =? 0 then
      send_client_error w Proto.ERROR_INTERNAL "Failed to queue job" (corr msg)
    else
      let c := set_state (client w) CLIENT_STATE_PROCESSING in
      let c := set_active_jobs c (wrap32 (active_jobs c + 1)) in
      let srv := set_ctx srv (Queue.mk_server (Queue.job_queue ctx')
                                (update_stats_job_submitted (Queue.stats ctx'))) in
      (* Send job ID response *)
      send_client_response (mk_world c (sock w) srv) Proto.MSG_COMPILE_RESPONSE
        (CompileResponse job_id Proto.JOB_STATUS_QUEUED 0 0 0 0) (corr msg).

Definition handle_status_request (w : world_t) (msg : message_t) : Z * world_t :=
  if len msg <? Proto.sizeof_uint32 then
    send_client_error w Proto.ERROR_INVALID_ARGUMENT "Invalid status request" (corr msg)
  else
    let job_id := le_uint (bytes_at (data msg) 0 4) in
    (* Find job *)
    match Queue.find_job job_id (Queue.job_queue (ctx (server w))) with
    | None => send_client_error w Proto.ERROR_NOT_FOUND "Job not found" (corr msg)
    | Some job =>
        (* Check if client owns this job *)
        if negb (Queue.client_id job =? client_id (client w)) then
          send_client_error w Proto.ERROR_PERMISSION "Access denied" (corr msg)
        else
          let progress :=
            match Queue.state job with
            | Queue.JOB_STATE_COMPLETED => 100
            | Queue.JOB_STATE_RUNNING => 50
            | _ => 0
            end in
          send_client_response w Proto.MSG_STATUS_RESPONSE
            (JobStatusPayload (Queue.job_id job) (Queue.job_state_code (Queue.state job))
               progress (Queue.start_time job) (Queue.end_time job) (Queue.process_id job)
               (bounded 256 (concat "" ["Job "; dec job_id; ": ";
                                        Queue.job_state_to_string (Queue.state job)])))
            (corr msg)
    end.

Definition handle_result_request (w : world_t) (msg : message_t) : Z * world_t :=
  if len msg <? Proto.sizeof_uint32 then
    send_client_error w Proto.ERROR_INVALID_ARGUMENT "Invalid result request" (corr msg)
  else
    let job_id := le_uint (bytes_at (data msg) 0 4) in
    match Queue.find_job job_id (Queue.job_queue (ctx (server w))) with
    | None => send_client_error w Proto.ERROR_NOT_FOUND "Job not found" (corr msg)
    | Some job =>
        if negb (Queue.client_id job =? client_id (client w)) then
          send_client_error w Proto.ERROR_PERMISSION "Access denied" (corr msg)
        else if negb (Queue.job_state_eqb (Queue.state job) Queue.JOB_STATE_COMPLETED)
                && negb (Queue.job_state_eqb (Queue.state job) Queue.JOB_STATE_FAILED) then
          send_client_error w Proto.ERROR_PERMISSION "Job not completed" (corr msg)
        else
          let elapsed :=
            if Queue.end_time job >? Queue.start_time job
            then wrap32 ((Queue.end_time job - Queue.start_time job) * 1000) else 0 in
          send_client_response w Proto.MSG_RESULT_RESPONSE
            (CompileResponse (Queue.job_id job) (Queue.job_state_code (Queue.state job))
               (Queue.exit_code job) (wrap32 (Queue.output_size job))
               (wrap32 (Queue.error_size job)) elapsed)
            (corr msg)
    end.

(** Process client request based on message type. *)
Definition process_client_request (now : Z) (w : world_t) (msg : message_t)
    : Z * world_t :=
  let t := Proto.message_type (header msg) in
  if t =? Proto.MSG_HELLO then handle_hello_message w msg
  else if t =? Proto.MSG_FILE_UPLOAD_START then handle_file_upload_start w msg
  else if t =? Proto.MSG_FILE_UPLOAD_CHUNK then handle_file_upload_chunk w msg
  else if t =? Proto.MSG_FILE_UPLOAD_END then handle_file_upload_end w msg
  else if t =? Proto.MSG_COMPILE_REQUEST then handle_compile_request now w msg
  else if t =? Proto.MSG_STATUS_REQUEST then handle_status_request w msg
  else if t =? Proto.MSG_RESULT_REQUEST then handle_result_request w msg
  else if t =? Proto.MSG_PING then
    (* Simple ping/pong *)
    send_client_response w Proto.MSG_PONG NoPayload (corr msg)
  else
    send_client_error w Proto.ERROR_INVALID_ARGUMENT "Unknown message type" (corr msg).

Definition with_sock (w : world_t) (s : socket_t) : world_t :=
  mk_world (client w) s (server w).

(** Read one framed message from the socket and serve it. *)
Definition handle_client_message (now : Z) (w : world_t) : Z * world_t :=
  (* Receive message header *)
  match recv (sock w) Proto.sizeof_message_header with
  | (RecvFailed true, _) => (0, w)       (* No data available *)
  | (RecvFailed false, _) => (-1, w)
  | (Received [], _) => (-1, w)          (* client disconnected *)
  | (Received raw, s1) =>
      let w := with_sock w s1 in
      if negb (Z.of_nat (List.length raw) =? Proto.sizeof_message_header) then (-1, w)
      else
        (* Convert from network byte order *)
        let hdr := header_from_network raw in
        (* Validate header *)
        if negb (validate_message_header hdr =? 0) then (-1, w)
        else if Proto.data_length hdr >? 0 then
          (* Receive message data if present *)
          if Proto.data_length hdr >? Proto.MAX_MESSAGE_SIZE then (-1, w)
          else
            match recv (sock w) (Proto.data_length hdr) with
            | (RecvFailed _, _) => (-1, w)
            | (Received payload, s2) =>
                let w := with_sock w s2 in
                if negb (Z.of_nat (List.length payload) =? Proto.data_length hdr)
                then (-1, w)
                else
                  let c := client w in
                  let c := set_bytes_received c (bytes_received c + Proto.data_length hdr) in
                  let c := set_last_activity c now in
                  process_client_request now (with_client w c) (mk_message hdr payload)
            end
        else
          process_client_request now
            (with_client w (set_last_activity (client w) now)) (mk_message hdr [])
  end.

(** The walk over the queue in [cleanup_inactive_client]. *)
Fixpoint cancel_jobs_of (client : Z) (q : Queue.job_queue_t)
    : Queue.job_queue_t * list os_event :=
  match q with
  | [] => ([], [])
  | node :: next =>
      let '(next', sig) := cancel_jobs_of client next in
      if Queue.client_id node =? client then
        (Queue.set_state node Queue.JOB_STATE_CANCELLED :: next',
         (if Queue.job_state_eqb (Queue.state node) Queue.JOB_STATE_RUNNING
             && (Queue.process_id node >? 0)
          then [EvKill (Queue.process_id node) SIGTERM] else []) ++ sig)
      else (node :: next', sig)
  end.

(** Close the socket and cancel the client's jobs; the client then leaves
    the roster ([remove_client], whose body is not at hand). *)
Definition cleanup_inactive_client (w : world_t) : world_t * list os_event :=
  let s := if socket_fd (client w) =? -1 then sock w else close (sock w) in
  let c := set_socket_fd (client w) (-1) in
  let '(q, sig) := cancel_jobs_of (client_id c) (Queue.job_queue (ctx (server w))) in
  (mk_world c s (set_ctx (server w) (Queue.mk_server q (Queue.stats (ctx (server w))))),
   sig).

(** The POLLIN branch of [client_thread_handler] for one client: the result
    tells whether the client is still served afterwards. *)
Definition serve_readable (now : Z) (w : world_t) : bool * world_t * list os_event :=
  let '(result, w) := handle_client_message now w in
  if negb (result =? 0) then
    (* Client disconnected or error *)
    let '(w, sig) := cleanup_inactive_client w in (false, w, sig)
  else (true, w, []).

(** The requests of one client served in order, up to the first one whose
    handler fails (the client is then dropped). *)
Fixpoint serve_all (now : Z) (w : world_t) (msgs : list message_t) : world_t :=
  match msgs with
  | [] => w
  | msg :: rest =>
      let '(result, w') := process_client_request now w msg in
      if result =? 0 then serve_all now w' rest else w'
  end.

End Handlers.

(** The world with the shared job queue replaced. *)
Definition with_queue (w : world_t) (q : Queue.job_queue_t) : world_t :=
  mk_world (client w) (sock w)
    (set_ctx (server w) (Queue.mk_server q (Queue.stats (ctx (server w))))).

Definition queue_of (w : world_t) : Queue.job_queue_t :=
  Queue.job_queue (ctx (server w)).

(** The socket can be written to. *)
Definition writable (w : world_t) : Prop :=
  io_error (sock w) = false /\ is_open (sock w) = true.

(** The last message the server sent to the client. *)
Definition last_sent (w : world_t) : option frame_t :=
  List.last (map Some (outbound (sock w))) None.

(** [w'] has the same unread input, the same open or closed socket, the
    same files on disk and the same client id as [w]. *)
Definition keeps (w w' : world_t) : Prop :=
  inbound (sock w') = inbound (sock w)
  /\ is_open (sock w') = is_open (sock w)
  /\ disk (server w') = disk (server w)
  /\ client_id (client w') = client_id (client w).

(** The kinds that are refused before Hello. *)
Definition needs_session (t : Z) : Prop :=
  t = Proto.MSG_FILE_UPLOAD_START \/ t = Proto.MSG_FILE_UPLOAD_CHUNK
  \/ t = Proto.MSG_FILE_UPLOAD_END \/ t = Proto.MSG_COMPILE_REQUEST.

(** The kinds no client request has. *)
Definition unknown_kind (t : Z) : Prop := t < Proto.MSG_HELLO \/ Proto.MSG_PING < t.

(** The socket with its unread input replaced. *)
Definition with_inbound (s : socket_t) (l : list Z) : socket_t :=
  mk_socket l (peer_closed s) (io_error s) (outbound s) (is_open s).

(** The world once the header bytes have been taken from the socket. *)
Definition after_header (w : world_t) (rest : list Z) : world_t :=
  with_sock w (with_inbound (sock w) rest).

(** [r] is the outcome of one message sent to the client of [w] in answer
    to [msg]: the handler sends exactly once, on the socket as it was, with
    the correlation id of the request. *)
Definition answers (w : world_t) (msg : message_t) (r : Z * world_t) : Prop :=
  exists w1 t p,
    r = send_client_response w1 t p (corr msg)
    /\ sock w1 = sock w
    /\ bytes_sent (client w1) = bytes_sent (client w).

(** The moves of the session state a request of kind [t] can make. *)
Definition moves (t : Z) (s s' : client_state_t) : Prop :=
  s' = s
  \/ (t = Proto.MSG_HELLO /\ s' = CLIENT_STATE_AUTHENTICATED)
  \/ (t = Proto.MSG_FILE_UPLOAD_START
      /\ (s = CLIENT_STATE_AUTHENTICATED \/ s = CLIENT_STATE_IDLE)
      /\ s' = CLIENT_STATE_UPLOADING)
  \/ (t = Proto.MSG_FILE_UPLOAD_END /\ s = CLIENT_STATE_UPLOADING
      /\ s' = CLIENT_STATE_IDLE)
  \/ (t = Proto.MSG_COMPILE_REQUEST /\ s = CLIENT_STATE_IDLE
      /\ s' = CLIENT_STATE_PROCESSING).

(** The jobs of the queue submitted by [client]. *)
Definition jobs_of (client : Z) (q : Queue.job_queue_t) : Queue.job_queue_t :=
  filter (fun j => Queue.client_id j =? client) q.

(** The jobs of the queue submitted by the other clients. *)
Definition jobs_of_others (client : Z) (q : Queue.job_queue_t) : Queue.job_queue_t :=
  filter (fun j => negb (Queue.client_id j =? client)) q.

End Session.

(** ** Concrete data for the scenarios *)
Module Scenario.

Import Executor.

Definition gcc : compiler_info_t :=
  mk_compiler COMPILER_C "gcc" "/usr/bin/gcc" "-Wall -Wextra -std=c99" true.

(** A child started at time 0 that is found idle at the given times, then
    fills both capture buffers and exits with status 0. *)
Definition slow_child (pid : Z) (idle_at : list Z) : child_t :=
  mk_child true pid 0
    (map SelectIdle idle_at ++ [SelectReady (Some 8191) (Some 8191)])
    (Some (WExited 0)).

(** A child started at time 0 that never writes and never exits. *)
Definition hung_child (pid : Z) (idle_at : list Z) : child_t :=
  mk_child true pid 0 (map SelectIdle idle_at) None.

Definition env_with (compile_child exec_child : child_t) : os_env :=
  mk_env [gcc] "./processing" MkdirOk true compile_child exec_child.

(** A stand-in for [interpret_source_code] and [syntax_check_only]. *)
Definition no_step (env : os_env) (job : compilation_job_t) : option step_result :=
  Some (-1, job, []).

Definition clock0 : Queue.clock_t := Queue.mk_clock 1000 1000 1400.

(** A job for the source file a.c written in C. *)
Definition job_a_c (id client : Z) (st : Queue.job_state_t) (mode prio : Z)
    : Queue.job_info_t :=
  Queue.mk_job id client 0 st 1 mode 900 0 0 0 0 "a.c" "" "" "" "" 0 0 prio.

Definition stats0 : Queue.server_stats_t := Queue.mk_stats 0 0 0 0.

(** *** Messages and sessions *)

Definition pad (n : nat) (l : list Z) : list Z := l ++ repeat 0 (n - List.length l).

(** The bytes of an unsigned integer, least significant first. *)
Fixpoint le_bytes (n : nat) (v : Z) : list Z :=
  match n with
  | O => []
  | S k => v mod 256 :: le_bytes k (v / 256)
  end.

(** The bytes of an unsigned integer, most significant first. *)
Definition be_bytes (n : nat) (v : Z) : list Z := rev (le_bytes n v).

Fixpoint chars (s : string) : list Z :=
  match s with
  | EmptyString => []
  | String c r => Z.of_nat (nat_of_ascii c) :: chars r
  end.

Definition message (type : Z) (correlation_id : Z) (payload : list Z)
    : Session.message_t :=
  Session.mk_message
    (Proto.mk_header Proto.PROTOCOL_MAGIC type 0 (Z.of_nat (List.length payload))
       correlation_id 0 0)
    payload.

Definition hello_msg (corr : Z) : Session.message_t :=
  message Proto.MSG_HELLO corr
    (le_bytes 2 1 ++ le_bytes 2 0 ++ le_bytes 2 0 ++ le_bytes 2 0
     ++ pad 64 (chars "t") ++ pad 32 (chars "x")).

Definition source_text : string := "int main(){return 0;}".

(** FileUploadStart for a.c in one chunk of 21 bytes, declaring a file of
    [file_size] bytes. *)
Definition upload_start_msg (corr file_size : Z) : Session.message_t :=
  message Proto.MSG_FILE_UPLOAD_START corr
    (le_bytes 8 file_size ++ le_bytes 4 1 ++ le_bytes 4 21 ++ pad 256 (chars "a.c")
     ++ le_bytes 4 0).

Definition upload_chunk_msg (corr : Z) : Session.message_t :=
  message Proto.MSG_FILE_UPLOAD_CHUNK corr
    (le_bytes 4 0 ++ le_bytes 4 21 ++ le_bytes 4 0 ++ chars source_text).

Definition upload_end_msg (corr : Z) : Session.message_t :=
  message Proto.MSG_FILE_UPLOAD_END corr [].

Definition compile_msg (corr priority : Z) : Session.message_t :=
  message Proto.MSG_COMPILE_REQUEST corr
    (le_bytes 2 1 ++ le_bytes 2 Proto.EXEC_MODE_COMPILE_ONLY ++ le_bytes 2 0
     ++ le_bytes 2 priority ++ pad 256 (chars "a.c") ++ pad 1024 [] ++ pad 1024 []).

Definition status_msg (corr job_id : Z) : Session.message_t :=
  message Proto.MSG_STATUS_REQUEST corr (le_bytes 4 job_id).

Definition ping_msg (corr : Z) : Session.message_t :=
  message Proto.MSG_PING corr [].

(** The wire image of a header. *)
Definition header_bytes (type len corr : Z) : list Z :=
  be_bytes 4 Proto.PROTOCOL_MAGIC ++ be_bytes 2 type ++ be_bytes 2 0
  ++ be_bytes 4 len ++ be_bytes 4 corr ++ be_bytes 8 0 ++ be_bytes 4 0.

Definition fresh_socket (inbound : list Z) : Session.socket_t :=
  Session.mk_socket inbound false false [] true.

Definition new_client (id : Z) (st : Session.client_state_t) : Session.client_info_t :=
  Session.mk_client (10 + id) id st 900 "" "" 0 0 0.

(** A server that has just started: empty queue, empty processing
    directory. [initialize_server] (server.c) zeroes [g_server] and assigns
    no [config.max_file_size], and nothing else assigns it: it is 0. *)
Definition server0 : Session.server_t :=
  Session.mk_srv (Queue.mk_server [] stats0) 1 0 [].

Definition world0 (id : Z) (st : Session.client_state_t) (inbound : list Z)
    : Session.world_t :=
  Session.mk_world (new_client id st) (fresh_socket inbound) server0.

(** A stand-in for [update_stats_job_submitted]. *)
Definition count_nothing (st : Queue.server_stats_t) : Queue.server_stats_t := st.

(** A stand-in for [validate_message_header]: checks the magic number. *)
Definition check_magic (h : Proto.message_header_t) : Z :=
  if Proto.magic h =? Proto.PROTOCOL_MAGIC then 0 else -1.

End Scenario.

(** * Properties *)

(** ** Job identifiers (generate_job_id) *)
Section JobIds.

Import Queue.

Lemma next_id_after_closed_form (n : nat) :
  next_id_after n = Z.of_nat n mod (2 ^ 32 - 1) + 1.
Proof.
  induction n as [|n IH].
  - reflexivity.
  - cbn [next_id_after generate_job_id snd]. rewrite IH.
    assert (Hr : 0 <= Z.of_nat n mod (2 ^ 32 - 1) < 2 ^ 32 - 1)
      by (apply Z.mod_pos_bound; lia).
    replace (Z.of_nat (S n)) with (Z.of_nat n + 1) by lia.
    rewrite Z.add_mod by lia.
    rewrite (Z.mod_small 1) by lia.
    set (r := Z.of_nat n mod (2 ^ 32 - 1)) in *.
    unfold wrap32.
    destruct (Z.eq_dec (r + 1) (2 ^ 32 - 1)) as [E|E].
    + rewrite E, Z_mod_same_full.
      replace (r + 1 + 1) with (2 ^ 32) by lia.
      rewrite Z_mod_same_full. reflexivity.
    + rewrite (Z.mod_small (r + 1)) by lia.
      rewrite (Z.mod_small (r + 1 + 1)) by lia.
      destruct (r + 1 + 1 =? 0) eqn:Z0; [apply Z.eqb_eq in Z0; lia | reflexivity].
Qed.

Lemma assigned_id_closed_form (n : nat) :
  assigned_id n = Z.of_nat n mod (2 ^ 32 - 1) + 1.
Proof. unfold assigned_id. cbn [generate_job_id fst]. apply next_id_after_closed_form. Qed.

Lemma assigned_id_range (n : nat) : 1 <= assigned_id n <= 2 ^ 32 - 1.
Proof.
  rewrite assigned_id_closed_form.
  assert (0 <= Z.of_nat n mod (2 ^ 32 - 1) < 2 ^ 32 - 1) by (apply Z.mod_pos_bound; lia).
  lia.
Qed.

(** C9, as stated, fails: after [2^32 - 1] assignments the counter wraps to
    1, so the id handed out by call number [2^32 - 1] is again the id of
    the very first call and is not greater than it. *)
Lemma job_id_reassigned_after_wrap :
  (0 < Z.to_nat (2 ^ 32 - 1))%nat
  /\ assigned_id (Z.to_nat (2 ^ 32 - 1)) = assigned_id 0
  /\ ~ assigned_id 0 < assigned_id (Z.to_nat (2 ^ 32 - 1)).
Proof.
  assert (E : assigned_id (Z.to_nat (2 ^ 32 - 1)) = 1).
  { rewrite assigned_id_closed_form, Z2Nat.id by lia.
    rewrite Z_mod_same_full. reflexivity. }
  assert (E0 : assigned_id 0 = 1) by reflexivity.
  rewrite E, E0. repeat split; lia.
Qed.

(** C9, amended: an assigned job id is never zero; it differs from every
    id assigned less than [2^32 - 1] assignments earlier; and it is
    strictly greater than all ids assigned before it as long as the counter
    has not wrapped (fewer than [2^32 - 1] earlier assignments in total). *)
Theorem job_id_fresh_until_wrap (i j : nat) :
  (i < j)%nat ->
  Z.of_nat j - Z.of_nat i < 2 ^ 32 - 1 ->
  assigned_id j <> 0
  /\ assigned_id i <> assigned_id j
  /\ (Z.of_nat j < 2 ^ 32 - 1 -> assigned_id i < assigned_id j).
Proof.
  intros Hij Hwin.
  split; [pose proof (assigned_id_range j); lia|].
  rewrite !assigned_id_closed_form.
  split.
  - intros E.
    assert (Hd : (Z.of_nat j - Z.of_nat i) mod (2 ^ 32 - 1) = 0).
    { rewrite Zminus_mod.
      replace (Z.of_nat j mod (2 ^ 32 - 1)) with (Z.of_nat i mod (2 ^ 32 - 1)) by lia.
      rewrite Z.sub_diag. reflexivity. }
    rewrite Z.mod_small in Hd by lia. lia.
  - intros Hj.
    rewrite !Z.mod_small by lia. lia.
Qed.

Lemma job_id_fresh_until_wrap_witness :
  assigned_id 5 <> 0 /\ assigned_id 2 <> assigned_id 5
  /\ (Z.of_nat 5 < 2 ^ 32 - 1 -> assigned_id 2 < assigned_id 5).
Proof. apply (job_id_fresh_until_wrap 2 5); simpl; lia. Defined.

End JobIds.

(** ** The job queue (queue_manager.c) *)
Section QueueFacts.

Import Queue.

Lemma find_job_not_in (id : Z) (q : job_queue_t) :
  ~ In id (map job_id q) -> find_job id q = None.
Proof.
  induction q as [|node next IH]; intros Hn; [reflexivity|].
  cbn [find_job]. cbn [map In] in Hn.
  destruct (job_id node =? id) eqn:E.
  - apply Z.eqb_eq in E. tauto.
  - apply IH. tauto.
Qed.

Lemma find_job_id (id : Z) (q : job_queue_t) (j : job_info_t) :
  find_job id q = Some j -> job_id j = id.
Proof.
  induction q as [|node next IH]; cbn [find_job]; [discriminate|].
  destruct (job_id node =? id) eqn:E; [|exact IH].
  intros [= <-]. now apply Z.eqb_eq.
Qed.

Lemma update_job_state_absent (now id : Z) (s : job_state_t) (q : job_queue_t) :
  find_job id q = None -> update_job_state now id s q = q.
Proof.
  induction q as [|node next IH]; cbn [find_job update_job_state]; [reflexivity|].
  destruct (job_id node =? id); [discriminate|].
  intros H. now rewrite IH.
Qed.

Lemma complete_job_absent (now id code : Z) (o e : option string) (q : job_queue_t) :
  find_job id q = None -> complete_job now id code o e q = q.
Proof.
  induction q as [|node next IH]; cbn [find_job complete_job]; [reflexivity|].
  destruct (job_id node =? id); [discriminate|].
  intros H. now rewrite IH.
Qed.

Lemma cancel_job_found (now id : Z) (q : job_queue_t) (j : job_info_t) :
  find_job id q = Some j ->
  find_job id (fst (cancel_job now id q))
  = Some (set_end_time (set_state j JOB_STATE_CANCELLED) now).
Proof.
  induction q as [|node next IH]; cbn [find_job cancel_job]; [discriminate|].
  destruct (job_id node =? id) eqn:E.
  - intros [= <-]. cbn [fst find_job]. cbn [set_end_time set_state job_id].
    now rewrite E.
  - intros H. specialize (IH H).
    destruct (cancel_job now id next) as [next' sig]. cbn [fst] in *.
    cbn [find_job]. now rewrite E.
Qed.

Lemma cancel_job_head (now : Z) (job : job_info_t) (rest : job_queue_t) :
  cancel_job now (job_id job) (job :: rest)
  = (set_end_time (set_state job JOB_STATE_CANCELLED) now :: rest,
     if (process_id job >? 0) && job_state_eqb (state job) JOB_STATE_RUNNING
     then [EvKill (process_id job) SIGTERM] else []).
Proof. cbn [cancel_job]. now rewrite Z.eqb_refl. Qed.

End QueueFacts.

(** ** The executor (compiler_service.c) *)
Section ExecutorFacts.

Import Executor.

Lemma drain_pipes_idle_timeout (osz esz timeout start now : Z)
    (pre post : list select_event) :
  1 < osz ->
  quiet_before timeout start pre ->
  timeout <= now - start ->
  drain_pipes osz esz timeout start (pre ++ SelectIdle now :: post) 0 0
  = Some (true, 0, 0).
Proof.
  intros Hsz Hq Hnow.
  assert (Hroom : negb ((0 <? osz - 1) || (0 <? esz - 1)) = false).
  { replace (0 <? osz - 1) with true by (symmetry; apply Z.ltb_lt; lia).
    reflexivity. }
  induction Hq as [|e pre He Hq IH]; cbn [app drain_pipes]; rewrite Hroom.
  - replace (now - start >=? timeout) with true; [reflexivity|].
    symmetry. apply Z.geb_le. lia.
  - destruct e as [| |t|o r]; try contradiction.
    + exact IH.
    + replace (t - start >=? timeout) with false; [exact IH|].
      symmetry. rewrite Z.geb_leb. apply Z.leb_gt. lia.
Qed.

Lemma execute_command_timed_out (cmd : string) (child : child_t)
    (osz esz timeout now : Z) (pre post : list select_event) :
  pipes_ok child = true ->
  fork_pid child <> -1 ->
  1 < osz ->
  events child = pre ++ SelectIdle now :: post ->
  quiet_before timeout (start_time child) pre ->
  timeout <= now - start_time child ->
  execute_command_with_timeout cmd child osz esz timeout
  = Some (mk_result 124 0 0 [EvLaunch cmd timeout; EvKill (fork_pid child) SIGKILL]).
Proof.
  intros Hp Hf Hsz Hev Hq Hnow. unfold execute_command_with_timeout.
  rewrite Hp. cbn [negb].
  replace (fork_pid child =? -1) with false by (symmetry; now apply Z.eqb_neq).
  rewrite Hev, (drain_pipes_idle_timeout osz esz timeout _ now pre post Hsz Hq Hnow).
  reflexivity.
Qed.

Lemma launches_of_command (cmd : string) (child : child_t) (osz esz timeout : Z)
    (r : command_result) :
  execute_command_with_timeout cmd child osz esz timeout = Some r ->
  launches (sent r) = [] \/ launches (sent r) = [(cmd, timeout)].
Proof.
  unfold execute_command_with_timeout.
  destruct (pipes_ok child); cbn [negb]; [|intros [= <-]; now left].
  destruct (fork_pid child =? -1); [intros [= <-]; now left|].
  destruct (drain_pipes _ _ _ _ _ _ _) as [[[timed_out op] ep]|]; cbn [obind];
    [|discriminate].
  destruct timed_out; [intros [= <-]; now right|].
  destruct (wait_result child) as [[c|s|]|]; intros [= <-]; now right.
Qed.

Lemma build_compile_command_set_status (g : list compiler_info_t)
    (j : compilation_job_t) (s : compile_status_t) :
  build_compile_command g (set_status j s) = build_compile_command g j.
Proof. reflexivity. Qed.

End ExecutorFacts.

Section StepFacts.

Import Executor.

Lemma compile_source_code_launches (env : os_env) (job job' : compilation_job_t)
    (res : Z) (evs : list os_event) :
  compile_source_code env job = Some (res, job', evs) ->
  launches evs = [] \/ exists cmd, launches evs = [(cmd, MAX_COMPILATION_TIME)].
Proof.
  unfold compile_source_code.
  destruct (get_compiler_by_type _ _); [|intros [= <- <- <-]; now left].
  destruct (negb (create_job_sandbox _ _ =? 0)); [intros [= <- <- <-]; now left|].
  destruct (negb (validate_source_content _ _ _ =? 0)); [intros [= <- <- <-]; now left|].
  destruct (build_compile_command _ _) as [cmd|]; [|intros [= <- <- <-]; now left].
  destruct (execute_command_with_timeout _ _ _ _ _) as [r|] eqn:Er; cbn [obind];
    [|discriminate].
  apply launches_of_command in Er.
  destruct (code r =? 0); intros [= <- <- <-]; cbn [launches];
    (destruct Er as [-> | ->]; [now left | right; now exists cmd]).
Qed.

Lemma execute_compiled_program_launches (env : os_env)
    (job job' : compilation_job_t) (res : Z) (evs : list os_event) :
  execute_compiled_program env job = Some (res, job', evs) ->
  launches evs = [] \/ exists cmd, launches evs = [(cmd, MAX_EXECUTION_TIME)].
Proof.
  unfold execute_compiled_program.
  destruct (negb (is_compiled (status job))); [intros [= <- <- <-]; now left|].
  destruct (build_execute_command _ _) as [cmd|]; [|intros [= <- <- <-]; now left].
  destruct (execute_command_with_timeout _ _ _ _ _) as [r|] eqn:Er; cbn [obind];
    [|discriminate].
  apply launches_of_command in Er.
  destruct (code r =? 0); intros [= <- <- <-];
    (destruct Er as [-> | ->]; [now left | right; now exists cmd]).
Qed.

Lemma compile_source_code_times_out (env : os_env) (job : compilation_job_t)
    (cmd : string) :
  compile_ready env job cmd ->
  silent_until MAX_COMPILATION_TIME (compile_child env) ->
  exists job',
    compile_source_code env job
    = Some (-1, job',
            [EvMkdir (sandbox_dir job); EvLaunch cmd MAX_COMPILATION_TIME;
             EvKill (fork_pid (compile_child env)) SIGKILL])
    /\ compile_exit_code job' = 124
    /\ exec_exit_code job' = exec_exit_code job
    /\ status job' = COMPILE_STATUS_FAILED.
Proof.
  intros (Hb & Hm & Hr & Hp & Hf) (pre & now & post & Hev & Hq & Hnow).
  unfold compile_source_code.
  rewrite build_compile_command_set_status, Hb.
  assert (Hc : exists c, get_compiler_by_type (g_compilers env) (compiler_type job) = Some c).
  { unfold build_compile_command in Hb.
    destruct (get_compiler_by_type _ _) as [c|]; [now exists c | discriminate]. }
  destruct Hc as [c Hc].
  replace (compiler_type (set_status job COMPILE_STATUS_COMPILING))
    with (compiler_type job) by reflexivity.
  rewrite Hc.
  unfold create_job_sandbox, validate_source_content. rewrite Hr.
  replace (negb ((match mkdir_answer env with MkdirFailed => -1 | _ => 0 end) =? 0))
    with false by (destruct (mkdir_answer env); [reflexivity | reflexivity | contradiction]).
  cbn [negb Z.eqb].
  rewrite (execute_command_timed_out cmd (compile_child env) MAX_COMPILER_OUTPUT
             MAX_COMPILER_OUTPUT MAX_COMPILATION_TIME now pre post Hp Hf
             ltac:(unfold MAX_COMPILER_OUTPUT; lia) Hev Hq Hnow).
  cbn [obind code sent err_len Z.eqb].
  eexists. split; [reflexivity|]. repeat split.
Qed.

Lemma execute_compiled_program_times_out (env : os_env) (job : compilation_job_t)
    (cmd : string) :
  exec_ready env job cmd ->
  silent_until MAX_EXECUTION_TIME (exec_child env) ->
  exists job',
    execute_compiled_program env job
    = Some (-1, job',
            [EvLaunch cmd MAX_EXECUTION_TIME;
             EvKill (fork_pid (exec_child env)) SIGKILL])
    /\ exec_exit_code job' = 124
    /\ status job' = COMPILE_STATUS_FAILED.
Proof.
  intros (Hs & Hb & Hp & Hf) (pre & now & post & Hev & Hq & Hnow).
  unfold execute_compiled_program. rewrite Hs. cbn [is_compiled negb].
  replace (build_execute_command (g_compilers env) (set_status job COMPILE_STATUS_RUNNING))
    with (build_execute_command (g_compilers env) job) by reflexivity.
  rewrite Hb.
  rewrite (execute_command_timed_out cmd (exec_child env) MAX_COMPILER_OUTPUT
             MAX_COMPILER_OUTPUT MAX_EXECUTION_TIME now pre post Hp Hf
             ltac:(unfold MAX_COMPILER_OUTPUT; lia) Hev Hq Hnow).
  cbn [obind code sent Z.eqb].
  eexists. split; [reflexivity|]. split; reflexivity.
Qed.

(** C8, as stated, fails: a compile command still silent after 61 seconds
    and a run command still silent after 31 seconds are both left alone;
    the job succeeds, under the limits 300 and 60. *)
Lemma steps_outlive_60_and_30_seconds :
  match Queue.run_by_mode Scenario.no_step Scenario.no_step
          (Scenario.env_with (Scenario.slow_child 4001 [61]) (Scenario.slow_child 4002 [31]))
          (Queue.setup_compilation_job
             (Scenario.env_with (Scenario.slow_child 4001 [61]) (Scenario.slow_child 4002 [31]))
             Scenario.clock0
             (Scenario.job_a_c 1 7 Queue.JOB_STATE_QUEUED Proto.EXEC_MODE_COMPILE_AND_RUN 5))
  with
  | Some (res, _, evs) =>
      res = 0 /\ map snd (launches evs) = [300; 60] /\ kills evs = []
  | None => False
  end.
Proof. vm_compute. repeat split. Qed.

(** C8, amended: the compile step launches its command at most once, under
    a limit of 300 seconds, and the execute step at most once, under a limit
    of 60 seconds; a child that stays silent until an idle check finds the
    limit reached is killed and the step fails, without a retry. *)
Theorem executor_time_limits (env : os_env) (job : compilation_job_t) :
  (forall res job' evs,
      compile_source_code env job = Some (res, job', evs) ->
      launches evs = [] \/ exists cmd, launches evs = [(cmd, 300)])
  /\ (forall res job' evs,
      execute_compiled_program env job = Some (res, job', evs) ->
      launches evs = [] \/ exists cmd, launches evs = [(cmd, 60)])
  /\ (forall cmd,
      compile_ready env job cmd ->
      silent_until 300 (compile_child env) ->
      exists job',
        compile_source_code env job
        = Some (-1, job',
                [EvMkdir (sandbox_dir job); EvLaunch cmd 300;
                 EvKill (fork_pid (compile_child env)) SIGKILL]))
  /\ (forall cmd,
      exec_ready env job cmd ->
      silent_until 60 (exec_child env) ->
      exists job',
        execute_compiled_program env job
        = Some (-1, job',
                [EvLaunch cmd 60; EvKill (fork_pid (exec_child env)) SIGKILL])).
Proof.
  repeat split.
  - intros res job' evs H. exact (compile_source_code_launches env job job' res evs H).
  - intros res job' evs H. exact (execute_compiled_program_launches env job job' res evs H).
  - intros cmd Hr Hs.
    destruct (compile_source_code_times_out env job cmd Hr Hs) as (job' & E & _).
    now exists job'.
  - intros cmd Hr Hs.
    destruct (execute_compiled_program_times_out env job cmd Hr Hs) as (job' & E & _).
    now exists job'.
Qed.

End StepFacts.

(** ** The worker (job_processor_thread, process_compilation_job) *)
Section WorkerFacts.

Import Queue.

Variable interpret_source_code :
  Executor.os_env -> Executor.compilation_job_t -> option Executor.step_result.
Variable syntax_check_only :
  Executor.os_env -> Executor.compilation_job_t -> option Executor.step_result.

Lemma process_compilation_job_absent (env : Executor.os_env) (clk : clock_t)
    (job : job_info_t) (q : job_queue_t) (p : processed_t) :
  find_job (job_id job) q = None ->
  process_compilation_job interpret_source_code syntax_check_only env clk job q = Some p ->
  p_queue p = q.
Proof.
  intros Hn. unfold process_compilation_job.
  destruct (run_by_mode _ _ _ _) as [[[result comp_job] evs]|]; cbn [obind];
    [|discriminate].
  intros [= <-]. cbn [p_queue].
  unfold set_results. cbn [job_id].
  rewrite (update_job_state_absent _ _ _ _ Hn).
  destruct (result =? 0); now apply complete_job_absent.
Qed.

Lemma setup_compilation_job_cancelled (env : Executor.os_env) (clk : clock_t)
    (job : job_info_t) (s : job_state_t) (t : Z) :
  setup_compilation_job env clk (set_end_time (set_state job s) t)
  = setup_compilation_job env clk job.
Proof. reflexivity. Qed.

Lemma execute_command_launch (cmd : string) (child : Executor.child_t)
    (osz esz timeout : Z) (r : bool * Z * Z) :
  Executor.pipes_ok child = true ->
  Executor.fork_pid child <> -1 ->
  Executor.drain_pipes osz esz timeout (Executor.start_time child)
    (Executor.events child) 0 0 = Some r ->
  exists res,
    Executor.execute_command_with_timeout cmd child osz esz timeout = Some res
    /\ In (EvLaunch cmd timeout) (Executor.sent res).
Proof.
  intros Hp Hf Hd. unfold Executor.execute_command_with_timeout.
  rewrite Hp. cbn [negb].
  replace (Executor.fork_pid child =? -1) with false by (symmetry; now apply Z.eqb_neq).
  rewrite Hd. cbn [obind]. destruct r as [[timed_out op] ep].
  destruct timed_out; [eexists; split; [reflexivity | now left]|].
  destruct (Executor.wait_result child) as [[c|sg|]|];
    (eexists; split; [reflexivity | now left]).
Qed.

Lemma compile_source_code_launch (env : Executor.os_env)
    (job : Executor.compilation_job_t) (cmd : string) :
  Executor.compile_ready env job cmd ->
  Executor.loop_ends Executor.MAX_COMPILATION_TIME (Executor.compile_child env) ->
  exists res job' evs,
    Executor.compile_source_code env job = Some (res, job', evs)
    /\ In (EvLaunch cmd Executor.MAX_COMPILATION_TIME) evs.
Proof.
  intros (Hb & Hm & Hr & Hp & Hf) (r & Hd).
  unfold Executor.compile_source_code.
  rewrite build_compile_command_set_status, Hb.
  assert (Hc : exists c, Executor.get_compiler_by_type (Executor.g_compilers env)
                           (Executor.compiler_type job) = Some c).
  { unfold Executor.build_compile_command in Hb.
    destruct (Executor.get_compiler_by_type _ _) as [c|]; [now exists c | discriminate]. }
  destruct Hc as [c Hc].
  replace (Executor.compiler_type (Executor.set_status job Executor.COMPILE_STATUS_COMPILING))
    with (Executor.compiler_type job) by reflexivity.
  rewrite Hc.
  unfold Executor.create_job_sandbox, Executor.validate_source_content. rewrite Hr.
  replace (negb ((match Executor.mkdir_answer env with
                  | Executor.MkdirFailed => -1 | _ => 0 end) =? 0))
    with false
    by (destruct (Executor.mkdir_answer env); [reflexivity | reflexivity | contradiction]).
  cbn [negb Z.eqb].
  destruct (execute_command_launch cmd _ _ _ _ r Hp Hf Hd) as (res & -> & Hin).
  cbn [obind].
  destruct (Executor.code res =? 0); do 3 eexists; (split; [reflexivity | now right]).
Qed.

(** C4: a job cancelled while it is still queued keeps its place in the
    queue; the worker takes it like any other job and launches its compile
    command. The code therefore runs the steps of a cancelled job. *)
Theorem cancelled_queued_job_is_still_compiled (env : Executor.os_env)
    (clk : clock_t) (now : Z) (srv : server_context_t) (job : job_info_t)
    (rest : job_queue_t) (cmd : string) :
  job_queue srv = job :: rest ->
  state job = JOB_STATE_QUEUED ->
  mode job = Proto.EXEC_MODE_COMPILE_ONLY ->
  Executor.compile_ready env (setup_compilation_job env clk job) cmd ->
  Executor.loop_ends Executor.MAX_COMPILATION_TIME (Executor.compile_child env) ->
  let q := fst (cancel_job now (job_id job) (job_queue srv)) in
  option_map state (find_job (job_id job) q) = Some JOB_STATE_CANCELLED
  /\ exists srv' evs,
       job_processor_step interpret_source_code syntax_check_only env clk
         (mk_server q (stats srv)) = Some (srv', evs)
       /\ In (EvLaunch cmd Executor.MAX_COMPILATION_TIME) evs.
Proof.
  intros Hq Hst Hmode Hready Hends q. subst q.
  rewrite Hq, cancel_job_head. cbn [fst].
  split.
  - cbn [find_job]. unfold set_end_time, set_state. cbn [job_id].
    now rewrite Z.eqb_refl.
  - unfold job_processor_step. cbn [job_queue get_next_job].
    unfold process_compilation_job.
    rewrite setup_compilation_job_cancelled.
    destruct (compile_source_code_launch env _ cmd Hready Hends)
      as (res & job' & evs & Hc & Hin).
    unfold run_by_mode.
    replace (Executor.exec_mode (setup_compilation_job env clk job))
      with (mode job) by reflexivity.
    rewrite Hmode. cbn [Z.eqb Proto.EXEC_MODE_COMPILE_ONLY].
    rewrite Hc. cbn [obind].
    do 2 eexists. split; [reflexivity|].
    cbn [p_events]. apply in_or_app. now left.
Qed.

(** C7: cancelling a job that is already in a terminal state rewrites it:
    its state becomes Cancelled and its end time the time of the call. *)
Theorem cancel_overwrites_terminal_job (now id : Z) (q : job_queue_t)
    (j : job_info_t) :
  find_job id q = Some j ->
  is_terminal (state j) = true ->
  find_job id (fst (cancel_job now id q))
  = Some (set_end_time (set_state j JOB_STATE_CANCELLED) now).
Proof. intros Hf _. now apply cancel_job_found. Qed.

End WorkerFacts.

Lemma cancelled_queued_job_is_still_compiled_witness :
  let job := Scenario.job_a_c 1 7 Queue.JOB_STATE_QUEUED Proto.EXEC_MODE_COMPILE_ONLY 5 in
  let env := Scenario.env_with (Scenario.hung_child 4001 [300]) (Scenario.hung_child 4002 []) in
  let q := fst (Queue.cancel_job 950 1 [job]) in
  option_map Queue.state (Queue.find_job 1 q) = Some Queue.JOB_STATE_CANCELLED
  /\ exists srv' evs,
       Queue.job_processor_step Scenario.no_step Scenario.no_step env Scenario.clock0
         (Queue.mk_server q Scenario.stats0) = Some (srv', evs)
       /\ In (EvLaunch
                "cd './processing/job_1_1000' && /usr/bin/gcc -Wall -Wextra -std=c99  -o 'a_exe' 'a'"
                300) evs.
Proof.
  intros job env.
  apply (cancelled_queued_job_is_still_compiled Scenario.no_step Scenario.no_step
           env Scenario.clock0 950 (Queue.mk_server [job] Scenario.stats0) job []).
  - reflexivity.
  - reflexivity.
  - reflexivity.
  - repeat split; try reflexivity; vm_compute; discriminate.
  - eexists. vm_compute. reflexivity.
Defined.

Lemma cancel_overwrites_terminal_job_witness :
  let done := Queue.set_end_time (Scenario.job_a_c 1 7 Queue.JOB_STATE_CANCELLED 0 5) 100 in
  Queue.find_job 1 (fst (Queue.cancel_job 200 1 [done]))
  = Some (Queue.set_end_time (Queue.set_state done Queue.JOB_STATE_CANCELLED) 200)
  /\ Queue.end_time done = 100
  /\ option_map Queue.end_time (Queue.find_job 1 (fst (Queue.cancel_job 200 1 [done])))
     = Some 200.
Proof.
  intros done. split; [|split; reflexivity].
  apply (cancel_overwrites_terminal_job 200 1 [done] done); reflexivity.
Defined.

(** ** Completing a job (complete_job) *)
Section Completion.

Import Queue.

Lemma complete_job_found (now id code : Z) (o e : option string)
    (q : job_queue_t) (j : job_info_t) :
  find_job id q = Some j ->
  find_job id (complete_job now id code o e q)
  = Some (set_files
            (set_end_time
               (set_exit_code
                  (set_state j (if code =? 0 then JOB_STATE_COMPLETED else JOB_STATE_FAILED))
                  code)
               now)
            o e).
Proof.
  induction q as [|node next IH]; cbn [find_job complete_job]; [discriminate|].
  destruct (job_id node =? id) eqn:E.
  - intros [= <-]. cbn [find_job].
    unfold set_files, set_end_time, set_exit_code, set_state. cbn [job_id].
    now rewrite E.
  - intros H. cbn [find_job]. rewrite E. now apply IH.
Qed.

End Completion.

(** ** The session handler (client_handler.c) *)
Section SessionFacts.

Import Session.

Variable validate_message_header : Proto.message_header_t -> Z.
Variable update_stats_job_submitted : Queue.server_stats_t -> Queue.server_stats_t.

Lemma send_client_response_keeps (w : world_t) (t : Z) (p : payload_t) (c : Z) :
  let w' := snd (send_client_response w t p c) in
  server w' = server w
  /\ client_state w' = client_state w
  /\ client_id (client w') = client_id (client w)
  /\ inbound (sock w') = inbound (sock w)
  /\ is_open (sock w') = is_open (sock w).
Proof.
  unfold send_client_response.
  destruct (io_error (sock w) || negb (is_open (sock w))); cbn [snd].
  - repeat split.
  - destruct (sizeof_payload p >? 0); repeat split.
Qed.

Lemma send_client_response_writable (w : world_t) (t : Z) (p : payload_t) (c : Z) :
  writable w ->
  fst (send_client_response w t p c) = 0
  /\ outbound (sock (snd (send_client_response w t p c)))
     = outbound (sock w) ++ [mk_frame t (sizeof_payload p) c p].
Proof.
  intros [He Ho]. unfold send_client_response. rewrite He, Ho.
  cbn [orb negb fst snd sock outbound]. split; reflexivity.
Qed.

Lemma send_client_error_keeps (w : world_t) (code : Z) (text : string) (c : Z) :
  let w' := snd (send_client_error w code text c) in
  server w' = server w
  /\ client_state w' = client_state w
  /\ client_id (client w') = client_id (client w)
  /\ inbound (sock w') = inbound (sock w)
  /\ is_open (sock w') = is_open (sock w).
Proof. apply send_client_response_keeps. Qed.

Lemma last_sent_snoc (w : world_t) (l : list frame_t) (f : frame_t) :
  outbound (sock w) = l ++ [f] -> last_sent w = Some f.
Proof.
  intros E. unfold last_sent. rewrite E, map_app. cbn [map].
  apply last_last.
Qed.

Lemma send_client_error_writable (w : world_t) (code : Z) (text : string) (c : Z) :
  writable w ->
  fst (send_client_error w code text c) = 0
  /\ last_sent (snd (send_client_error w code text c))
     = Some (mk_frame Proto.MSG_ERROR (4 + 4 + 4096 + 256) c
               (ErrorPayload code 0 (bounded 4096 text)
                  (bounded 256 (append "Client " (dec (client_id (client w))))))).
Proof.
  intros Hw. unfold send_client_error.
  destruct (send_client_response_writable w Proto.MSG_ERROR
              (ErrorPayload code 0 (bounded 4096 text)
                 (bounded 256 (append "Client " (dec (client_id (client w))))))
              c Hw) as [H0 Hout].
  split; [exact H0|].
  now apply last_sent_snoc in Hout.
Qed.

Lemma send_response_keeps (w0 w : world_t) (t : Z) (p : payload_t) (c : Z) :
  keeps w0 w -> keeps w0 (snd (send_client_response w t p c)).
Proof.
  intros (Hi & Ho & Hd & Hc).
  destruct (send_client_response_keeps w t p c) as (Hs & _ & Hc' & Hi' & Ho').
  unfold keeps. rewrite Hs, Hc', Hi', Ho'. now repeat split.
Qed.

Lemma send_error_keeps (w0 w : world_t) (code : Z) (text : string) (c : Z) :
  keeps w0 w -> keeps w0 (snd (send_client_error w code text c)).
Proof. apply send_response_keeps. Qed.

Lemma keeps_refl (w : world_t) : keeps w w.
Proof. now repeat split. Qed.

Lemma keeps_trans (w1 w2 w3 : world_t) : keeps w1 w2 -> keeps w2 w3 -> keeps w1 w3.
Proof.
  intros (A1 & A2 & A3 & A4) (B1 & B2 & B3 & B4). unfold keeps.
  rewrite B1, B2, B3, B4. now repeat split.
Qed.

Ltac keeps_by_send :=
  first [ apply send_error_keeps | apply send_response_keeps ];
  try apply keeps_refl; try (now repeat split).

Lemma handle_hello_message_keeps (w : world_t) (msg : message_t) :
  keeps w (snd (handle_hello_message w msg)).
Proof.
  unfold handle_hello_message.
  destruct (len msg <? Proto.sizeof_hello_payload); keeps_by_send.
Qed.

Lemma handle_file_upload_start_keeps (w : world_t) (msg : message_t) :
  keeps w (snd (handle_file_upload_start w msg)).
Proof.
  unfold handle_file_upload_start.
  destruct (negb _ && negb _); [keeps_by_send|].
  destruct (len msg <? _); [keeps_by_send|].
  destruct (_ >? _); keeps_by_send.
Qed.

Lemma handle_file_upload_chunk_keeps (w : world_t) (msg : message_t) :
  keeps w (snd (handle_file_upload_chunk w msg)).
Proof.
  unfold handle_file_upload_chunk.
  destruct (negb _); [keeps_by_send|].
  destruct (len msg <? _); [keeps_by_send|].
  destruct (negb _); keeps_by_send.
Qed.

Lemma handle_file_upload_end_keeps (w : world_t) (msg : message_t) :
  keeps w (snd (handle_file_upload_end w msg)).
Proof.
  unfold handle_file_upload_end.
  destruct (negb _); keeps_by_send.
Qed.

Lemma handle_compile_request_keeps (now : Z) (w : world_t) (msg : message_t) :
  keeps w (snd (handle_compile_request update_stats_job_submitted now w msg)).
Proof.
  unfold handle_compile_request.
  destruct (negb _); [keeps_by_send|].
  destruct (len msg <? _); [keeps_by_send|].
  unfold Queue.generate_job_id, Queue.add_job.
  destruct (_ =? 0); keeps_by_send.
Qed.

Lemma handle_status_request_keeps (w : world_t) (msg : message_t) :
  keeps w (snd (handle_status_request w msg)).
Proof.
  unfold handle_status_request.
  destruct (len msg <? _); [keeps_by_send|].
  destruct (Queue.find_job _ _) as [job|]; [|keeps_by_send].
  destruct (negb _); keeps_by_send.
Qed.

Lemma handle_result_request_keeps (w : world_t) (msg : message_t) :
  keeps w (snd (handle_result_request w msg)).
Proof.
  unfold handle_result_request.
  destruct (len msg <? _); [keeps_by_send|].
  destruct (Queue.find_job _ _) as [job|]; [|keeps_by_send].
  destruct (negb (Queue.client_id job =? _)); [keeps_by_send|].
  destruct (negb _ && negb _); keeps_by_send.
Qed.

(** No handler reads from the socket, closes it, renames the client or
    touches the files of the processing directory. *)
Lemma process_client_request_keeps (now : Z) (w : world_t) (msg : message_t) :
  keeps w (snd (process_client_request update_stats_job_submitted now w msg)).
Proof.
  unfold process_client_request.
  destruct (_ =? Proto.MSG_HELLO); [apply handle_hello_message_keeps|].
  destruct (_ =? Proto.MSG_FILE_UPLOAD_START); [apply handle_file_upload_start_keeps|].
  destruct (_ =? Proto.MSG_FILE_UPLOAD_CHUNK); [apply handle_file_upload_chunk_keeps|].
  destruct (_ =? Proto.MSG_FILE_UPLOAD_END); [apply handle_file_upload_end_keeps|].
  destruct (_ =? Proto.MSG_COMPILE_REQUEST); [apply handle_compile_request_keeps|].
  destruct (_ =? Proto.MSG_STATUS_REQUEST); [apply handle_status_request_keeps|].
  destruct (_ =? Proto.MSG_RESULT_REQUEST); [apply handle_result_request_keeps|].
  destruct (_ =? Proto.MSG_PING); keeps_by_send.
Qed.

Lemma serve_all_keeps (now : Z) (msgs : list message_t) (w : world_t) :
  keeps w (serve_all update_stats_job_submitted now w msgs).
Proof.
  revert w. induction msgs as [|msg rest IH]; intros w; cbn [serve_all].
  - apply keeps_refl.
  - pose proof (process_client_request_keeps now w msg) as Hk.
    destruct (process_client_request update_stats_job_submitted now w msg)
      as [result w'].
    cbn [snd] in Hk.
    destruct (result =? 0); [|exact Hk].
    exact (keeps_trans _ _ _ Hk (IH w')).
Qed.

(** C2: whatever a client sends -- an acknowledged upload included -- the
    files of the processing directory are afterwards what they were before:
    the uploaded bytes are not stored anywhere. *)
Theorem upload_never_reaches_disk (now : Z) (w : world_t) (msgs : list message_t)
    (path : string) :
  read_file (disk (server (serve_all update_stats_job_submitted now w msgs))) path
  = read_file (disk (server w)) path.
Proof.
  destruct (serve_all_keeps now msgs w) as (_ & _ & Hd & _). now rewrite Hd.
Qed.

Lemma compile_request_queue (now : Z) (w : world_t) (msg : message_t) :
  exists tail,
    queue_of (snd (handle_compile_request update_stats_job_submitted now w msg))
    = queue_of w ++ tail
    /\ Forall (fun j => Queue.priority j = Queue.JOB_PRIORITY_NORMAL) tail.
Proof.
  unfold handle_compile_request, queue_of.
  destruct (negb _).
  { exists []. destruct (send_client_error_keeps w Proto.ERROR_PERMISSION
                          "Client not ready" (corr msg)) as (-> & _).
    rewrite app_nil_r. now split. }
  destruct (len msg <? _).
  { exists []. destruct (send_client_error_keeps w Proto.ERROR_INVALID_ARGUMENT
                          "Invalid compile request payload" (corr msg)) as (-> & _).
    rewrite app_nil_r. now split. }
  unfold Queue.generate_job_id, Queue.add_job.
  eexists [_].
  destruct (_ =? 0).
  - match goal with
    | |- context [send_client_error ?w1 ?c ?t ?k] =>
        destruct (send_client_error_keeps w1 c t k) as (-> & _)
    end.
    cbn [server ctx Queue.job_queue]. split; [reflexivity|].
    repeat constructor.
  - match goal with
    | |- context [send_client_response ?w1 ?t ?p0 ?k] =>
        destruct (send_client_response_keeps w1 t p0 k) as (-> & _)
    end.
    cbn [server ctx set_ctx Queue.job_queue]. split; [reflexivity|].
    repeat constructor.
Qed.

(** C3: a job submitted by a CompileRequest enters the queue with the
    normal priority whatever the priority field of the request says, and of
    two jobs added to an empty queue the first added is the first taken,
    whatever their priorities. *)
Theorem submitted_priority_is_ignored (now : Z) (w : world_t) (msg : message_t)
    (st : Queue.server_stats_t) (a b : Queue.job_info_t) :
  (exists tail,
      queue_of (snd (handle_compile_request update_stats_job_submitted now w msg))
      = queue_of w ++ tail
      /\ Forall (fun j => Queue.priority j = Queue.JOB_PRIORITY_NORMAL) tail)
  /\ Queue.get_next_job
       (Queue.job_queue
          (snd (Queue.add_job b (snd (Queue.add_job a (Queue.mk_server [] st))))))
     = (Some a, [b]).
Proof. split; [apply compile_request_queue | reflexivity]. Qed.

End SessionFacts.

(** An upload of a.c on a server that has just started. The size limit of
    the server is 0, so the upload is announced with [file_size] 0; the chunk
    carries the 21 bytes of the source text all the same. Every message is
    acknowledged, the session is back to Idle, and there is no file a.c; the
    following CompileRequest for a.c is accepted all the same. *)
Example upload_of_a_c_is_not_stored :
  let w :=
    Session.serve_all Scenario.count_nothing 1000
      (Scenario.world0 7 Session.CLIENT_STATE_CONNECTING [])
      [Scenario.hello_msg 1; Scenario.upload_start_msg 2 0; Scenario.upload_chunk_msg 3;
       Scenario.upload_end_msg 4] in
  map Session.f_type (Session.outbound (Session.sock w))
  = [Proto.MSG_HELLO; Proto.MSG_ACK; Proto.MSG_ACK; Proto.MSG_ACK]
  /\ Session.client_state w = Session.CLIENT_STATE_IDLE
  /\ Session.disk (Session.server w) = []
  /\ Session.read_file (Session.disk (Session.server w)) "a.c" = None
  /\ map Session.f_type
       (Session.outbound
          (Session.sock
             (snd (Session.process_client_request Scenario.count_nothing 1001 w
                     (Scenario.compile_msg 5 5)))))
     = [Proto.MSG_HELLO; Proto.MSG_ACK; Proto.MSG_ACK; Proto.MSG_ACK;
        Proto.MSG_COMPILE_RESPONSE].
Proof. vm_compute. repeat split. Qed.

(** The same upload announced with its true size of 21 bytes: the server
    that has just started answers FileUploadStart with Error{QuotaExceeded},
    the session stays Authenticated, and the chunk and the end of the upload
    are refused in turn. Nothing is stored either. *)
Example upload_with_declared_size_is_refused :
  let w :=
    Session.serve_all Scenario.count_nothing 1000
      (Scenario.world0 7 Session.CLIENT_STATE_CONNECTING [])
      [Scenario.hello_msg 1; Scenario.upload_start_msg 2 21; Scenario.upload_chunk_msg 3;
       Scenario.upload_end_msg 4] in
  map (fun f => match Session.f_payload f with
                | Session.ErrorPayload code _ _ _ => (Session.f_type f, code)
                | _ => (Session.f_type f, 0)
                end)
    (Session.outbound (Session.sock w))
  = [(Proto.MSG_HELLO, 0); (Proto.MSG_ERROR, Proto.ERROR_QUOTA_EXCEEDED);
     (Proto.MSG_ERROR, Proto.ERROR_PERMISSION); (Proto.MSG_ERROR, Proto.ERROR_PERMISSION)]
  /\ Session.client_state w = Session.CLIENT_STATE_AUTHENTICATED
  /\ Session.disk (Session.server w) = [].
Proof. vm_compute. repeat split. Qed.

(** Session 7 submits with priority 1, then session 8 with priority 10:
    both jobs are queued with priority 5 and the worker takes the job of
    session 7 first. *)
Example low_priority_job_is_taken_first :
  let wa :=
    snd (Session.process_client_request Scenario.count_nothing 1000
           (Scenario.world0 7 Session.CLIENT_STATE_IDLE []) (Scenario.compile_msg 1 1)) in
  let wb :=
    snd (Session.process_client_request Scenario.count_nothing 1001
           (Session.mk_world (Scenario.new_client 8 Session.CLIENT_STATE_IDLE)
              (Scenario.fresh_socket []) (Session.server wa))
           (Scenario.compile_msg 1 10)) in
  map (fun j => (Queue.job_id j, Queue.client_id j, Queue.priority j)) (Session.queue_of wb)
  = [(1, 7, 5); (2, 8, 5)]
  /\ option_map Queue.client_id (fst (Queue.get_next_job (Session.queue_of wb))) = Some 7.
Proof. vm_compute. split; reflexivity. Qed.

(** ** The handshake *)
Section Handshake.

Import Session.

Variable update_stats_job_submitted : Queue.server_stats_t -> Queue.server_stats_t.

Lemma refused_before_hello (now : Z) (w : world_t) (msg : message_t) :
  client_state w = CLIENT_STATE_CONNECTING ->
  needs_session (Proto.message_type (header msg)) ->
  exists text,
    process_client_request update_stats_job_submitted now w msg
    = send_client_error w Proto.ERROR_PERMISSION text (corr msg).
Proof.
  intros Hs Ht. unfold process_client_request.
  destruct Ht as [-> | [-> | [-> | ->]]];
    cbv [Proto.MSG_HELLO Proto.MSG_FILE_UPLOAD_START Proto.MSG_FILE_UPLOAD_CHUNK
         Proto.MSG_FILE_UPLOAD_END Proto.MSG_COMPILE_REQUEST Z.eqb Pos.eqb].
  - unfold handle_file_upload_start. rewrite Hs. cbn [client_state_eqb negb andb].
    now eexists.
  - unfold handle_file_upload_chunk. rewrite Hs. cbn [client_state_eqb negb].
    now eexists.
  - unfold handle_file_upload_end. rewrite Hs. cbn [client_state_eqb negb].
    now eexists.
  - unfold handle_compile_request. rewrite Hs. cbn [client_state_eqb negb].
    now eexists.
Qed.

Lemma unknown_kind_is_invalid (now : Z) (w : world_t) (msg : message_t) :
  unknown_kind (Proto.message_type (header msg)) ->
  process_client_request update_stats_job_submitted now w msg
  = send_client_error w Proto.ERROR_INVALID_ARGUMENT "Unknown message type" (corr msg).
Proof.
  unfold unknown_kind, Proto.MSG_HELLO, Proto.MSG_PING. intros Ht.
  unfold process_client_request.
  repeat match goal with
         | |- context [?t =? ?k] =>
             replace (t =? k) with false
               by (symmetry; apply Z.eqb_neq;
                   cbv [Proto.MSG_HELLO Proto.MSG_FILE_UPLOAD_START
                        Proto.MSG_FILE_UPLOAD_CHUNK Proto.MSG_FILE_UPLOAD_END
                        Proto.MSG_COMPILE_REQUEST Proto.MSG_STATUS_REQUEST
                        Proto.MSG_RESULT_REQUEST Proto.MSG_PING]; lia)
         end.
  reflexivity.
Qed.

(** C5, amended: while the session is still Connecting (no Hello yet), a
    FileUploadStart, FileUploadChunk, FileUploadEnd or CompileRequest is not
    served: the reply is Error with code Permission; a message of a kind
    outside the client requests gets Error with code InvalidArgument. In
    both cases the reply carries the correlation id of the request, the
    handler reports success, the session stays Connecting with its socket
    open, and the server state is untouched. *)
Theorem request_before_hello_is_refused (now : Z) (w : world_t) (msg : message_t) :
  client_state w = CLIENT_STATE_CONNECTING ->
  writable w ->
  needs_session (Proto.message_type (header msg))
  \/ unknown_kind (Proto.message_type (header msg)) ->
  let r := process_client_request update_stats_job_submitted now w msg in
  fst r = 0
  /\ client_state (snd r) = CLIENT_STATE_CONNECTING
  /\ is_open (sock (snd r)) = true
  /\ server (snd r) = server w
  /\ exists text context,
       last_sent (snd r)
       = Some (mk_frame Proto.MSG_ERROR (4 + 4 + 4096 + 256) (corr msg)
                 (ErrorPayload
                    (if Proto.message_type (header msg) <? Proto.MSG_HELLO
                     then Proto.ERROR_INVALID_ARGUMENT
                     else if Proto.MSG_PING <? Proto.message_type (header msg)
                          then Proto.ERROR_INVALID_ARGUMENT
                          else Proto.ERROR_PERMISSION)
                    0 text context)).
Proof.
  intros Hs Hw Hk r.
  assert (Hr : exists code text,
             r = send_client_error w code text (corr msg)
             /\ code = (if Proto.message_type (header msg) <? Proto.MSG_HELLO
                        then Proto.ERROR_INVALID_ARGUMENT
                        else if Proto.MSG_PING <? Proto.message_type (header msg)
                             then Proto.ERROR_INVALID_ARGUMENT
                             else Proto.ERROR_PERMISSION)).
  { destruct Hk as [Hk | Hk].
    - destruct (refused_before_hello now w msg Hs Hk) as [text E].
      exists Proto.ERROR_PERMISSION, text. split; [exact E|].
      destruct Hk as [-> | [-> | [-> | ->]]]; reflexivity.
    - exists Proto.ERROR_INVALID_ARGUMENT, "Unknown message type"%string.
      split; [now apply unknown_kind_is_invalid|].
      destruct Hk as [Hk | Hk].
      + replace (_ <? Proto.MSG_HELLO) with true by (symmetry; now apply Z.ltb_lt).
        reflexivity.
      + replace (Proto.MSG_PING <? _) with true by (symmetry; now apply Z.ltb_lt).
        now destruct (_ <? Proto.MSG_HELLO). }
  destruct Hr as (code & text & -> & <-).
  destruct (send_client_error_keeps w code text (corr msg)) as (Hsrv & Hst & _ & _ & Ho).
  destruct (send_client_error_writable w code text (corr msg) Hw) as (H0 & Hl).
  split; [exact H0|].
  split; [now rewrite Hst|].
  split; [rewrite Ho; apply Hw|].
  split; [exact Hsrv|].
  do 2 eexists. exact Hl.
Qed.

End Handshake.

(** C5, as stated, fails: a FileUploadEnd sent as the very first message is
    answered with Error Permission, not InvalidArgument, and the session
    stays Connecting; a Ping sent as the very first message is served with
    a Pong. *)
Lemma first_message_other_than_hello :
  let w := Scenario.world0 7 Session.CLIENT_STATE_CONNECTING [] in
  let r1 := Session.process_client_request Scenario.count_nothing 1000 w
              (Scenario.upload_end_msg 9) in
  let r2 := Session.process_client_request Scenario.count_nothing 1000 w
              (Scenario.ping_msg 9) in
  Session.last_sent (snd r1)
  = Some (Session.mk_frame Proto.MSG_ERROR 4360 9
            (Session.ErrorPayload Proto.ERROR_PERMISSION 0 "Not in upload mode" "Client 7"))
  /\ Session.client_state (snd r1) = Session.CLIENT_STATE_CONNECTING
  /\ Session.is_open (Session.sock (snd r1)) = true
  /\ Session.last_sent (snd r2)
     = Some (Session.mk_frame Proto.MSG_PONG 0 9 Session.NoPayload)
  /\ Session.client_state (snd r2) = Session.CLIENT_STATE_CONNECTING.
Proof. vm_compute. repeat split. Qed.

Lemma request_before_hello_is_refused_witness :
  let w := Scenario.world0 7 Session.CLIENT_STATE_CONNECTING [] in
  let msg := Scenario.compile_msg 9 10 in
  let r := Session.process_client_request Scenario.count_nothing 1000 w msg in
  fst r = 0
  /\ Session.client_state (snd r) = Session.CLIENT_STATE_CONNECTING
  /\ Session.is_open (Session.sock (snd r)) = true
  /\ Session.server (snd r) = Session.server w
  /\ exists text context,
       Session.last_sent (snd r)
       = Some (Session.mk_frame Proto.MSG_ERROR (4 + 4 + 4096 + 256) (Session.corr msg)
                 (Session.ErrorPayload
                    (if Proto.message_type (Session.header msg) <? Proto.MSG_HELLO
                     then Proto.ERROR_INVALID_ARGUMENT
                     else if Proto.MSG_PING <? Proto.message_type (Session.header msg)
                          then Proto.ERROR_INVALID_ARGUMENT
                          else Proto.ERROR_PERMISSION)
                    0 text context)).
Proof.
  intros w msg.
  apply (request_before_hello_is_refused Scenario.count_nothing 1000 w msg).
  - reflexivity.
  - split; reflexivity.
  - left. right. right. right. reflexivity.
Defined.

(** ** Framing (handle_client_message) *)
Section Framing.

Import Session.

Variable validate_message_header : Proto.message_header_t -> Z.
Variable update_stats_job_submitted : Queue.server_stats_t -> Queue.server_stats_t.

Lemma recv_available (s : socket_t) (n : Z) (b : Z) (l : list Z) :
  io_error s = false ->
  inbound s = b :: l ->
  recv s n
  = (Received (firstn (Z.to_nat n) (b :: l)),
     with_inbound s (skipn (Z.to_nat n) (b :: l))).
Proof.
  intros He Hi. unfold recv, with_inbound.
  destruct (io_error s); [discriminate|]. rewrite Hi. reflexivity.
Qed.

Lemma recv_nothing (s : socket_t) (n : Z) :
  inbound s = [] -> snd (recv s n) = s.
Proof.
  intros Hi. unfold recv. rewrite Hi.
  destruct (io_error s); [reflexivity|]. now destruct (peer_closed s).
Qed.

(** What [handle_client_message] does once a complete header has arrived. *)
Lemma handle_client_message_header (now : Z) (w : world_t) (raw rest : list Z) :
  io_error (sock w) = false ->
  inbound (sock w) = raw ++ rest ->
  Z.of_nat (List.length raw) = Proto.sizeof_message_header ->
  handle_client_message validate_message_header update_stats_job_submitted now w
  = let w1 := after_header w rest in
    let hdr := header_from_network raw in
    if negb (validate_message_header hdr =? 0) then (-1, w1)
    else if Proto.data_length hdr >? 0 then
      if Proto.data_length hdr >? Proto.MAX_MESSAGE_SIZE then (-1, w1)
      else
        match recv (sock w1) (Proto.data_length hdr) with
        | (RecvFailed _, _) => (-1, w1)
        | (Received payload, s2) =>
            let w2 := with_sock w1 s2 in
            if negb (Z.of_nat (List.length payload) =? Proto.data_length hdr)
            then (-1, w2)
            else
              let c := client w2 in
              let c := set_bytes_received c (bytes_received c + Proto.data_length hdr) in
              let c := set_last_activity c now in
              process_client_request update_stats_job_submitted now
                (with_client w2 c) (mk_message hdr payload)
        end
    else
      process_client_request update_stats_job_submitted now
        (with_client w1 (set_last_activity (client w1) now)) (mk_message hdr []).
Proof.
  intros He Hi Hlen.
  destruct raw as [|b raw']; [discriminate Hlen|].
  unfold handle_client_message.
  rewrite (recv_available (sock w) _ b (raw' ++ rest) He Hi).
  rewrite <- Hlen, Nat2Z.id.
  change (b :: raw' ++ rest) with ((b :: raw') ++ rest).
  rewrite firstn_app, Nat.sub_diag, firstn_all, firstn_O, app_nil_r.
  rewrite skipn_app, Nat.sub_diag, skipn_all, skipn_O, app_nil_l.
  cbv beta iota. rewrite Z.eqb_refl. cbn [negb]. cbv zeta.
  reflexivity.
Qed.

Lemma cleanup_closes (w : world_t) :
  socket_fd (client w) <> -1 ->
  let w' := fst (cleanup_inactive_client w) in
  is_open (sock w') = false
  /\ inbound (sock w') = inbound (sock w)
  /\ outbound (sock w') = outbound (sock w).
Proof.
  intros Hfd. unfold cleanup_inactive_client.
  replace (socket_fd (client w) =? -1) with false by (symmetry; now apply Z.eqb_neq).
  destruct (cancel_jobs_of _ _) as [q sig]. cbn [fst sock close is_open inbound outbound].
  repeat split.
Qed.

Lemma serve_readable_failure (now : Z) (w w1 : world_t) (code : Z) :
  handle_client_message validate_message_header update_stats_job_submitted now w
  = (code, w1) ->
  code <> 0 ->
  serve_readable validate_message_header update_stats_job_submitted now w
  = (false, fst (cleanup_inactive_client w1), snd (cleanup_inactive_client w1)).
Proof.
  intros E Hc. unfold serve_readable. rewrite E.
  replace (code =? 0) with false by (symmetry; now apply Z.eqb_neq).
  cbn [negb]. now destruct (cleanup_inactive_client w1).
Qed.

(** C10: a header that declares more than 16 MiB of payload ends the
    connection: nothing is sent, nothing after the header is read, the
    socket is closed. A header that declares exactly 16 MiB passes the size
    check: the payload is read from the socket and, once complete, the
    message is handed to the request handlers. *)
Theorem oversize_payload_is_a_framing_error (now : Z) (w : world_t)
    (raw rest : list Z) :
  io_error (sock w) = false ->
  socket_fd (client w) <> -1 ->
  inbound (sock w) = raw ++ rest ->
  Z.of_nat (List.length raw) = Proto.sizeof_message_header ->
  let hdr := header_from_network raw in
  (Proto.MAX_MESSAGE_SIZE < Proto.data_length hdr ->
     let r := serve_readable validate_message_header update_stats_job_submitted now w in
     fst (fst r) = false
     /\ outbound (sock (snd (fst r))) = outbound (sock w)
     /\ inbound (sock (snd (fst r))) = rest
     /\ is_open (sock (snd (fst r))) = false)
  /\ (Proto.data_length hdr = Proto.MAX_MESSAGE_SIZE ->
      validate_message_header hdr = 0 ->
      let r := handle_client_message validate_message_header
                 update_stats_job_submitted now w in
      inbound (sock (snd r)) = skipn (Z.to_nat Proto.MAX_MESSAGE_SIZE) rest
      /\ (Proto.MAX_MESSAGE_SIZE <= Z.of_nat (List.length rest) ->
          r = process_client_request update_stats_job_submitted now
                (mk_world
                   (set_last_activity
                      (set_bytes_received (client w)
                         (bytes_received (client w) + Proto.MAX_MESSAGE_SIZE))
                      now)
                   (with_inbound (sock w) (skipn (Z.to_nat Proto.MAX_MESSAGE_SIZE) rest))
                   (server w))
                (mk_message hdr (firstn (Z.to_nat Proto.MAX_MESSAGE_SIZE) rest)))).
Proof.
  intros He Hfd Hi Hlen hdr.
  pose proof (handle_client_message_header now w raw rest He Hi Hlen) as Hh.
  cbv zeta in Hh. fold hdr in Hh.
  assert (Hpos : 0 < Proto.MAX_MESSAGE_SIZE) by reflexivity.
  split.
  - intros Hbig r.
    assert (E : handle_client_message validate_message_header
                  update_stats_job_submitted now w = (-1, after_header w rest)).
    { rewrite Hh. destruct (negb _); [reflexivity|].
      replace (Proto.data_length hdr >? 0) with true
        by (symmetry; apply Z.gtb_lt; lia).
      replace (Proto.data_length hdr >? Proto.MAX_MESSAGE_SIZE) with true
        by (symmetry; apply Z.gtb_lt; lia).
      reflexivity. }
    subst r. rewrite (serve_readable_failure now w _ (-1) E) by lia.
    cbn [fst snd].
    destruct (cleanup_closes (after_header w rest) Hfd) as (Ho & Hin & Hout).
    split; [reflexivity|]. split; [exact Hout|]. split; [exact Hin|exact Ho].
  - intros Heq Hv r. subst r. rewrite Hh, Hv, Heq. clear Hh. cbn [Z.eqb negb].
    replace (Proto.MAX_MESSAGE_SIZE >? 0) with true by reflexivity.
    rewrite Z.gtb_ltb, Z.ltb_irrefl.
    destruct rest as [|b rest'].
    + split.
      * rewrite skipn_nil.
        pose proof (recv_nothing (sock (after_header w [])) Proto.MAX_MESSAGE_SIZE
                      eq_refl) as Hn.
        destruct (recv _ _) as [[wb|payload] s2]; [reflexivity|].
        cbn [snd] in Hn. subst s2.
        destruct (negb _); [reflexivity|].
        match goal with
        | |- context [process_client_request ?u ?n ?w0 ?m] =>
            destruct (process_client_request_keeps u n w0 m) as (Hk & _)
        end.
        rewrite Hk. reflexivity.
      * intros Hl. cbn [List.length] in Hl. lia.
    + rewrite (recv_available (sock (after_header w (b :: rest'))) _ b rest' He eq_refl).
      cbv beta iota.
      split.
      * destruct (negb _); [reflexivity|].
        match goal with
        | |- context [process_client_request ?u ?n ?w0 ?m] =>
            destruct (process_client_request_keeps u n w0 m) as (Hk & _)
        end.
        rewrite Hk. reflexivity.
      * intros Hl.
        rewrite length_firstn, Nat.min_l by lia.
        rewrite Z2Nat.id by lia. rewrite Z.eqb_refl. cbn [negb]. reflexivity.
Qed.

End Framing.

Lemma oversize_payload_is_a_framing_error_witness :
  let big := Scenario.world0 7 Session.CLIENT_STATE_IDLE
               (Scenario.header_bytes 8 16777217 3 ++ [1; 2; 3]) in
  let full := Scenario.world0 7 Session.CLIENT_STATE_IDLE
                (Scenario.header_bytes 8 16777216 3 ++ [1; 2; 3]) in
  let r := Session.serve_readable Scenario.check_magic Scenario.count_nothing 1000 big in
  (fst (fst r) = false
   /\ Session.outbound (Session.sock (snd (fst r))) = []
   /\ Session.inbound (Session.sock (snd (fst r))) = [1; 2; 3]
   /\ Session.is_open (Session.sock (snd (fst r))) = false)
  /\ Session.inbound
       (Session.sock
          (snd (Session.handle_client_message Scenario.check_magic
                  Scenario.count_nothing 1000 full)))
     = skipn (Z.to_nat Proto.MAX_MESSAGE_SIZE) [1; 2; 3].
Proof.
  intros big full. split.
  - apply (proj1 (oversize_payload_is_a_framing_error Scenario.check_magic
                    Scenario.count_nothing 1000 big
                    (Scenario.header_bytes 8 16777217 3) [1; 2; 3]
                    eq_refl ltac:(vm_compute; discriminate) eq_refl eq_refl)).
    vm_compute. reflexivity.
  - apply (proj2 (oversize_payload_is_a_framing_error Scenario.check_magic
                    Scenario.count_nothing 1000 full
                    (Scenario.header_bytes 8 16777216 3) [1; 2; 3]
                    eq_refl ltac:(vm_compute; discriminate) eq_refl eq_refl)).
    + vm_compute. reflexivity.
    + vm_compute. reflexivity.
Defined.

(** ** Lookup of a job the worker has taken *)
Section Lookup.

Import Session.

Variable interpret_source_code :
  Executor.os_env -> Executor.compilation_job_t -> option Executor.step_result.
Variable syntax_check_only :
  Executor.os_env -> Executor.compilation_job_t -> option Executor.step_result.

(** C1: the job the worker takes from the queue is unlinked from it. From
    then on -- while the job runs and after it has completed -- [find_job]
    does not find it, and a StatusRequest for it is answered NotFound. *)
Theorem dequeued_job_is_not_found (w : world_t) (msg : message_t)
    (job : Queue.job_info_t) (q' : Queue.job_queue_t) :
  NoDup (map Queue.job_id (queue_of w)) ->
  Queue.get_next_job (queue_of w) = (Some job, q') ->
  Proto.sizeof_uint32 <= len msg ->
  le_uint (bytes_at (data msg) 0 4) = Queue.job_id job ->
  Queue.find_job (Queue.job_id job) q' = None
  /\ handle_status_request (with_queue w q') msg
     = send_client_error (with_queue w q') Proto.ERROR_NOT_FOUND "Job not found" (corr msg)
  /\ forall env clk p,
       Queue.process_compilation_job interpret_source_code syntax_check_only
         env clk job q' = Some p ->
       Queue.p_queue p = q'
       /\ Queue.find_job (Queue.job_id job) (Queue.p_queue p) = None.
Proof.
  intros Hnd Hget Hlen Hid.
  assert (Hq : queue_of w = job :: q').
  { unfold Queue.get_next_job in Hget.
    destruct (queue_of w) as [|node next]; [discriminate|].
    now injection Hget as -> ->. }
  rewrite Hq in Hnd. cbn [map] in Hnd. apply NoDup_cons_iff in Hnd.
  destruct Hnd as [Hnotin _].
  pose proof (find_job_not_in _ _ Hnotin) as Hnone.
  split; [exact Hnone|]. split.
  - unfold handle_status_request.
    replace (len msg <? Proto.sizeof_uint32) with false
      by (symmetry; apply Z.ltb_ge; exact Hlen).
    rewrite Hid.
    replace (Queue.job_queue (ctx (server (with_queue w q')))) with q' by reflexivity.
    now rewrite Hnone.
  - intros env clk p Hp.
    pose proof (process_compilation_job_absent interpret_source_code syntax_check_only
                  env clk job q' p Hnone Hp) as E.
    split; [exact E | now rewrite E].
Qed.

End Lookup.

Lemma dequeued_job_is_not_found_witness :
  let job := Scenario.job_a_c 1 7 Queue.JOB_STATE_QUEUED Proto.EXEC_MODE_COMPILE_ONLY 5 in
  let w := Session.with_queue (Scenario.world0 7 Session.CLIENT_STATE_PROCESSING []) [job] in
  let msg := Scenario.status_msg 9 1 in
  Queue.find_job 1 [] = None
  /\ Session.handle_status_request (Session.with_queue w []) msg
     = Session.send_client_error (Session.with_queue w []) Proto.ERROR_NOT_FOUND
         "Job not found" 9
  /\ forall env clk p,
       Queue.process_compilation_job Scenario.no_step Scenario.no_step env clk job []
       = Some p ->
       Queue.p_queue p = [] /\ Queue.find_job 1 (Queue.p_queue p) = None.
Proof.
  intros job w msg.
  apply (dequeued_job_is_not_found Scenario.no_step Scenario.no_step w msg job []).
  - repeat constructor. intros [].
  - reflexivity.
  - vm_compute. discriminate.
  - reflexivity.
Defined.

(** Session 7 submits a job, the worker takes it, session 7 asks for its
    status: the answer is Error NotFound. *)
Example status_of_running_job_is_not_found :
  let w1 :=
    snd (Session.process_client_request Scenario.count_nothing 1000
           (Scenario.world0 7 Session.CLIENT_STATE_IDLE []) (Scenario.compile_msg 1 5)) in
  let taken := Queue.get_next_job (Session.queue_of w1) in
  option_map Queue.job_id (fst taken) = Some 1
  /\ Session.last_sent
       (snd (Session.process_client_request Scenario.count_nothing 1001
               (Session.with_queue w1 (snd taken)) (Scenario.status_msg 2 1)))
     = Some (Session.mk_frame Proto.MSG_ERROR 4360 2
               (Session.ErrorPayload Proto.ERROR_NOT_FOUND 0 "Job not found" "Client 7")).
Proof. vm_compute. split; reflexivity. Qed.

Lemma executor_time_limits_witness :
  let env := Scenario.env_with (Scenario.hung_child 4001 [299; 300])
               (Scenario.hung_child 4002 [60]) in
  let job := Queue.setup_compilation_job env Scenario.clock0
               (Scenario.job_a_c 1 7 Queue.JOB_STATE_QUEUED
                  Proto.EXEC_MODE_COMPILE_AND_RUN 5) in
  exists job',
    Executor.compile_source_code env job
    = Some (-1, job',
            [EvMkdir "./processing/job_1_1000";
             EvLaunch
               "cd './processing/job_1_1000' && /usr/bin/gcc -Wall -Wextra -std=c99  -o 'a_exe' 'a'"
               300;
             EvKill 4001 SIGKILL]).
Proof.
  intros env job.
  apply (proj1 (proj2 (proj2 (executor_time_limits env job)))).
  - repeat split; try reflexivity; vm_compute; discriminate.
  - exists [Executor.SelectIdle 299], 300, []. repeat split.
    + repeat constructor.
    + vm_compute. discriminate.
Defined.

(** ** A compile step that times out, seen from the worker *)
Section CompileTimeout.

Import Queue.

Variable interpret_source_code :
  Executor.os_env -> Executor.compilation_job_t -> option Executor.step_result.
Variable syntax_check_only :
  Executor.os_env -> Executor.compilation_job_t -> option Executor.step_result.


End CompileTimeout.

(** ** More on the job queue *)
Section QueueMore.

Import Queue.

Lemma find_job_app (id : Z) (q1 q2 : job_queue_t) :
  find_job id (q1 ++ q2)
  = match find_job id q1 with Some j => Some j | None => find_job id q2 end.
Proof.
  induction q1 as [|node next IH]; cbn [app find_job]; [reflexivity|].
  now destruct (job_id node =? id).
Qed.

(** X1: a submitted job can be looked up as soon as [add_job] has returned
    (provided its id is not already in the queue), under the id [add_job]
    returns, and the jobs that were in the queue are found as before. *)
Theorem submitted_job_is_found (job : job_info_t) (srv : server_context_t) :
  find_job (job_id job) (job_queue srv) = None ->
  find_job (fst (add_job job srv)) (job_queue (snd (add_job job srv))) = Some job
  /\ forall id j,
       find_job id (job_queue srv) = Some j ->
       find_job id (job_queue (snd (add_job job srv))) = Some j.
Proof.
  intros Hn. cbn [add_job fst snd job_queue]. split.
  - rewrite find_job_app, Hn. cbn [find_job]. now rewrite Z.eqb_refl.
  - intros id j Hf. now rewrite find_job_app, Hf.
Qed.

Lemma add_all_queue (js : list job_info_t) (srv : server_context_t) :
  job_queue (add_all js srv) = job_queue srv ++ js.
Proof.
  revert srv. induction js as [|j js IH]; intros srv; cbn [add_all].
  - now rewrite app_nil_r.
  - rewrite IH. cbn [add_job snd job_queue]. now rewrite <- app_assoc.
Qed.

Lemma take_jobs_all (q : job_queue_t) :
  take_jobs (List.length q) q = (q, []).
Proof.
  induction q as [|node next IH]; cbn [List.length take_jobs get_next_job];
    [reflexivity|].
  now rewrite IH.
Qed.

(** X2: the queue is first in, first out: after any number of
    submissions, as many calls of [get_next_job] as there are jobs hand out
    the jobs that were waiting followed by the submitted ones, each in the
    order of arrival, and leave the queue empty. *)
Theorem jobs_are_taken_in_order_of_arrival (js : list job_info_t)
    (srv : server_context_t) :
  take_jobs (List.length (job_queue srv) + List.length js)
    (job_queue (add_all js srv))
  = (job_queue srv ++ js, []).
Proof.
  rewrite add_all_queue, <- length_app. apply take_jobs_all.
Qed.

Lemma update_job_state_shape (now id : Z) (s : job_state_t) (q : job_queue_t) :
  shape (update_job_state now id s q) = shape q.
Proof.
  induction q as [|node next IH]; cbn [update_job_state]; [reflexivity|].
  destruct (job_id node =? id).
  - destruct s; reflexivity.
  - cbn [shape map]. f_equal. exact IH.
Qed.

Lemma cancel_job_shape (now id : Z) (q : job_queue_t) :
  shape (fst (cancel_job now id q)) = shape q.
Proof.
  induction q as [|node next IH]; cbn [cancel_job]; [reflexivity|].
  destruct (job_id node =? id); [reflexivity|].
  destruct (cancel_job now id next) as [next' sig]. cbn [fst] in *.
  cbn [shape map]. f_equal. exact IH.
Qed.

Lemma complete_job_shape (now id code : Z) (o e : option string) (q : job_queue_t) :
  shape (complete_job now id code o e q) = shape q.
Proof.
  induction q as [|node next IH]; cbn [complete_job]; [reflexivity|].
  destruct (job_id node =? id); [reflexivity|].
  cbn [shape map]. f_equal. exact IH.
Qed.

Lemma cancel_client_jobs_shape (now client : Z) (q : job_queue_t) :
  shape (fst (fst (cancel_client_jobs now client q))) = shape q.
Proof.
  induction q as [|node next IH]; cbn [cancel_client_jobs]; [reflexivity|].
  destruct (cancel_client_jobs now client next) as [[next' sig] n]. cbn [fst] in *.
  destruct (_ && _); cbn [fst shape map]; f_equal; exact IH.
Qed.

Lemma set_priority_in_shape (id p : Z) (q q' : job_queue_t) :
  set_priority_in id p q = Some q' -> shape q' = shape q.
Proof.
  revert q'. induction q as [|node next IH]; intros q'; cbn [set_priority_in];
    [discriminate|].
  destruct (job_id node =? id); [intros [= <-]; reflexivity|].
  destruct (set_priority_in id p next) as [next'|]; cbn [obind]; [|discriminate].
  intros [= <-]. cbn [shape map]. f_equal. now apply IH.
Qed.

(** X3: the functions that update a job in place -- [update_job_state],
    [cancel_job], [complete_job], [cancel_client_jobs] and
    [set_job_priority] -- never add, drop or reorder jobs: the sequence of
    (job id, client id) pairs of the queue is unchanged. *)
Theorem updates_keep_the_queue_shape (now id code client p : Z)
    (s : job_state_t) (o e : option string) (q : job_queue_t) :
  shape (update_job_state now id s q) = shape q
  /\ shape (fst (cancel_job now id q)) = shape q
  /\ shape (complete_job now id code o e q) = shape q
  /\ shape (fst (fst (cancel_client_jobs now client q))) = shape q
  /\ shape (snd (set_job_priority id p q)) = shape q.
Proof.
  split; [apply update_job_state_shape|].
  split; [apply cancel_job_shape|].
  split; [apply complete_job_shape|].
  split; [apply cancel_client_jobs_shape|].
  unfold set_job_priority. destruct (_ || _); [reflexivity|].
  destruct (set_priority_in id p q) as [q'|] eqn:E; [|reflexivity].
  cbn [snd]. now apply set_priority_in_shape in E.
Qed.

(** X4: [cancel_job] signals at most one process: the first job carrying
    the id gets SIGTERM if it is Running with a recorded pid; no other job
    is signalled, and an unknown id changes nothing at all. *)
Theorem cancel_job_signals_only_the_running_target (now id : Z) (q : job_queue_t) :
  snd (cancel_job now id q)
  = match find_job id q with
    | Some j =>
        if (process_id j >? 0) && job_state_eqb (state j) JOB_STATE_RUNNING
        then [EvKill (process_id j) SIGTERM] else []
    | None => []
    end
  /\ (find_job id q = None -> cancel_job now id q = (q, [])).
Proof.
  induction q as [|node next IH]; cbn [cancel_job find_job]; [now split|].
  destruct (job_id node =? id); [split; [reflexivity | discriminate]|].
  destruct (cancel_job now id next) as [next' sig]. cbn [fst snd] in *.
  destruct IH as [IH1 IH2]. split; [exact IH1|].
  intros Hn. specialize (IH2 Hn). now injection IH2 as -> ->.
Qed.

End QueueMore.

Lemma submitted_job_is_found_witness :
  let job := Scenario.job_a_c 2 7 Queue.JOB_STATE_QUEUED 0 5 in
  let srv := Queue.mk_server [Scenario.job_a_c 1 7 Queue.JOB_STATE_QUEUED 0 5]
               Scenario.stats0 in
  Queue.find_job 2 (Queue.job_queue (snd (Queue.add_job job srv))) = Some job
  /\ Queue.find_job 1 (Queue.job_queue (snd (Queue.add_job job srv)))
     = Some (Scenario.job_a_c 1 7 Queue.JOB_STATE_QUEUED 0 5).
Proof.
  intros job srv.
  destruct (submitted_job_is_found job srv) as [H1 H2]; [reflexivity|].
  split; [exact H1 | apply H2; reflexivity].
Defined.

Lemma cancel_job_signals_only_the_running_target_witness :
  let q := [Queue.mk_job 1 7 0 Queue.JOB_STATE_RUNNING 1 0 900 950 0 4001 0
              "a.c" "" "" "" "" 0 0 5] in
  snd (Queue.cancel_job 960 1 q) = [EvKill 4001 SIGTERM]
  /\ Queue.cancel_job 960 2 q = (q, []).
Proof.
  intros q. split.
  - exact (proj1 (cancel_job_signals_only_the_running_target 960 1 q)).
  - apply (proj2 (cancel_job_signals_only_the_running_target 960 2 q)). reflexivity.
Defined.

(** ** The sweep, the statistics and the per-client operations *)
Section QueueSweep.

Import Queue.

Lemma job_state_eqb_eq (a b : job_state_t) : job_state_eqb a b = true <-> a = b.
Proof. destruct a, b; cbn; split; (reflexivity || discriminate). Qed.

Lemma sweep_test (now : Z) (j : job_info_t) :
  (job_state_eqb (state j) JOB_STATE_COMPLETED
   || job_state_eqb (state j) JOB_STATE_FAILED
   || job_state_eqb (state j) JOB_STATE_CANCELLED)
  && (now - end_time j >? MAX_COMPLETED_JOB_AGE) = true
  <-> expired now j.
Proof.
  unfold expired.
  rewrite andb_true_iff, !orb_true_iff, !job_state_eqb_eq, Z.gtb_lt.
  tauto.
Qed.

(** X5: the retirement sweep removes exactly the Completed, Failed and
    Cancelled jobs that ended more than 3600 seconds ago. Every other job
    stays: a job ended exactly 3600 seconds ago, a Queued or Running job,
    and also a job in state Timeout, however old. *)
Theorem sweep_removes_exactly_the_expired (now : Z) (q : job_queue_t)
    (j : job_info_t) :
  (In j (cleanup_completed_jobs now q) <-> In j q /\ ~ expired now j)
  /\ (state j = JOB_STATE_TIMEOUT -> ~ expired now j)
  /\ (now - end_time j = 3600 -> ~ expired now j).
Proof.
  split; [|split].
  - induction q as [|node next IH]; cbn [cleanup_completed_jobs In]; [tauto|].
    destruct (_ && _) eqn:E.
    + apply sweep_test in E. rewrite IH. split; [tauto|].
      intros [[-> | Hin] Hne]; [contradiction | tauto].
    + assert (Hn : ~ expired now node).
      { intros H. apply sweep_test in H. congruence. }
      cbn [In]. rewrite IH. split.
      * intros [-> | H]; tauto.
      * tauto.
  - intros Hs [[H | [H | H]] _]; congruence.
  - intros He [_ H]. unfold MAX_COMPLETED_JOB_AGE in H. lia.
Qed.

Lemma sweep_keeps_order (now : Z) (q : job_queue_t) :
  cleanup_completed_jobs now q
  = filter (fun j =>
              negb ((job_state_eqb (state j) JOB_STATE_COMPLETED
                     || job_state_eqb (state j) JOB_STATE_FAILED
                     || job_state_eqb (state j) JOB_STATE_CANCELLED)
                    && (now - end_time j >? MAX_COMPLETED_JOB_AGE))) q.
Proof.
  induction q as [|node next IH]; cbn [cleanup_completed_jobs filter]; [reflexivity|].
  destruct (_ && _); cbn [negb]; now rewrite IH.
Qed.

(** X6: a second sweep at the same time removes nothing more, and a sweep
    never makes the queue longer. *)
Theorem sweep_is_idempotent (now : Z) (q : job_queue_t) :
  cleanup_completed_jobs now (cleanup_completed_jobs now q)
  = cleanup_completed_jobs now q
  /\ (List.length (cleanup_completed_jobs now q) <= List.length q)%nat.
Proof.
  split.
  - induction q as [|node next IH]; cbn [cleanup_completed_jobs]; [reflexivity|].
    destruct (_ && _) eqn:E; [exact IH|].
    cbn [cleanup_completed_jobs]. rewrite E. now rewrite IH.
  - induction q as [|node next IH]; cbn [cleanup_completed_jobs List.length]; [lia|].
    destruct (_ && _); cbn [List.length]; lia.
Qed.

Lemma count_states_sum (q : job_queue_t) (s : queue_stats_t) :
  let r := count_states q s in
  qs_total r = qs_total s
  /\ qs_queued r + qs_running r + qs_completed r + qs_failed r + qs_cancelled r
     + timeouts q
     = qs_queued s + qs_running s + qs_completed s + qs_failed s + qs_cancelled s
       + Z.of_nat (List.length q).
Proof.
  revert s. induction q as [|node next IH]; intros s; cbn [count_states].
  - unfold timeouts. cbn. split; lia.
  - cbv zeta in IH. unfold timeouts in *. cbn [filter List.length].
    destruct (state node);
      match goal with
      | |- context [count_states next ?s1] => destruct (IH s1) as [H1 H2]
      end;
      cbn [job_state_eqb List.length qs_total qs_queued qs_running qs_completed
           qs_failed qs_cancelled] in *;
      split; lia.
Qed.

(** X7: in the statistics of [get_queue_stats] the total is the length of
    the queue, and the five per-state counters add up to the total minus
    the jobs in state Timeout, which no counter counts. *)
Theorem queue_stats_leave_out_timeouts (q : job_queue_t) :
  let s := get_queue_stats q in
  qs_total s = Z.of_nat (List.length q)
  /\ qs_queued s + qs_running s + qs_completed s + qs_failed s + qs_cancelled s
     = qs_total s - timeouts q.
Proof.
  unfold get_queue_stats.
  destruct (count_states_sum q (mk_queue_stats (Z.of_nat (List.length q)) 0 0 0 0 0))
    as [H1 H2].
  cbn [qs_total qs_queued qs_running qs_completed qs_failed qs_cancelled] in *.
  cbv zeta. split; lia.
Qed.

Lemma fill_client_jobs_enough (client : Z) (q : job_queue_t) (room : nat) :
  (count_client_jobs client q <= room)%nat ->
  fill_client_jobs client room q = filter (fun j => client_id j =? client) q.
Proof.
  revert room. induction q as [|node next IH]; intros room Hr.
  - now destruct room.
  - cbn [count_client_jobs] in Hr. cbn [filter].
    destruct room as [|room'].
    + destruct (client_id node =? client); [lia|].
      cbn [fill_client_jobs]. rewrite <- (IH O) by lia. now destruct next.
    + cbn [fill_client_jobs].
      destruct (client_id node =? client).
      * f_equal. apply IH. lia.
      * apply IH. exact Hr.
Qed.

(** X8: [get_client_jobs] hands out exactly the jobs of the client, in
    queue order: the array sized by the first loop is never too short for
    the second. *)
Theorem client_jobs_are_all_listed (client : Z) (q : job_queue_t) :
  get_client_jobs client q = filter (fun j => client_id j =? client) q
  /\ List.length (get_client_jobs client q) = count_client_jobs client q.
Proof.
  assert (E : get_client_jobs client q = filter (fun j => client_id j =? client) q).
  { unfold get_client_jobs.
    destruct (count_client_jobs client q) as [|n] eqn:Ec.
    - rewrite <- (fill_client_jobs_enough client q O) by lia. now destruct q.
    - apply fill_client_jobs_enough. lia. }
  split; [exact E|]. rewrite E. clear E.
  induction q as [|node next IH]; cbn [filter count_client_jobs]; [reflexivity|].
  destruct (client_id node =? client); cbn [List.length]; now rewrite IH.
Qed.

Lemma cancel_client_jobs_result (now client : Z) (q : job_queue_t) :
  let r := cancel_client_jobs now client q in
  Forall (fun j => client_id j = client -> is_active j = false) (fst (fst r))
  /\ snd r = Z.of_nat (List.length
                         (filter (fun j => (client_id j =? client) && is_active j) q)).
Proof.
  induction q as [|node next IH]; cbn [cancel_client_jobs].
  - cbn. split; [constructor | reflexivity].
  - cbv zeta in IH.
    destruct (cancel_client_jobs now client next) as [[next' sig] n].
    cbn [fst snd] in IH. destruct IH as [IH1 IH2].
    cbn [filter]. unfold is_active at 2.
    destruct ((client_id node =? client) && _) eqn:E; cbn [fst snd List.length].
    + split; [|lia]. constructor; [|exact IH1]. intros _. reflexivity.
    + split; [|exact IH2]. constructor; [|exact IH1].
      intros Hc. apply Z.eqb_eq in Hc. rewrite Hc in E. exact E.
Qed.

Lemma cancel_client_jobs_nothing (now client : Z) (q : job_queue_t) :
  Forall (fun j => client_id j = client -> is_active j = false) q ->
  cancel_client_jobs now client q = (q, [], 0).
Proof.
  induction 1 as [|node next Hn Hq IH]; cbn [cancel_client_jobs]; [reflexivity|].
  rewrite IH.
  destruct (client_id node =? client) eqn:E; [|reflexivity].
  apply Z.eqb_eq in E. specialize (Hn E). unfold is_active in Hn. now rewrite Hn.
Qed.

(** X9: after [cancel_client_jobs] no job of the client is Queued or
    Running; the number returned is the number of jobs of the client that
    were; and calling it again cancels nothing, sends no signal and leaves
    the queue as it is. *)
Theorem cancel_client_jobs_cancels_all_active (now later client : Z)
    (q : job_queue_t) :
  let r := cancel_client_jobs now client q in
  Forall (fun j => client_id j = client -> is_active j = false) (fst (fst r))
  /\ snd r = Z.of_nat (List.length
                         (filter (fun j => (client_id j =? client) && is_active j) q))
  /\ cancel_client_jobs later client (fst (fst r)) = (fst (fst r), [], 0).
Proof.
  destruct (cancel_client_jobs_result now client q) as [H1 H2].
  cbv zeta. split; [exact H1|]. split; [exact H2|].
  now apply cancel_client_jobs_nothing.
Qed.

Lemma set_priority_in_found (id p : Z) (q : job_queue_t) :
  match find_job id q with
  | Some j =>
      exists q', set_priority_in id p q = Some q'
                 /\ find_job id q' = Some (set_priority j p)
  | None => set_priority_in id p q = None
  end.
Proof.
  induction q as [|node next IH]; cbn [find_job set_priority_in]; [reflexivity|].
  destruct (job_id node =? id) eqn:E.
  - eexists. split; [reflexivity|]. cbn [find_job].
    unfold set_priority. cbn [job_id]. now rewrite E.
  - destruct (find_job id next) as [j|].
    + destruct IH as (q' & -> & Hf). cbn [obind]. eexists. split; [reflexivity|].
      cbn [find_job]. now rewrite E.
    + now rewrite IH.
Qed.

(** X10: [set_job_priority] succeeds exactly when the priority lies in
    1..10 and the job is in the queue; it then records the priority in that
    job. Otherwise it returns -1 and the queue is untouched. *)
Theorem set_job_priority_checks_range_and_presence (id p : Z) (q : job_queue_t) :
  let r := set_job_priority id p q in
  (fst r = 0 <-> (1 <= p <= 10 /\ find_job id q <> None))
  /\ (fst r <> 0 -> r = (-1, q))
  /\ (fst r = 0 ->
      exists j, find_job id q = Some j
                /\ find_job id (snd r) = Some (set_priority j p)).
Proof.
  unfold set_job_priority, JOB_PRIORITY_LOW, JOB_PRIORITY_HIGH. cbv zeta.
  destruct ((p <? 1) || (p >? 10)) eqn:Er.
  - apply orb_true_iff in Er. rewrite Z.ltb_lt, Z.gtb_lt in Er. cbn [fst snd].
    split; [split; [discriminate | lia]|]. split; [reflexivity | discriminate].
  - apply orb_false_iff in Er. rewrite Z.ltb_ge, Z.gtb_ltb, Z.ltb_ge in Er.
    pose proof (set_priority_in_found id p q) as Hs.
    destruct (find_job id q) as [j|].
    + destruct Hs as (q' & -> & Hf). cbn [fst snd].
      split; [split; [intros _; split; [lia | discriminate] | reflexivity]|].
      split; [congruence|]. intros _. now exists j.
    + rewrite Hs. cbn [fst snd].
      split; [split; [discriminate | intros [_ H]; congruence]|].
      split; [reflexivity | discriminate].
Qed.

End QueueSweep.

Lemma sweep_removes_exactly_the_expired_witness :
  let old := Queue.set_end_time (Scenario.job_a_c 1 7 Queue.JOB_STATE_TIMEOUT 0 5) 100 in
  In old (Queue.cleanup_completed_jobs 10000 [old]) /\ ~ Queue.expired 10000 old.
Proof.
  intros old.
  destruct (sweep_removes_exactly_the_expired 10000 [old] old) as (H1 & H2 & _).
  assert (Hn : ~ Queue.expired 10000 old) by (apply H2; reflexivity).
  split; [apply H1; split; [now left | exact Hn] | exact Hn].
Defined.

Lemma set_job_priority_checks_range_and_presence_witness :
  let q := [Scenario.job_a_c 1 7 Queue.JOB_STATE_QUEUED 0 5] in
  fst (Queue.set_job_priority 1 10 q) = 0
  /\ Queue.set_job_priority 1 11 q = (-1, q)
  /\ Queue.set_job_priority 2 10 q = (-1, q).
Proof.
  intros q.
  destruct (set_job_priority_checks_range_and_presence 1 10 q) as (A & _ & _).
  destruct (set_job_priority_checks_range_and_presence 1 11 q) as (_ & B & _).
  destruct (set_job_priority_checks_range_and_presence 2 10 q) as (_ & C & _).
  split; [apply A; split; [lia | discriminate]|].
  split; [apply B | apply C]; vm_compute; discriminate.
Defined.

(** ** Reordering by priority *)
Section Reorder.

Import Queue.

Lemma higher_than_cons (p : Z) (j : job_info_t) (l : job_queue_t) :
  higher_than p (j :: l)
  = ((if (p <? priority j)%Z then 1 else 0) + higher_than p l)%nat.
Proof. unfold higher_than. cbn [filter]. now destruct (p <? priority j). Qed.

Lemma higher_than_perm (p : Z) (l l' : job_queue_t) :
  Permutation l l' -> higher_than p l = higher_than p l'.
Proof.
  induction 1 as [|x l l' _ IH|x y l|l l' l'' _ IH1 _ IH2].
  - reflexivity.
  - rewrite !higher_than_cons. lia.
  - rewrite !higher_than_cons. lia.
  - congruence.
Qed.

Lemma bubble_pass_perm (current : job_info_t) (rest : job_queue_t) :
  Permutation (current :: rest) (snd (bubble_pass current rest)).
Proof.
  revert current. induction rest as [|next rest' IH]; intros current;
    cbn [bubble_pass]; [apply Permutation_refl|].
  destruct (_ && _).
  - specialize (IH current). destruct (bubble_pass current rest') as [sw l].
    cbn [snd] in *. rewrite perm_swap. now apply perm_skip.
  - specialize (IH next). destruct (bubble_pass next rest') as [sw l].
    cbn [snd] in *. now apply perm_skip.
Qed.

Lemma swap_test (a b : job_info_t) :
  job_state_eqb (state a) JOB_STATE_QUEUED
  && job_state_eqb (state b) JOB_STATE_QUEUED
  && (priority a <? priority b) = true
  <-> is_queued a = true /\ is_queued b = true /\ priority a < priority b.
Proof. unfold is_queued. rewrite !andb_true_iff, Z.ltb_lt. tauto. Qed.

Lemma bubble_pass_ascents (current : job_info_t) (rest : job_queue_t) :
  (ascents (snd (bubble_pass current rest))
   + (if fst (bubble_pass current rest) then 1 else 0)
   <= ascents (current :: rest))%nat.
Proof.
  revert current. induction rest as [|next rest' IH]; intros current;
    cbn [bubble_pass]; [cbn; lia|].
  destruct (_ && _) eqn:E.
  - apply swap_test in E. destruct E as (_ & _ & Hlt).
    specialize (IH current). pose proof (bubble_pass_perm current rest') as Hp.
    destruct (bubble_pass current rest') as [sw l]. cbn [fst snd] in *.
    cbn [ascents] in *.
    rewrite <- (higher_than_perm _ _ _ Hp), !higher_than_cons.
    replace (priority next <? priority current) with false
      by (symmetry; apply Z.ltb_ge; lia).
    replace (priority current <? priority next) with true
      by (symmetry; apply Z.ltb_lt; lia).
    destruct sw; lia.
  - specialize (IH next). pose proof (bubble_pass_perm next rest') as Hp.
    destruct (bubble_pass next rest') as [sw l]. cbn [fst snd] in *.
    cbn [ascents] in *.
    rewrite <- (higher_than_perm _ _ _ Hp).
    destruct sw; lia.
Qed.

Lemma bubble_pass_unswapped (current : job_info_t) (rest : job_queue_t) :
  fst (bubble_pass current rest) = false ->
  snd (bubble_pass current rest) = current :: rest /\ settled (current :: rest).
Proof.
  revert current. induction rest as [|next rest' IH]; intros current;
    cbn [bubble_pass]; [now split|].
  destruct (_ && _) eqn:E.
  - destruct (bubble_pass current rest'). discriminate.
  - specialize (IH next). destruct (bubble_pass next rest') as [sw l].
    cbn [fst snd] in *. intros Hs. destruct (IH Hs) as [-> Hset].
    split; [reflexivity|]. cbn [settled]. split; [|exact Hset].
    intros H. apply swap_test in H. congruence.
Qed.

Lemma bubble_pass_fixed (current : job_info_t) (rest : job_queue_t) (i : nat)
    (j : job_info_t) :
  nth_error (current :: rest) i = Some j ->
  is_queued j = false ->
  nth_error (snd (bubble_pass current rest)) i = Some j.
Proof.
  revert current i. induction rest as [|next rest' IH]; intros current i Hn Hq;
    cbn [bubble_pass]; [exact Hn|].
  destruct (_ && _) eqn:E.
  - apply swap_test in E. destruct E as (Hc & Hx & _).
    specialize (IH current). destruct (bubble_pass current rest') as [sw l].
    cbn [snd] in *.
    destruct i as [|[|i]]; cbn [nth_error] in Hn.
    + injection Hn as <-. congruence.
    + injection Hn as <-. congruence.
    + cbn [nth_error]. apply (IH (S i)); [exact Hn | exact Hq].
  - specialize (IH next). destruct (bubble_pass next rest') as [sw l].
    cbn [snd] in *.
    destruct i as [|i]; cbn [nth_error] in *; [exact Hn|].
    now apply IH.
Qed.

Lemma reorder_passes_enough (passes : nat) (q : job_queue_t) :
  (ascents q < passes)%nat ->
  exists q',
    reorder_passes passes q = Some q'
    /\ Permutation q q'
    /\ settled q'
    /\ forall i j, nth_error q i = Some j -> is_queued j = false ->
                   nth_error q' i = Some j.
Proof.
  revert q. induction passes as [|passes IH]; intros q Hlt; [lia|].
  cbn [reorder_passes]. destruct q as [|current rest].
  - exists []. split; [reflexivity|]. split; [constructor|]. split; [exact I|]. auto.
  - pose proof (bubble_pass_perm current rest) as Hp.
    pose proof (bubble_pass_ascents current rest) as Ha.
    pose proof (bubble_pass_unswapped current rest) as Hu.
    pose proof (bubble_pass_fixed current rest) as Hf.
    destruct (bubble_pass current rest) as [swapped q1]. cbn [fst snd] in *.
    destruct swapped.
    + destruct (IH q1) as (q' & Hr & Hp' & Hs & Hf'); [lia|].
      exists q'. split; [exact Hr|]. split; [now rewrite Hp|]. split; [exact Hs|].
      intros i j Hn Hq. apply Hf'; [now apply Hf | exact Hq].
    + destruct (Hu eq_refl) as [-> Hs].
      exists (current :: rest). repeat split; auto.
Qed.

(** X11: the bubble sweeps of [reorder_queue_by_priority] come to an end:
    with more sweeps allowed than there are pairs of jobs in ascending
    priority order, the function returns. The result holds the same jobs,
    no Queued job in it is directly followed by a Queued job of higher
    priority, and every job that is not Queued is where it was. *)
Theorem reorder_terminates_and_settles (passes : nat) (q : job_queue_t) :
  (ascents q < passes)%nat ->
  exists q',
    reorder_queue_by_priority passes q = Some q'
    /\ Permutation q q'
    /\ settled q'
    /\ forall i j, nth_error q i = Some j -> is_queued j = false ->
                   nth_error q' i = Some j.
Proof.
  intros Hlt. unfold reorder_queue_by_priority.
  destruct (Z.of_nat (List.length q) <=? 1) eqn:E; [|now apply reorder_passes_enough].
  exists q. split; [reflexivity|]. split; [apply Permutation_refl|].
  split; [|auto].
  apply Z.leb_le in E. destruct q as [|a [|b l]]; cbn [settled List.length] in *; auto.
  lia.
Qed.

End Reorder.

Lemma reorder_terminates_and_settles_witness :
  let q := [Scenario.job_a_c 1 7 Queue.JOB_STATE_QUEUED 0 1;
            Scenario.job_a_c 2 7 Queue.JOB_STATE_RUNNING 0 5;
            Scenario.job_a_c 3 7 Queue.JOB_STATE_QUEUED 0 10] in
  exists q',
    Queue.reorder_queue_by_priority 5 q = Some q'
    /\ Permutation q q'
    /\ Queue.settled q'
    /\ forall i j, nth_error q i = Some j -> Queue.is_queued j = false ->
                   nth_error q' i = Some j.
Proof.
  intros q. apply (reorder_terminates_and_settles 5 q). vm_compute. lia.
Defined.

(** ** More on the worker *)
Section WorkerMore.

Import Queue.

Variable interpret_source_code :
  Executor.os_env -> Executor.compilation_job_t -> option Executor.step_result.
Variable syntax_check_only :
  Executor.os_env -> Executor.compilation_job_t -> option Executor.step_result.


Lemma compile_source_code_keeps (env : Executor.os_env)
    (job job' : Executor.compilation_job_t) (res : Z) (evs : list os_event) :
  Executor.compile_source_code env job = Some (res, job', evs) ->
  Executor.sandbox_dir job' = Executor.sandbox_dir job
  /\ Executor.compile_pid job' = Executor.compile_pid job
  /\ Executor.exec_pid job' = Executor.exec_pid job
  /\ Executor.exec_exit_code job' = Executor.exec_exit_code job
  /\ (res = 0 /\ Executor.status job' = Executor.COMPILE_STATUS_COMPILED
      /\ Executor.compile_exit_code job' = 0
      \/ res = -1 /\ Executor.status job' = Executor.COMPILE_STATUS_FAILED).
Proof.
  unfold Executor.compile_source_code.
  destruct (Executor.get_compiler_by_type _ _);
    [|intros [= <- <- <-]; repeat split; right; now split].
  destruct (negb (Executor.create_job_sandbox _ _ =? 0));
    [intros [= <- <- <-]; repeat split; right; now split|].
  destruct (negb (Executor.validate_source_content _ _ _ =? 0));
    [intros [= <- <- <-]; repeat split; right; now split|].
  destruct (Executor.build_compile_command _ _) as [cmd|];
    [|intros [= <- <- <-]; repeat split; right; now split].
  destruct (Executor.execute_command_with_timeout _ _ _ _ _) as [r|]; cbn [obind];
    [|discriminate].
  destruct (Executor.code r =? 0) eqn:E; intros [= <- <- <-]; repeat split.
  - left. apply Z.eqb_eq in E. repeat split. exact E.
  - right. now split.
Qed.

Lemma execute_compiled_program_keeps (env : Executor.os_env)
    (job job' : Executor.compilation_job_t) (res : Z) (evs : list os_event) :
  Executor.execute_compiled_program env job = Some (res, job', evs) ->
  Executor.sandbox_dir job' = Executor.sandbox_dir job
  /\ Executor.compile_pid job' = Executor.compile_pid job
  /\ Executor.exec_pid job' = Executor.exec_pid job
  /\ Executor.compile_exit_code job' = Executor.compile_exit_code job.
Proof.
  unfold Executor.execute_compiled_program.
  destruct (negb _); [intros [= <- <- <-]; repeat split|].
  destruct (Executor.build_execute_command _ _) as [cmd|];
    [|intros [= <- <- <-]; repeat split].
  destruct (Executor.execute_command_with_timeout _ _ _ _ _) as [r|]; cbn [obind];
    [|discriminate].
  destruct (Executor.code r =? 0); intros [= <- <- <-]; repeat split.
Qed.

Lemma launches_app (a b : list os_event) :
  Executor.launches (a ++ b) = Executor.launches a ++ Executor.launches b.
Proof.
  induction a as [|e a IH]; [reflexivity|].
  destruct e; cbn [app Executor.launches]; now rewrite IH.
Qed.

Lemma command_success_launched (cmd : string) (child : Executor.child_t)
    (osz esz timeout : Z) (r : Executor.command_result) :
  Executor.execute_command_with_timeout cmd child osz esz timeout = Some r ->
  Executor.code r = 0 ->
  Executor.launches (Executor.sent r) = [(cmd, timeout)].
Proof.
  unfold Executor.execute_command_with_timeout.
  destruct (Executor.pipes_ok child); cbn [negb];
    [|intros [= <-]; cbn [Executor.code]; discriminate].
  destruct (Executor.fork_pid child =? -1);
    [intros [= <-]; cbn [Executor.code]; discriminate|].
  destruct (Executor.drain_pipes _ _ _ _ _ _ _) as [[[timed_out op] ep]|];
    cbn [obind]; [|discriminate].
  destruct timed_out; [intros [= <-]; reflexivity|].
  destruct (Executor.wait_result child) as [[c|sg|]|]; intros [= <-]; reflexivity.
Qed.

Lemma compile_success_launched (env : Executor.os_env)
    (job job' : Executor.compilation_job_t) (evs : list os_event) :
  Executor.compile_source_code env job = Some (0, job', evs) ->
  exists c, Executor.launches evs = [(c, Executor.MAX_COMPILATION_TIME)].
Proof.
  unfold Executor.compile_source_code.
  destruct (Executor.get_compiler_by_type _ _); [|discriminate].
  destruct (negb (Executor.create_job_sandbox _ _ =? 0)); [discriminate|].
  destruct (negb (Executor.validate_source_content _ _ _ =? 0)); [discriminate|].
  destruct (Executor.build_compile_command _ _) as [cmd|]; [|discriminate].
  destruct (Executor.execute_command_with_timeout _ _ _ _ _) as [r|] eqn:Ex;
    cbn [obind]; [|discriminate].
  destruct (Executor.code r =? 0) eqn:Ec; [|discriminate].
  apply Z.eqb_eq in Ec. intros [= <- <-]. cbn [Executor.launches].
  exists cmd. exact (command_success_launched _ _ _ _ _ r Ex Ec).
Qed.

Lemma run_by_mode_compile_only (env : Executor.os_env)
    (job : Executor.compilation_job_t) :
  Executor.exec_mode job = Proto.EXEC_MODE_COMPILE_ONLY ->
  run_by_mode interpret_source_code syntax_check_only env job
  = Executor.compile_source_code env job.
Proof. intros H. unfold run_by_mode. rewrite H. reflexivity. Qed.

Lemma run_by_mode_compile_and_run (env : Executor.os_env)
    (job : Executor.compilation_job_t) :
  Executor.exec_mode job = Proto.EXEC_MODE_COMPILE_AND_RUN ->
  run_by_mode interpret_source_code syntax_check_only env job
  = match Executor.compile_source_code env job with
    | Some (result, comp_job, evs) =>
        if result =? 0 then
          match Executor.execute_compiled_program env comp_job with
          | Some (result', comp_job', evs') => Some (result', comp_job', evs ++ evs')
          | None => None
          end
        else Some (result, comp_job, evs)
    | None => None
    end.
Proof.
  intros H. unfold run_by_mode. rewrite H.
  change (Proto.EXEC_MODE_COMPILE_AND_RUN =? Proto.EXEC_MODE_COMPILE_ONLY) with false.
  change (Proto.EXEC_MODE_COMPILE_AND_RUN =? Proto.EXEC_MODE_COMPILE_AND_RUN) with true.
  cbv iota.
  destruct (Executor.compile_source_code env job) as [[[r1 j1] e1]|]; cbn [obind];
    [|reflexivity].
  destruct (r1 =? 0); [|reflexivity].
  destruct (Executor.execute_compiled_program env j1) as [[[r2 j2] e2]|]; reflexivity.
Qed.








Lemma job_processor_step_process (env : Executor.os_env) (clk : clock_t)
    (srv : server_context_t) (job : job_info_t) (rest : job_queue_t) (p : processed_t) :
  job_queue srv = job :: rest ->
  process_compilation_job interpret_source_code syntax_check_only env clk job rest
  = Some p ->
  exists srv',
    job_processor_step interpret_source_code syntax_check_only env clk srv
    = Some (srv', p_events p)
    /\ job_queue srv' = p_queue p.
Proof.
  intros Hq Hp. unfold job_processor_step. rewrite Hq. cbn [get_next_job].
  rewrite Hp. cbn [obind]. eexists. split; reflexivity.
Qed.



(** X14: in mode compile-and-run the run command is launched only after
    the compile command has returned 0: the commands launched are none,
    the compile command alone (limit 300), or the compile command followed
    by the run command (limit 60), and in the last case the compile exit
    code is 0. *)
Theorem run_follows_only_a_successful_compile (env : Executor.os_env)
    (job job' : Executor.compilation_job_t) (res : Z) (evs : list os_event) :
  Executor.exec_mode job = Proto.EXEC_MODE_COMPILE_AND_RUN ->
  run_by_mode interpret_source_code syntax_check_only env job = Some (res, job', evs) ->
  Executor.launches evs = []
  \/ (exists c, Executor.launches evs = [(c, 300)])
  \/ (exists c e, Executor.launches evs = [(c, 300); (e, 60)]
                  /\ Executor.compile_exit_code job' = 0).
Proof.
  intros Hm. rewrite (run_by_mode_compile_and_run env job Hm).
  destruct (Executor.compile_source_code env job) as [[[r1 j1] e1]|] eqn:E1;
    [|discriminate].
  pose proof (compile_source_code_launches env job j1 r1 e1 E1) as L1.
  pose proof (compile_source_code_keeps env job j1 r1 e1 E1) as (_ & _ & _ & _ & K1).
  destruct (r1 =? 0) eqn:Ez.
  - destruct (Executor.execute_compiled_program env j1) as [[[r2 j2] e2]|] eqn:E2;
      [|discriminate].
    pose proof (execute_compiled_program_launches env j1 j2 r2 e2 E2) as L2.
    pose proof (execute_compiled_program_keeps env j1 j2 r2 e2 E2) as (_ & _ & _ & K2).
    intros [= <- <- <-]. rewrite launches_app.
    apply Z.eqb_eq in Ez.
    destruct K1 as [(_ & Hst & Hc0) | (Hr & _)]; [|lia].
    subst r1. destruct (compile_success_launched env job j1 e1 E1) as [c ->].
    destruct L2 as [-> | [e ->]]; cbn [app].
    + right. left. now exists c.
    + right. right. exists c, e. split; [reflexivity|]. congruence.
  - intros [= <- <- <-].
    destruct L1 as [-> | [c ->]]; [now left | right; left; now exists c].
Qed.

Lemma update_job_state_running_found (now id : Z) (q : job_queue_t) (j : job_info_t) :
  find_job id q = Some j ->
  find_job id (update_job_state now id JOB_STATE_RUNNING q)
  = Some (set_start_time (set_state j JOB_STATE_RUNNING) now).
Proof.
  induction q as [|node next IH]; cbn [find_job update_job_state]; [discriminate|].
  destruct (job_id node =? id) eqn:E.
  - intros [= <-]. cbn [find_job]. unfold set_start_time, set_state. cbn [job_id].
    now rewrite E.
  - intros H. cbn [find_job]. rewrite E. now apply IH.
Qed.

Lemma compile_without_compiler (env : Executor.os_env)
    (job : Executor.compilation_job_t) :
  Executor.get_compiler_by_type (Executor.g_compilers env) (Executor.compiler_type job)
  = None ->
  Executor.compile_source_code env job
  = Some (-1,
          Executor.set_status (Executor.set_status job Executor.COMPILE_STATUS_COMPILING)
            Executor.COMPILE_STATUS_FAILED,
          []).
Proof.
  intros H. unfold Executor.compile_source_code.
  replace (Executor.compiler_type
             (Executor.set_status job Executor.COMPILE_STATUS_COMPILING))
    with (Executor.compiler_type job) by reflexivity.
  now rewrite H.
Qed.

Lemma launches_destroy (job : Executor.compilation_job_t) :
  Executor.launches (Executor.destroy_compilation_job job) = [].
Proof.
  unfold Executor.destroy_compilation_job.
  destruct (Executor.compile_pid job >? 0), (Executor.exec_pid job >? 0),
    (Executor.sandbox_dir job); reflexivity.
Qed.

(** X15: when no compiler is registered for the language of a job that
    compiles, the turn of the worker returns at once:
    [process_compilation_job] returns -1 and launches nothing, and since
    the job has already left the queue [complete_job] finds no node: the
    queue is left without the job, and neither a state nor an exit code is
    recorded for it. *)
Theorem job_without_compiler_is_recorded_nowhere (env : Executor.os_env)
    (clk : clock_t) (srv : server_context_t) (job : job_info_t) (rest : job_queue_t) :
  job_queue srv = job :: rest ->
  find_job (job_id job) rest = None ->
  compiles (mode job) ->
  Executor.get_compiler_by_type (Executor.g_compilers env) (language job) = None ->
  exists p srv',
    process_compilation_job interpret_source_code syntax_check_only env clk job rest
    = Some p
    /\ p_result p = -1
    /\ Executor.launches (p_events p) = []
    /\ job_processor_step interpret_source_code syntax_check_only env clk srv
       = Some (srv', p_events p)
    /\ job_queue srv' = rest
    /\ find_job (job_id job) (job_queue srv') = None.
Proof.
  intros Hq Hn Hm Hc.
  assert (Hrun : run_by_mode interpret_source_code syntax_check_only env
                   (setup_compilation_job env clk job)
                 = Some (-1,
                         Executor.set_status
                           (Executor.set_status (setup_compilation_job env clk job)
                              Executor.COMPILE_STATUS_COMPILING)
                           Executor.COMPILE_STATUS_FAILED,
                         [])).
  { destruct Hm as [Hm | Hm].
    - rewrite run_by_mode_compile_only by exact Hm.
      now apply compile_without_compiler.
    - rewrite run_by_mode_compile_and_run by exact Hm.
      rewrite compile_without_compiler by exact Hc. reflexivity. }
  destruct (process_compilation_job interpret_source_code syntax_check_only env clk
              job rest) as [p|] eqn:Ep.
  2:{ unfold process_compilation_job in Ep. rewrite Hrun in Ep. discriminate. }
  pose proof (process_compilation_job_absent _ _ env clk job rest p Hn Ep) as Hpq.
  destruct (job_processor_step_process env clk srv job rest p Hq Ep) as (srv' & E & Hs').
  exists p, srv'. split; [reflexivity|].
  unfold process_compilation_job in Ep. rewrite Hrun in Ep. cbn [obind] in Ep.
  injection Ep as <-. cbn [p_result p_events] in *.
  split; [reflexivity|]. split; [apply launches_destroy|].
  split; [exact E|]. rewrite Hs'. cbn [p_queue] in Hpq |- *.
  split; [exact Hpq|]. rewrite Hpq. exact Hn.
Qed.

End WorkerMore.



Lemma run_follows_only_a_successful_compile_witness :
  let job := Queue.setup_compilation_job
               (Scenario.env_with (Scenario.slow_child 4001 []) (Scenario.slow_child 4002 []))
               Scenario.clock0
               (Scenario.job_a_c 1 7 Queue.JOB_STATE_QUEUED Proto.EXEC_MODE_COMPILE_AND_RUN 5) in
  let env := Scenario.env_with (Scenario.slow_child 4001 []) (Scenario.slow_child 4002 []) in
  exists res job' evs,
    Queue.run_by_mode Scenario.no_step Scenario.no_step env job = Some (res, job', evs)
    /\ (Executor.launches evs = []
        \/ (exists c, Executor.launches evs = [(c, 300)])
        \/ (exists c e, Executor.launches evs = [(c, 300); (e, 60)]
                        /\ Executor.compile_exit_code job' = 0)).
Proof.
  intros job env.
  destruct (Queue.run_by_mode Scenario.no_step Scenario.no_step env job)
    as [[[res job'] evs]|] eqn:E.
  - exists res, job', evs. split; [reflexivity|].
    apply (run_follows_only_a_successful_compile Scenario.no_step Scenario.no_step
             env job job' res evs); [reflexivity | exact E].
  - vm_compute in E. discriminate.
Defined.

Lemma job_without_compiler_is_recorded_nowhere_witness :
  let job := Scenario.job_a_c 1 7 Queue.JOB_STATE_QUEUED Proto.EXEC_MODE_COMPILE_ONLY 5 in
  let waiting := Scenario.job_a_c 2 8 Queue.JOB_STATE_QUEUED Proto.EXEC_MODE_COMPILE_ONLY 5 in
  let env := Executor.mk_env [] "./processing" Executor.MkdirOk true
               (Scenario.slow_child 4001 []) (Scenario.slow_child 4002 []) in
  let srv := Queue.mk_server [job; waiting] Scenario.stats0 in
  exists p srv',
    Queue.process_compilation_job Scenario.no_step Scenario.no_step env Scenario.clock0
      job [waiting] = Some p
    /\ Queue.p_result p = -1
    /\ Executor.launches (Queue.p_events p) = []
    /\ Queue.job_processor_step Scenario.no_step Scenario.no_step env Scenario.clock0 srv
       = Some (srv', Queue.p_events p)
    /\ Queue.job_queue srv' = [waiting]
    /\ Queue.find_job 1 (Queue.job_queue srv') = None.
Proof.
  intros job waiting env srv.
  apply (job_without_compiler_is_recorded_nowhere Scenario.no_step Scenario.no_step
           env Scenario.clock0 srv job [waiting]).
  - reflexivity.
  - reflexivity.
  - left. reflexivity.
  - reflexivity.
Defined.

(** ** Jobs whose step times out *)
Section TimedOutJobs.

Import Queue.

Variable interpret_source_code :
  Executor.os_env -> Executor.compilation_job_t -> option Executor.step_result.
Variable syntax_check_only :
  Executor.os_env -> Executor.compilation_job_t -> option Executor.step_result.




End TimedOutJobs.


(** ** More on the executor *)
Section ExecutorMore.

Import Executor.

Lemma advance_bounds (size pos : Z) (r : option Z) :
  1 <= size -> 0 <= pos <= size - 1 -> 0 <= advance size pos r <= size - 1.
Proof.
  intros Hs Hp. unfold advance. destruct r as [n|]; [|exact Hp].
  destruct (pos <? size - 1) eqn:E; [|exact Hp].
  apply Z.ltb_lt in E.
  destruct (Z.min n (size - pos - 1) >? 0) eqn:G; [|exact Hp].
  apply Z.gtb_lt in G. lia.
Qed.

Lemma drain_pipes_bounds (osz esz timeout start : Z) (evs : list select_event)
    (op ep : Z) (r : bool * Z * Z) :
  1 <= osz -> 1 <= esz ->
  0 <= op <= osz - 1 -> 0 <= ep <= esz - 1 ->
  drain_pipes osz esz timeout start evs op ep = Some r ->
  0 <= snd (fst r) <= osz - 1 /\ 0 <= snd r <= esz - 1.
Proof.
  intros Ho He. revert op ep.
  induction evs as [|e evs IH]; intros op ep Hop Hep; cbn [drain_pipes];
    destruct (negb _); try (intros [= <-]; cbn [fst snd]; now split);
    try discriminate.
  destruct e as [| |t|o x].
  - now apply IH.
  - intros [= <-]. cbn [fst snd]. now split.
  - destruct (t - start >=? timeout); [intros [= <-]; cbn [fst snd]; now split|].
    now apply IH.
  - apply IH; now apply advance_bounds.
Qed.

(** X16: the lengths captured from stdout and stderr never reach the size
    of their buffers: there is always room for the terminating NUL. *)
Theorem captured_output_fits_the_buffers (cmd : string) (child : child_t)
    (osz esz timeout : Z) (r : command_result) :
  1 <= osz -> 1 <= esz ->
  execute_command_with_timeout cmd child osz esz timeout = Some r ->
  0 <= out_len r < osz /\ 0 <= err_len r < esz.
Proof.
  intros Ho He. unfold execute_command_with_timeout.
  destruct (pipes_ok child); cbn [negb];
    [|intros [= <-]; cbn [out_len err_len]; lia].
  destruct (fork_pid child =? -1); [intros [= <-]; cbn [out_len err_len]; lia|].
  destruct (drain_pipes _ _ _ _ _ _ _) as [[[timed_out op] ep]|] eqn:Ed;
    cbn [obind]; [|discriminate].
  apply drain_pipes_bounds in Ed; try lia. cbn [fst snd] in Ed.
  destruct timed_out; [intros [= <-]; cbn [out_len err_len]; lia|].
  destruct (wait_result child) as [[c|sg|]|]; intros [= <-];
    cbn [out_len err_len]; lia.
Qed.

Lemma drain_pipes_timed_out (osz esz timeout start : Z) (evs : list select_event)
    (op ep op' ep' : Z) :
  drain_pipes osz esz timeout start evs op ep = Some (true, op', ep') ->
  exists t, In (SelectIdle t) evs /\ timeout <= t - start.
Proof.
  revert op ep. induction evs as [|e evs IH]; intros op ep; cbn [drain_pipes];
    destruct (negb _); try discriminate.
  destruct e as [| |t|o x].
  - intros H. destruct (IH _ _ H) as (t & Hin & Ht). exists t. split; [now right|exact Ht].
  - discriminate.
  - destruct (t - start >=? timeout) eqn:E.
    + intros _. exists t. split; [now left|]. apply Z.geb_le in E. lia.
    + intros H. destruct (IH _ _ H) as (t' & Hin & Ht).
      exists t'. split; [now right|exact Ht].
  - intros H. destruct (IH _ _ H) as (t & Hin & Ht). exists t. split; [now right|exact Ht].
Qed.

(** X17: the only signal [execute_command_with_timeout] ever sends is one
    SIGKILL to its own child, and only after an idle turn of the loop has
    found the time limit reached; the code returned is then 124. A child
    that is never found idle past the limit -- because it keeps writing,
    say -- is never killed, however long it runs. *)
Theorem child_is_killed_only_after_an_idle_check (cmd : string) (child : child_t)
    (osz esz timeout : Z) (r : command_result) :
  execute_command_with_timeout cmd child osz esz timeout = Some r ->
  kills (sent r) = []
  \/ (kills (sent r) = [(fork_pid child, SIGKILL)]
      /\ code r = 124
      /\ exists t, In (SelectIdle t) (events child) /\ timeout <= t - start_time child).
Proof.
  unfold execute_command_with_timeout.
  destruct (pipes_ok child); cbn [negb]; [|intros [= <-]; now left].
  destruct (fork_pid child =? -1); [intros [= <-]; now left|].
  destruct (drain_pipes _ _ _ _ _ _ _) as [[[timed_out op] ep]|] eqn:Ed;
    cbn [obind]; [|discriminate].
  destruct timed_out.
  - intros [= <-]. right. cbn [sent kills code].
    split; [reflexivity|]. split; [reflexivity|].
    exact (drain_pipes_timed_out _ _ _ _ _ _ _ _ _ Ed).
  - destruct (wait_result child) as [[c|sg|]|]; intros [= <-]; now left.
Qed.

Lemma advance_fruitless (size pos : Z) (r : option Z) :
  match r with Some n => n <= 0 | None => True end -> advance size pos r = pos.
Proof.
  unfold advance. destruct r as [n|]; [|reflexivity]. intros Hn.
  destruct (pos <? size - 1); [|reflexivity].
  destruct (Z.min n (size - pos - 1) >? 0) eqn:G; [|reflexivity].
  apply Z.gtb_lt in G. lia.
Qed.

Lemma drain_pipes_fruitless (osz esz timeout start : Z) (evs : list select_event) :
  1 < osz \/ 1 < esz ->
  Forall fruitless evs ->
  drain_pipes osz esz timeout start evs 0 0 = None.
Proof.
  intros Hs Hf.
  assert (Hroom : negb ((0 <? osz - 1) || (0 <? esz - 1)) = false).
  { apply negb_false_iff, orb_true_iff. rewrite !Z.ltb_lt. lia. }
  induction Hf as [|e evs He _ IH]; cbn [drain_pipes]; rewrite Hroom; [reflexivity|].
  destruct e as [| |t|o x]; cbn [fruitless] in He; try contradiction.
  - exact IH.
  - destruct He as [H1 H2]. now rewrite !advance_fruitless.
Qed.

(** X18: end of file does not end the capture loop. Once the child has
    exited without filling a buffer, [select] reports the pipes readable and
    [read] returns 0 each time; however many such turns follow, the loop is
    still running, the time limit is not looked at, and the function has not
    returned. *)
Theorem capture_loop_spins_at_end_of_file (cmd : string) (child : child_t)
    (osz esz timeout : Z) :
  pipes_ok child = true ->
  fork_pid child <> -1 ->
  1 < osz \/ 1 < esz ->
  Forall fruitless (events child) ->
  execute_command_with_timeout cmd child osz esz timeout = None.
Proof.
  intros Hp Hf Hs Hq. unfold execute_command_with_timeout.
  rewrite Hp. cbn [negb].
  replace (fork_pid child =? -1) with false by (symmetry; now apply Z.eqb_neq).
  now rewrite drain_pipes_fruitless.
Qed.

End ExecutorMore.

Lemma captured_output_fits_the_buffers_witness :
  exists r,
    Executor.execute_command_with_timeout "cc a.c" (Scenario.slow_child 4001 [10])
      8192 8192 60 = Some r
    /\ 0 <= Executor.out_len r < 8192 /\ 0 <= Executor.err_len r < 8192.
Proof.
  destruct (Executor.execute_command_with_timeout "cc a.c" (Scenario.slow_child 4001 [10])
              8192 8192 60) as [r|] eqn:E.
  - exists r. split; [reflexivity|].
    apply (captured_output_fits_the_buffers "cc a.c" (Scenario.slow_child 4001 [10])
             8192 8192 60 r); [lia | lia | exact E].
  - vm_compute in E. discriminate.
Defined.

Lemma child_is_killed_only_after_an_idle_check_witness :
  exists r,
    Executor.execute_command_with_timeout "cc a.c" (Scenario.hung_child 4001 [59; 60])
      8192 8192 60 = Some r
    /\ (Executor.kills (Executor.sent r) = []
        \/ (Executor.kills (Executor.sent r) = [(4001, SIGKILL)]
            /\ Executor.code r = 124
            /\ exists t, In (Executor.SelectIdle t) [Executor.SelectIdle 59; Executor.SelectIdle 60]
                         /\ 60 <= t - 0)).
Proof.
  destruct (Executor.execute_command_with_timeout "cc a.c"
              (Scenario.hung_child 4001 [59; 60]) 8192 8192 60) as [r|] eqn:E.
  - exists r. split; [reflexivity|].
    apply (child_is_killed_only_after_an_idle_check "cc a.c"
             (Scenario.hung_child 4001 [59; 60]) 8192 8192 60 r E).
  - vm_compute in E. discriminate.
Defined.

Lemma capture_loop_spins_at_end_of_file_witness :
  Executor.execute_command_with_timeout "./a_exe"
    (Executor.mk_child true 4001 0
       [Executor.SelectReady (Some 0) (Some 0); Executor.SelectEINTR;
        Executor.SelectReady (Some 0) None; Executor.SelectReady (Some 0) (Some 0)]
       (Some (Executor.WExited 0)))
    8192 8192 60
  = None.
Proof.
  apply capture_loop_spins_at_end_of_file.
  - reflexivity.
  - discriminate.
  - left. lia.
  - repeat constructor; cbn; lia.
Defined.

(** ** The registry, the languages and the file names *)
Section RegistryFacts.

Import Executor.

(** X19: [get_compiler_by_type] finds a compiler exactly when the registry
    holds an available compiler of the requested type, and what it returns
    is such a compiler of the registry. *)
Theorem compiler_lookup_is_sound_and_complete (reg : list compiler_info_t) (t : Z) :
  (forall c, get_compiler_by_type reg t = Some c ->
             In c reg /\ type c = t /\ available c = true)
  /\ (get_compiler_by_type reg t = None <->
      forall c, In c reg -> type c = t -> available c = false).
Proof.
  induction reg as [|c0 reg [IH1 IH2]]; cbn [get_compiler_by_type In].
  - split; [discriminate|]. split; [contradiction | reflexivity].
  - destruct ((type c0 =? t) && available c0) eqn:E.
    + apply andb_true_iff in E. destruct E as [Et Ea]. apply Z.eqb_eq in Et.
      split.
      * intros c [= <-]. auto.
      * split; [discriminate|]. intros H. specialize (H c0 (or_introl eq_refl) Et).
        congruence.
    + split.
      * intros c Hc. destruct (IH1 c Hc) as (Hin & Ht & Ha). auto.
      * rewrite IH2. split.
        -- intros H c [<- | Hin] Ht; [|now apply H].
           apply andb_false_iff in E. destruct E as [E | E]; [|exact E].
           apply Z.eqb_neq in E. contradiction.
        -- intros H c Hin. apply H. now right.
Qed.

Lemma build_compile_command_interpreted (reg : list compiler_info_t)
    (job : compilation_job_t) :
  compiler_type job = COMPILER_PYTHON \/ compiler_type job = COMPILER_JAVASCRIPT ->
  build_compile_command reg job = None.
Proof.
  intros H. unfold build_compile_command.
  destruct (get_compiler_by_type reg (compiler_type job)); cbn [obind]; [|reflexivity].
  destruct H as [-> | ->]; reflexivity.
Qed.

(** X20: there is no compile command for Python and JavaScript: for a job
    in one of these languages the compile step fails with -1 and launches
    nothing, even when the interpreter is registered and the sandbox and
    the source are in place. *)
Theorem interpreted_languages_do_not_compile (env : os_env) (job : compilation_job_t) :
  compiler_type job = COMPILER_PYTHON \/ compiler_type job = COMPILER_JAVASCRIPT ->
  exists job' evs,
    compile_source_code env job = Some (-1, job', evs)
    /\ launches evs = []
    /\ status job' = COMPILE_STATUS_FAILED.
Proof.
  intros H. unfold compile_source_code.
  rewrite build_compile_command_set_status, (build_compile_command_interpreted _ _ H).
  destruct (get_compiler_by_type _ _); [|now do 2 eexists].
  destruct (negb (create_job_sandbox _ _ =? 0)); [now do 2 eexists|].
  destruct (negb (validate_source_content _ _ _ =? 0)); now do 2 eexists.
Qed.

Lemma extension_append (stem ext : string) :
  extension ext = Some ext -> extension (append stem ext) = Some ext.
Proof.
  intros H. induction stem as [|a stem IH]; cbn [append extension]; [exact H|].
  now rewrite IH.
Qed.

Lemma extension_none (s : string) : has_char "."%char s = false -> extension s = None.
Proof.
  induction s as [|a r IH]; cbn [has_char extension]; [reflexivity|].
  intros H. apply orb_false_iff in H. destruct H as [Ha Hr].
  now rewrite (IH Hr), Ha.
Qed.

(** X21: [detect_language_from_filename] looks only at the text after the
    last dot: whatever precedes it -- other dots and directories included --
    the seven known extensions give their language, and a name without a
    dot gives Unknown. *)
Theorem language_is_decided_by_the_last_extension (stem : string) :
  detect_language_from_filename (append stem ".c") = COMPILER_C
  /\ detect_language_from_filename (append stem ".cpp") = COMPILER_CPP
  /\ detect_language_from_filename (append stem ".cc") = COMPILER_CPP
  /\ detect_language_from_filename (append stem ".cxx") = COMPILER_CPP
  /\ detect_language_from_filename (append stem ".java") = COMPILER_JAVA
  /\ detect_language_from_filename (append stem ".py") = COMPILER_PYTHON
  /\ detect_language_from_filename (append stem ".js") = COMPILER_JAVASCRIPT
  /\ detect_language_from_filename (append stem ".go") = COMPILER_GO
  /\ detect_language_from_filename (append stem ".rs") = COMPILER_RUST
  /\ (has_char "."%char stem = false ->
      detect_language_from_filename stem = COMPILER_UNKNOWN).
Proof.
  unfold detect_language_from_filename.
  repeat split; try (rewrite extension_append by reflexivity; reflexivity).
  intros H. now rewrite extension_none.
Qed.

Lemma occurs_char (c : ascii) (s : string) :
  occurs (String c EmptyString) s = has_char c s.
Proof.
  induction s as [|a r IH]; cbn [occurs has_char prefix]; [reflexivity|].
  rewrite IH. rewrite (Ascii.eqb_sym a c).
  destruct (Ascii.ascii_dec c a) as [->|Hn].
  - rewrite Ascii.eqb_refl. now destruct r.
  - destruct (Ascii.eqb c a) eqn:E; [apply Ascii.eqb_eq in E; contradiction|].
    reflexivity.
Qed.

Lemma basename_without_slash (s : string) :
  has_char "/"%char s = false -> basename s = s.
Proof.
  destruct s as [|a r]; cbn [has_char basename]; [reflexivity|].
  intros H. apply orb_false_iff in H. destruct H as [Ha Hr]. now rewrite Hr, Ha.
Qed.

(** X22: a file name accepted by [is_safe_filename] has no directory part
    (it is its own base name), contains neither slash nor backslash nor two
    dots in a row, and is at most 256 characters long. *)
Theorem safe_filename_has_no_directory_part (filename : string) :
  is_safe_filename filename = true ->
  basename filename = filename
  /\ has_char "/"%char filename = false
  /\ has_char "\"%char filename = false
  /\ occurs ".." filename = false
  /\ (String.length filename <= 256)%nat.
Proof.
  unfold is_safe_filename.
  destruct (occurs ".." filename) eqn:E1; [discriminate|].
  destruct (occurs "/" filename) eqn:E2; [discriminate|].
  destruct (occurs "\" filename) eqn:E3; [discriminate|].
  cbn [orb].
  destruct (Proto.MAX_FILENAME_SIZE <? String.length filename)%nat eqn:E4;
    [discriminate|].
  intros _. rewrite occurs_char in E2, E3.
  split; [now apply basename_without_slash|].
  split; [exact E2|]. split; [exact E3|]. split; [reflexivity|].
  apply Nat.ltb_ge in E4. exact E4.
Qed.

End RegistryFacts.

Lemma compiler_lookup_is_sound_and_complete_witness :
  (In Scenario.gcc [Scenario.gcc]
   /\ Executor.type Scenario.gcc = Executor.COMPILER_C
   /\ Executor.available Scenario.gcc = true)
  /\ Executor.get_compiler_by_type [Scenario.gcc] Executor.COMPILER_JAVA = None.
Proof.
  split.
  - apply (proj1 (compiler_lookup_is_sound_and_complete [Scenario.gcc]
                    Executor.COMPILER_C) Scenario.gcc).
    reflexivity.
  - apply (proj2 (compiler_lookup_is_sound_and_complete [Scenario.gcc]
                    Executor.COMPILER_JAVA)).
    intros c [<- | []]. discriminate.
Defined.

Lemma interpreted_languages_do_not_compile_witness :
  let env := Scenario.env_with (Scenario.slow_child 4001 []) (Scenario.slow_child 4002 []) in
  let job := Queue.setup_compilation_job env Scenario.clock0
               (Queue.mk_job 1 7 0 Queue.JOB_STATE_QUEUED Executor.COMPILER_PYTHON
                  Proto.EXEC_MODE_COMPILE_ONLY 900 0 0 0 0 "a.py" "" "" "" "" 0 0 5) in
  exists job' evs,
    Executor.compile_source_code env job = Some (-1, job', evs)
    /\ Executor.launches evs = []
    /\ Executor.status job' = Executor.COMPILE_STATUS_FAILED.
Proof.
  intros env job.
  apply (interpreted_languages_do_not_compile env job). left. reflexivity.
Defined.

Lemma language_is_decided_by_the_last_extension_witness :
  Executor.detect_language_from_filename "v1.2/main.cpp" = Executor.COMPILER_CPP
  /\ Executor.detect_language_from_filename "Makefile" = Executor.COMPILER_UNKNOWN.
Proof.
  split.
  - exact (proj1 (proj2 (language_is_decided_by_the_last_extension "v1.2/main"))).
  - destruct (language_is_decided_by_the_last_extension "Makefile")
      as (_ & _ & _ & _ & _ & _ & _ & _ & _ & H).
    apply H. reflexivity.
Defined.

Lemma safe_filename_has_no_directory_part_witness :
  Executor.basename "main.c" = "main.c"
  /\ Executor.has_char "/"%char "main.c" = false
  /\ Executor.has_char "\"%char "main.c" = false
  /\ Executor.occurs ".." "main.c" = false
  /\ (String.length "main.c" <= 256)%nat.
Proof. apply (safe_filename_has_no_directory_part "main.c"). reflexivity. Defined.

(** ** More on the session handler *)
Section SessionMore.

Import Session.

Variable update_stats_job_submitted : Queue.server_stats_t -> Queue.server_stats_t.

Lemma answers_error (w : world_t) (msg : message_t) (code : Z) (text : string) :
  answers w msg (send_client_error w code text (corr msg)).
Proof. unfold send_client_error. now do 3 eexists. Qed.

Ltac answer :=
  first [ apply answers_error
        | do 3 eexists; split; [reflexivity|]; split; reflexivity ].

Lemma handle_hello_message_answers (w : world_t) (msg : message_t) :
  answers w msg (handle_hello_message w msg).
Proof. unfold handle_hello_message. destruct (len msg <? _); answer. Qed.

Lemma handle_file_upload_start_answers (w : world_t) (msg : message_t) :
  answers w msg (handle_file_upload_start w msg).
Proof.
  unfold handle_file_upload_start.
  destruct (negb _ && negb _); [answer|].
  destruct (len msg <? _); [answer|].
  destruct (_ >? _); answer.
Qed.

Lemma handle_file_upload_chunk_answers (w : world_t) (msg : message_t) :
  answers w msg (handle_file_upload_chunk w msg).
Proof.
  unfold handle_file_upload_chunk.
  destruct (negb _); [answer|].
  destruct (len msg <? _); [answer|].
  destruct (negb _); answer.
Qed.

Lemma handle_file_upload_end_answers (w : world_t) (msg : message_t) :
  answers w msg (handle_file_upload_end w msg).
Proof. unfold handle_file_upload_end. destruct (negb _); answer. Qed.

Lemma handle_compile_request_answers (now : Z) (w : world_t) (msg : message_t) :
  answers w msg (handle_compile_request update_stats_job_submitted now w msg).
Proof.
  unfold handle_compile_request.
  destruct (negb _); [answer|].
  destruct (len msg <? _); [answer|].
  unfold Queue.generate_job_id, Queue.add_job.
  destruct (_ =? 0).
  - unfold send_client_error. do 3 eexists. split; [reflexivity|]. split; reflexivity.
  - answer.
Qed.

Lemma handle_status_request_answers (w : world_t) (msg : message_t) :
  answers w msg (handle_status_request w msg).
Proof.
  unfold handle_status_request.
  destruct (len msg <? _); [answer|].
  destruct (Queue.find_job _ _) as [job|]; [|answer].
  destruct (negb _); answer.
Qed.

Lemma handle_result_request_answers (w : world_t) (msg : message_t) :
  answers w msg (handle_result_request w msg).
Proof.
  unfold handle_result_request.
  destruct (len msg <? _); [answer|].
  destruct (Queue.find_job _ _) as [job|]; [|answer].
  destruct (negb (Queue.client_id job =? _)); [answer|].
  destruct (negb _ && negb _); answer.
Qed.

Lemma process_client_request_answers (now : Z) (w : world_t) (msg : message_t) :
  answers w msg (process_client_request update_stats_job_submitted now w msg).
Proof.
  unfold process_client_request.
  destruct (_ =? Proto.MSG_HELLO); [apply handle_hello_message_answers|].
  destruct (_ =? Proto.MSG_FILE_UPLOAD_START); [apply handle_file_upload_start_answers|].
  destruct (_ =? Proto.MSG_FILE_UPLOAD_CHUNK); [apply handle_file_upload_chunk_answers|].
  destruct (_ =? Proto.MSG_FILE_UPLOAD_END); [apply handle_file_upload_end_answers|].
  destruct (_ =? Proto.MSG_COMPILE_REQUEST); [apply handle_compile_request_answers|].
  destruct (_ =? Proto.MSG_STATUS_REQUEST); [apply handle_status_request_answers|].
  destruct (_ =? Proto.MSG_RESULT_REQUEST); [apply handle_result_request_answers|].
  destruct (_ =? Proto.MSG_PING); answer.
Qed.

Lemma sizeof_payload_nonneg (p : payload_t) : 0 <= sizeof_payload p.
Proof. destruct p; cbn; unfold Proto.sizeof_hello_payload; lia. Qed.

(** X23: over a socket that can be written to, every request -- whatever
    its kind and whatever the state of the session -- is answered by exactly
    one message, which carries the correlation id of the request; the
    handler returns 0 and [bytes_sent] grows by the 28 bytes of the header
    plus the length of the payload. *)
Theorem every_request_gets_one_reply (now : Z) (w : world_t) (msg : message_t) :
  writable w ->
  let r := process_client_request update_stats_job_submitted now w msg in
  fst r = 0
  /\ exists f,
       outbound (sock (snd r)) = outbound (sock w) ++ [f]
       /\ f_correlation_id f = corr msg
       /\ bytes_sent (client (snd r)) = bytes_sent (client w) + 28 + f_length f.
Proof.
  intros [He Ho].
  destruct (process_client_request_answers now w msg) as (w1 & t & p & -> & Hs & Hb).
  cbv zeta. unfold send_client_response. rewrite Hs, He, Ho. cbn [orb negb fst snd].
  split; [reflexivity|]. eexists. cbn [sock outbound client]. split; [reflexivity|].
  split; [reflexivity|]. cbn [f_length].
  pose proof (sizeof_payload_nonneg p) as Hp.
  destruct (sizeof_payload p >? 0) eqn:E; cbn [set_bytes_sent bytes_sent];
    rewrite Hb; unfold Proto.sizeof_message_header.
  - lia.
  - rewrite Z.gtb_ltb in E. apply Z.ltb_ge in E. lia.
Qed.

(** X24: over a socket that is closed or in error no handler sends
    anything: the handler returns -1, the messages sent so far and
    [bytes_sent] are what they were. *)
Theorem broken_socket_gets_no_reply (now : Z) (w : world_t) (msg : message_t) :
  io_error (sock w) = true \/ is_open (sock w) = false ->
  let r := process_client_request update_stats_job_submitted now w msg in
  fst r = -1
  /\ outbound (sock (snd r)) = outbound (sock w)
  /\ bytes_sent (client (snd r)) = bytes_sent (client w).
Proof.
  intros Hb.
  destruct (process_client_request_answers now w msg) as (w1 & t & p & -> & Hs & Hbs).
  cbv zeta. unfold send_client_response. rewrite Hs.
  replace (io_error (sock w) || negb (is_open (sock w))) with true
    by (destruct Hb as [-> | ->]; [reflexivity | now rewrite orb_true_r]).
  cbn [fst snd]. now rewrite Hs, Hbs.
Qed.

End SessionMore.

Lemma every_request_gets_one_reply_witness :
  let w := Scenario.world0 7 Session.CLIENT_STATE_CONNECTING [] in
  let msg := Scenario.compile_msg 9 10 in
  let r := Session.process_client_request Scenario.count_nothing 1000 w msg in
  fst r = 0
  /\ exists f,
       Session.outbound (Session.sock (snd r)) = Session.outbound (Session.sock w) ++ [f]
       /\ Session.f_correlation_id f = Session.corr msg
       /\ Session.bytes_sent (Session.client (snd r))
          = Session.bytes_sent (Session.client w) + 28 + Session.f_length f.
Proof.
  intros w msg.
  apply (every_request_gets_one_reply Scenario.count_nothing 1000 w msg).
  split; reflexivity.
Defined.

Lemma broken_socket_gets_no_reply_witness :
  let w := Session.with_sock (Scenario.world0 7 Session.CLIENT_STATE_IDLE [])
             (Session.close (Scenario.fresh_socket [])) in
  let msg := Scenario.ping_msg 3 in
  let r := Session.process_client_request Scenario.count_nothing 1000 w msg in
  fst r = -1
  /\ Session.outbound (Session.sock (snd r)) = Session.outbound (Session.sock w)
  /\ Session.bytes_sent (Session.client (snd r)) = Session.bytes_sent (Session.client w).
Proof.
  intros w msg.
  apply (broken_socket_gets_no_reply Scenario.count_nothing 1000 w msg).
  right. reflexivity.
Defined.

(** ** The session state machine and the queue seen from a session *)
Section SessionStates.

Import Session.

Variable update_stats_job_submitted : Queue.server_stats_t -> Queue.server_stats_t.

Lemma client_state_eqb_eq (a b : client_state_t) :
  client_state_eqb a b = true <-> a = b.
Proof. destruct a, b; cbn; split; intros H; try reflexivity; discriminate. Qed.

Lemma send_client_response_state (w : world_t) (t : Z) (p : payload_t) (c : Z) :
  client_state (snd (send_client_response w t p c)) = client_state w.
Proof. apply send_client_response_keeps. Qed.

Lemma send_client_error_state (w : world_t) (code : Z) (text : string) (c : Z) :
  client_state (snd (send_client_error w code text c)) = client_state w.
Proof. apply send_client_response_state. Qed.

(** X25: the state of a session changes only as follows: Hello makes it
    Authenticated, FileUploadStart moves Authenticated or Idle to
    Uploading, FileUploadEnd moves Uploading to Idle, CompileRequest moves
    Idle to Processing.  No request makes a session Connecting or
    Disconnecting, and nothing but a new Hello moves a session out of
    Processing. *)
Theorem session_state_moves_only_as_listed (now : Z) (w : world_t) (msg : message_t) :
  moves (Proto.message_type (header msg)) (client_state w)
    (client_state (snd (process_client_request update_stats_job_submitted now w msg))).
Proof.
  unfold process_client_request, moves.
  destruct (_ =? Proto.MSG_HELLO) eqn:E1.
  { apply Z.eqb_eq in E1. unfold handle_hello_message.
    destruct (len msg <? _).
    - left. apply send_client_error_state.
    - right. left. split; [exact E1|]. now rewrite send_client_response_state. }
  destruct (_ =? Proto.MSG_FILE_UPLOAD_START) eqn:E2.
  { apply Z.eqb_eq in E2. unfold handle_file_upload_start.
    destruct (client_state_eqb (client_state w) CLIENT_STATE_AUTHENTICATED) eqn:Ea;
      [|destruct (client_state_eqb (client_state w) CLIENT_STATE_IDLE) eqn:Ei];
      cbn [negb andb].
    3: left; apply send_client_error_state.
    all: destruct (len msg <? _); [left; apply send_client_error_state|].
    all: destruct (_ >? _); [left; apply send_client_error_state|].
    all: right; right; left; split; [exact E2|]; rewrite send_client_response_state.
    - apply client_state_eqb_eq in Ea. auto.
    - apply client_state_eqb_eq in Ei. auto. }
  destruct (_ =? Proto.MSG_FILE_UPLOAD_CHUNK).
  { left. unfold handle_file_upload_chunk.
    destruct (negb _); [apply send_client_error_state|].
    destruct (len msg <? _); [apply send_client_error_state|].
    destruct (negb _); [apply send_client_error_state|].
    apply send_client_response_state. }
  destruct (_ =? Proto.MSG_FILE_UPLOAD_END) eqn:E4.
  { apply Z.eqb_eq in E4. unfold handle_file_upload_end.
    destruct (client_state_eqb (client_state w) CLIENT_STATE_UPLOADING) eqn:Eu;
      cbn [negb].
    - apply client_state_eqb_eq in Eu. do 3 right. left.
      rewrite send_client_response_state. auto.
    - left. apply send_client_error_state. }
  destruct (_ =? Proto.MSG_COMPILE_REQUEST) eqn:E5.
  { apply Z.eqb_eq in E5. unfold handle_compile_request.
    destruct (client_state_eqb (client_state w) CLIENT_STATE_IDLE) eqn:Ei; cbn [negb].
    - apply client_state_eqb_eq in Ei.
      destruct (len msg <? _); [left; apply send_client_error_state|].
      unfold Queue.generate_job_id, Queue.add_job.
      destruct (_ =? 0).
      + left. now rewrite send_client_error_state.
      + do 4 right. rewrite send_client_response_state. auto.
    - left. apply send_client_error_state. }
  left.
  destruct (_ =? Proto.MSG_STATUS_REQUEST).
  { unfold handle_status_request.
    destruct (len msg <? _); [apply send_client_error_state|].
    destruct (Queue.find_job _ _) as [job|]; [|apply send_client_error_state].
    destruct (negb _); [apply send_client_error_state|].
    apply send_client_response_state. }
  destruct (_ =? Proto.MSG_RESULT_REQUEST).
  { unfold handle_result_request.
    destruct (len msg <? _); [apply send_client_error_state|].
    destruct (Queue.find_job _ _) as [job|]; [|apply send_client_error_state].
    destruct (negb (Queue.client_id job =? _)); [apply send_client_error_state|].
    destruct (negb _ && negb _); [apply send_client_error_state|].
    apply send_client_response_state. }
  destruct (_ =? Proto.MSG_PING);
    [apply send_client_response_state | apply send_client_error_state].
Qed.

(** X26: a StatusRequest or ResultRequest that names a job of another
    client is answered with Error{Permission} "Access denied", whatever
    the state of the job; the queue is not changed. *)
Theorem job_of_another_client_is_denied (now : Z) (w : world_t) (msg : message_t)
    (job : Queue.job_info_t) :
  Proto.message_type (header msg) = Proto.MSG_STATUS_REQUEST
  \/ Proto.message_type (header msg) = Proto.MSG_RESULT_REQUEST ->
  Proto.sizeof_uint32 <= len msg ->
  Queue.find_job (le_uint (bytes_at (data msg) 0 4)) (queue_of w) = Some job ->
  Queue.client_id job <> client_id (client w) ->
  process_client_request update_stats_job_submitted now w msg
  = send_client_error w Proto.ERROR_PERMISSION "Access denied" (corr msg)
  /\ queue_of (snd (process_client_request update_stats_job_submitted now w msg))
     = queue_of w.
Proof.
  intros Ht Hlen Hf Hc.
  assert (E : process_client_request update_stats_job_submitted now w msg
              = send_client_error w Proto.ERROR_PERMISSION "Access denied" (corr msg)).
  { unfold process_client_request.
    destruct Ht as [-> | ->]; cbn [Z.eqb Pos.eqb Proto.MSG_STATUS_REQUEST
      Proto.MSG_RESULT_REQUEST Proto.MSG_HELLO Proto.MSG_FILE_UPLOAD_START
      Proto.MSG_FILE_UPLOAD_CHUNK Proto.MSG_FILE_UPLOAD_END Proto.MSG_COMPILE_REQUEST].
    - unfold handle_status_request.
      replace (len msg <? Proto.sizeof_uint32) with false
        by (symmetry; apply Z.ltb_ge; exact Hlen).
      unfold queue_of in Hf. rewrite Hf.
      replace (Queue.client_id job =? client_id (client w)) with false
        by (symmetry; now apply Z.eqb_neq).
      reflexivity.
    - unfold handle_result_request.
      replace (len msg <? Proto.sizeof_uint32) with false
        by (symmetry; apply Z.ltb_ge; exact Hlen).
      unfold queue_of in Hf. rewrite Hf.
      replace (Queue.client_id job =? client_id (client w)) with false
        by (symmetry; now apply Z.eqb_neq).
      reflexivity. }
  split; [exact E|]. rewrite E. unfold queue_of.
  destruct (send_client_error_keeps w Proto.ERROR_PERMISSION "Access denied" (corr msg))
    as [-> _]. reflexivity.
Qed.

(** X27: the result of a job of one's own is handed out only when the
    job is Completed or Failed: for a job that is Queued, Running,
    Cancelled or Timeout the ResultRequest is answered with
    Error{Permission} "Job not completed". *)
Theorem result_is_refused_unless_completed_or_failed (w : world_t) (msg : message_t)
    (job : Queue.job_info_t) :
  Proto.sizeof_uint32 <= len msg ->
  Queue.find_job (le_uint (bytes_at (data msg) 0 4)) (queue_of w) = Some job ->
  Queue.client_id job = client_id (client w) ->
  (Queue.state job = Queue.JOB_STATE_COMPLETED \/ Queue.state job = Queue.JOB_STATE_FAILED ->
   exists code out err ms,
     handle_result_request w msg
     = send_client_response w Proto.MSG_RESULT_RESPONSE
         (CompileResponse (le_uint (bytes_at (data msg) 0 4))
            (Queue.job_state_code (Queue.state job)) code out err ms) (corr msg))
  /\ (Queue.state job <> Queue.JOB_STATE_COMPLETED ->
      Queue.state job <> Queue.JOB_STATE_FAILED ->
      handle_result_request w msg
      = send_client_error w Proto.ERROR_PERMISSION "Job not completed" (corr msg)).
Proof.
  intros Hlen Hf Hc. unfold handle_result_request.
  replace (len msg <? Proto.sizeof_uint32) with false
    by (symmetry; apply Z.ltb_ge; exact Hlen).
  unfold queue_of in Hf. rewrite Hf.
  replace (Queue.client_id job =? client_id (client w)) with true
    by (symmetry; now apply Z.eqb_eq).
  cbn [negb]. rewrite (find_job_id _ _ _ Hf). split.
  - intros [-> | ->]; cbn [Queue.job_state_eqb negb andb]; do 4 eexists; reflexivity.
  - intros H1 H2. destruct (Queue.state job); try contradiction; reflexivity.
Qed.

(** The walk of [cleanup_inactive_client] over the queue. *)
Lemma cancel_jobs_of_fst (c : Z) (q : Queue.job_queue_t) :
  fst (cancel_jobs_of c q)
  = map (fun j => if Queue.client_id j =? c
                  then Queue.set_state j Queue.JOB_STATE_CANCELLED else j) q.
Proof.
  induction q as [|node next IH]; [reflexivity|].
  cbn [cancel_jobs_of map]. destruct (cancel_jobs_of c next) as [next' sig].
  cbn [fst] in IH. destruct (Queue.client_id node =? c); cbn [fst]; now rewrite IH.
Qed.

(** X28: when a client is dropped every job it submitted is marked
    Cancelled, a Completed or Failed one as well, and none leaves the
    queue; no [end_time] is set, and the jobs of the other clients are
    left as they are. *)
Theorem dropped_client_has_all_its_jobs_cancelled (w : world_t) :
  let q := queue_of w in
  let q' := queue_of (fst (cleanup_inactive_client w)) in
  let c := client_id (client w) in
  Forall (fun j => Queue.state j = Queue.JOB_STATE_CANCELLED) (jobs_of c q')
  /\ map Queue.job_id (jobs_of c q') = map Queue.job_id (jobs_of c q)
  /\ jobs_of_others c q' = jobs_of_others c q
  /\ map Queue.end_time q' = map Queue.end_time q.
Proof.
  cbv zeta. unfold cleanup_inactive_client, queue_of.
  cbn [client_id set_socket_fd].
  pose proof (cancel_jobs_of_fst (client_id (client w))
                (Queue.job_queue (ctx (server w)))) as E.
  destruct (cancel_jobs_of _ _) as [q' sig]. cbn [fst] in E.
  cbn [fst server set_ctx ctx Queue.job_queue]. subst q'.
  generalize (Queue.job_queue (ctx (server w))) as q.
  generalize (client_id (client w)) as c. intros c q.
  unfold jobs_of, jobs_of_others.
  induction q as [|node next (IH1 & IH2 & IH3 & IH4)]; [repeat split; constructor|].
  cbn [map filter].
  destruct (Queue.client_id node =? c) eqn:E.
  - cbn [Queue.set_state Queue.client_id]. rewrite E. cbn [negb map].
    repeat split.
    + constructor; [reflexivity | exact IH1].
    + cbn [Queue.job_id]. now rewrite IH2.
    + exact IH3.
    + cbn [Queue.end_time]. now rewrite IH4.
  - rewrite E. cbn [negb map]. repeat split.
    + exact IH1.
    + exact IH2.
    + now rewrite IH3.
    + now rewrite IH4.
Qed.

End SessionStates.

Lemma job_of_another_client_is_denied_witness :
  let job := Scenario.job_a_c 1 8 Queue.JOB_STATE_COMPLETED 0 5 in
  let w := Session.with_queue (Scenario.world0 7 Session.CLIENT_STATE_IDLE []) [job] in
  let msg := Scenario.status_msg 3 1 in
  Session.process_client_request Scenario.count_nothing 1000 w msg
  = Session.send_client_error w Proto.ERROR_PERMISSION "Access denied" (Session.corr msg)
  /\ Session.queue_of
       (snd (Session.process_client_request Scenario.count_nothing 1000 w msg))
     = Session.queue_of w.
Proof.
  intros job w msg.
  apply (job_of_another_client_is_denied Scenario.count_nothing 1000 w msg job).
  - left. reflexivity.
  - vm_compute. discriminate.
  - reflexivity.
  - vm_compute. discriminate.
Defined.

Lemma result_is_refused_unless_completed_or_failed_witness :
  let job := Scenario.job_a_c 1 7 Queue.JOB_STATE_CANCELLED 0 5 in
  let w := Session.with_queue (Scenario.world0 7 Session.CLIENT_STATE_PROCESSING []) [job] in
  let msg := Scenario.message Proto.MSG_RESULT_REQUEST 3 (Scenario.le_bytes 4 1) in
  Session.handle_result_request w msg
  = Session.send_client_error w Proto.ERROR_PERMISSION "Job not completed"
      (Session.corr msg).
Proof.
  intros job w msg.
  refine (proj2 (result_is_refused_unless_completed_or_failed w msg job _ _ _) _ _).
  - vm_compute. discriminate.
  - reflexivity.
  - reflexivity.
  - discriminate.
  - discriminate.
Defined.

(** ** Submitting a job, and reading from the socket *)
Section SessionSubmit.

Import Session.

Variable validate_message_header : Proto.message_header_t -> Z.
Variable update_stats_job_submitted : Queue.server_stats_t -> Queue.server_stats_t.

(** X29: an accepted CompileRequest appends one job to the queue, Queued,
    owned by the session and submitted now, under the id the server held
    as [next_id]; the CompileResponse names that same id, the session
    becomes Processing, and the next id is not 0.  A StatusRequest of the
    same session for that id is then answered with the job's status,
    Queued, at progress 0. *)
Theorem accepted_compile_request_queues_the_job_it_names (now : Z) (w : world_t)
    (msg ask : message_t) :
  client_state w = CLIENT_STATE_IDLE ->
  Proto.sizeof_compile_request <= len msg ->
  next_id (server w) <> 0 ->
  writable w ->
  Queue.find_job (next_id (server w)) (queue_of w) = None ->
  Proto.sizeof_uint32 <= len ask ->
  le_uint (bytes_at (data ask) 0 4) = next_id (server w) ->
  let r := handle_compile_request update_stats_job_submitted now w msg in
  exists job,
    fst r = 0
    /\ client_state (snd r) = CLIENT_STATE_PROCESSING
    /\ queue_of (snd r) = queue_of w ++ [job]
    /\ Queue.job_id job = next_id (server w)
    /\ Queue.client_id job = client_id (client w)
    /\ Queue.state job = Queue.JOB_STATE_QUEUED
    /\ Queue.submit_time job = now
    /\ last_sent (snd r)
       = Some (mk_frame Proto.MSG_COMPILE_RESPONSE 24 (corr msg)
                 (CompileResponse (next_id (server w)) Proto.JOB_STATUS_QUEUED 0 0 0 0))
    /\ next_id (server (snd r)) <> 0
    /\ exists text,
         handle_status_request (snd r) ask
         = send_client_response (snd r) Proto.MSG_STATUS_RESPONSE
             (JobStatusPayload (next_id (server w)) Proto.JOB_STATUS_QUEUED 0 0 0 0 text)
             (corr ask).
Proof.
  intros Hs Hlen Hid Hw Hfresh Hlen2 Hask. cbv zeta.
  unfold handle_compile_request. rewrite Hs. cbn [client_state_eqb negb].
  replace (len msg <? Proto.sizeof_compile_request) with false
    by (symmetry; apply Z.ltb_ge; exact Hlen).
  unfold Queue.generate_job_id, Queue.add_job. cbn [Queue.job_id].
  replace (next_id (server w) =? 0) with false by (symmetry; now apply Z.eqb_neq).
  match goal with
  | |- context [send_client_response ?w1 ?t ?p ?c] =>
      set (w1' := w1);
      pose proof (send_client_response_writable w1' t p c) as Hsend;
      pose proof (send_client_response_keeps w1' t p c) as Hkeep;
      set (r := send_client_response w1' t p c) in *
  end.
  assert (Hw1 : writable w1') by exact Hw.
  destruct (Hsend Hw1) as [H0 Hout]. cbv zeta in Hkeep.
  destruct Hkeep as (Hsrv & Hst & _).
  eexists. split; [exact H0|].
  split; [rewrite Hst; reflexivity|].
  unfold queue_of. rewrite Hsrv.
  split; [reflexivity|]. split; [reflexivity|]. split; [reflexivity|].
  split; [reflexivity|]. split; [reflexivity|].
  split; [exact (last_sent_snoc _ _ _ Hout)|].
  split.
  { cbn [w1' server set_ctx next_id].
    destruct (wrap32 (next_id (server w) + 1) =? 0) eqn:E; [discriminate|].
    now apply Z.eqb_neq. }
  unfold handle_status_request.
  replace (len ask <? Proto.sizeof_uint32) with false
    by (symmetry; apply Z.ltb_ge; exact Hlen2).
  rewrite Hask, Hsrv.
  cbn [w1' server set_ctx ctx Queue.job_queue].
  rewrite find_job_app. unfold queue_of in Hfresh. rewrite Hfresh.
  cbn [Queue.find_job Queue.job_id]. rewrite Z.eqb_refl.
  cbn [Queue.client_id].
  replace (client_id (client (snd r))) with (client_id (client w)).
  2:{ destruct (send_client_response_keeps w1' Proto.MSG_COMPILE_RESPONSE
        (CompileResponse (next_id (server w)) Proto.JOB_STATUS_QUEUED 0 0 0 0) (corr msg))
        as (_ & _ & Hc & _). symmetry. exact Hc. }
  rewrite Z.eqb_refl. cbn [negb Queue.state Queue.job_id Queue.start_time
    Queue.end_time Queue.process_id Queue.job_state_code].
  eexists. reflexivity.
Qed.

(** X30: as long as no complete header of 28 bytes can be read, no request
    is served: nothing is sent, and the client record and the server are
    left as they are.  The call returns 0 only when there is simply nothing
    to read on a sound connection the peer has not closed; otherwise it
    returns -1.  The bytes of an incomplete header are taken from the
    socket all the same. *)
Theorem incomplete_header_is_not_served (now : Z) (w : world_t) :
  io_error (sock w) = true
  \/ Z.of_nat (List.length (inbound (sock w))) < Proto.sizeof_message_header ->
  let r := handle_client_message validate_message_header update_stats_job_submitted
             now w in
  (fst r = 0 \/ fst r = -1)
  /\ (fst r = 0 <->
      io_error (sock w) = false /\ inbound (sock w) = []
      /\ peer_closed (sock w) = false)
  /\ outbound (sock (snd r)) = outbound (sock w)
  /\ client (snd r) = client w
  /\ server (snd r) = server w
  /\ (io_error (sock w) = false -> inbound (sock (snd r)) = []).
Proof.
  intros H. cbv zeta. unfold handle_client_message, recv.
  destruct (io_error (sock w)) eqn:He.
  { cbn [fst snd]. repeat split; try (intros; discriminate); auto.
    intros (A & _); discriminate. }
  destruct H as [H|H]; [discriminate|].
  destruct (inbound (sock w)) as [|b l] eqn:Hi.
  { destruct (peer_closed (sock w)) eqn:Hp; cbn [fst snd].
    - repeat split; auto; try (intros; discriminate).
      intros (_ & _ & A); discriminate.
    - repeat split; auto. }
  assert (Hn : (Z.to_nat Proto.sizeof_message_header > List.length (b :: l))%nat).
  { unfold Proto.sizeof_message_header in *. lia. }
  rewrite firstn_all2 by lia. rewrite skipn_all2 by lia.
  replace (Z.of_nat (List.length (b :: l)) =? Proto.sizeof_message_header) with false
    by (symmetry; apply Z.eqb_neq; lia).
  cbn [negb fst snd with_sock sock outbound client server inbound].
  repeat split; auto; try (intros; discriminate).
  intros (_ & A & _); discriminate.
Qed.

End SessionSubmit.

Lemma accepted_compile_request_queues_the_job_it_names_witness :
  let w := Scenario.world0 7 Session.CLIENT_STATE_IDLE [] in
  let msg := Scenario.compile_msg 9 10 in
  let ask := Scenario.status_msg 4 1 in
  let r := Session.handle_compile_request Scenario.count_nothing 1000 w msg in
  exists job,
    fst r = 0
    /\ Session.client_state (snd r) = Session.CLIENT_STATE_PROCESSING
    /\ Session.queue_of (snd r) = Session.queue_of w ++ [job]
    /\ Queue.job_id job = Session.next_id (Session.server w)
    /\ Queue.client_id job = Session.client_id (Session.client w)
    /\ Queue.state job = Queue.JOB_STATE_QUEUED
    /\ Queue.submit_time job = 1000
    /\ Session.last_sent (snd r)
       = Some (Session.mk_frame Proto.MSG_COMPILE_RESPONSE 24 (Session.corr msg)
                 (Session.CompileResponse (Session.next_id (Session.server w))
                    Proto.JOB_STATUS_QUEUED 0 0 0 0))
    /\ Session.next_id (Session.server (snd r)) <> 0
    /\ exists text,
         Session.handle_status_request (snd r) ask
         = Session.send_client_response (snd r) Proto.MSG_STATUS_RESPONSE
             (Session.JobStatusPayload (Session.next_id (Session.server w))
                Proto.JOB_STATUS_QUEUED 0 0 0 0 text)
             (Session.corr ask).
Proof.
  intros w msg ask.
  apply (accepted_compile_request_queues_the_job_it_names Scenario.count_nothing
           1000 w msg ask).
  - reflexivity.
  - vm_compute. discriminate.
  - vm_compute. discriminate.
  - split; reflexivity.
  - reflexivity.
  - vm_compute. discriminate.
  - reflexivity.
Defined.

Lemma incomplete_header_is_not_served_witness :
  let w := Scenario.world0 7 Session.CLIENT_STATE_IDLE [67; 67; 69] in
  let r := Session.handle_client_message Scenario.check_magic Scenario.count_nothing
             1000 w in
  (fst r = 0 \/ fst r = -1)
  /\ (fst r = 0 <->
      Session.io_error (Session.sock w) = false /\ Session.inbound (Session.sock w) = []
      /\ Session.peer_closed (Session.sock w) = false)
  /\ Session.outbound (Session.sock (snd r)) = Session.outbound (Session.sock w)
  /\ Session.client (snd r) = Session.client w
  /\ Session.server (snd r) = Session.server w
  /\ (Session.io_error (Session.sock w) = false ->
      Session.inbound (Session.sock (snd r)) = []).
Proof.
  intros w.
  apply (incomplete_header_is_not_served Scenario.check_magic Scenario.count_nothing
           1000 w).
  right. reflexivity.
Defined.
